(** * ranobelib_to_epub: acquisition, normalisation and EPUB assembly

    A shallow embedding of [get_ranobe_content.py], [create_epub.py] and
    [pipeline.py].  Python dictionaries used as maps are [gmap]s, JSON
    records are Rocq records, network and file effects are threaded through
    an explicit event log, and exceptions are a [res] value.  A Python
    [str] is the string of the bytes of its UTF-8 encoding. *)

From Stdlib Require Import ZArith QArith List String Ascii Bool Lia.
From stdpp Require Import gmap strings.
Import ListNotations.

Local Open Scope string_scope.
Local Open Scope Z_scope.

(** ** Python values shared by the three modules *)

(** The outcome of a call that may raise. *)
Inductive exn : Type :=
  | ValueError (msg : string)
  | TypeError
  | OSError.

Inductive res (A : Type) : Type :=
  | Ok (a : A)
  | Raise (e : exn).
Arguments Ok {A} a.
Arguments Raise {A} e.

Definition bytes : Type := list Byte.byte.

(** The double quote character, as a one-character string. *)
Definition dq : string := String (ascii_of_nat 34) EmptyString.

(** [str.startswith]. *)
Definition startswith (s pre : string) : bool := String.prefix pre s.

(** [str.rfind] for a single character; [-1] when absent. *)
Fixpoint rfind_from (c : ascii) (s : string) (i last : Z) : Z :=
  match s with
  | EmptyString => last
  | String a r => rfind_from c r (i + 1) (if Ascii.eqb a c then i else last)
  end.

Definition rfind (c : ascii) (s : string) : Z := rfind_from c s 0 (-1).

(** Slices [s[:k]] and [s[k:]] for [0 <= k]. *)
Definition slice_to (k : Z) (s : string) : string :=
  substring 0 (Z.to_nat k) s.

Definition slice_from (k : Z) (s : string) : string :=
  substring (Z.to_nat k) (String.length s - Z.to_nat k) s.

(** Does [s[lo:hi]] hold a character other than the dot? *)
Fixpoint has_non_dot (s : string) (i lo hi : Z) : bool :=
  match s with
  | EmptyString => false
  | String a r =>
      ((lo <=? i) && (i <? hi) && negb (Ascii.eqb a "."%char))
      || has_non_dot r (i + 1) lo hi
  end.

(** [os.path.splitext]: the extension starts at the last dot of the last
    path component, leading dots of that component apart. *)
Definition splitext (p : string) : string * string :=
  let sepIndex := rfind "/"%char p in
  let dotIndex := rfind "."%char p in
  if dotIndex >? sepIndex then
    if has_non_dot p 0 (sepIndex + 1) dotIndex
    then (slice_to dotIndex p, slice_from dotIndex p)
    else (p, EmptyString)
  else (p, EmptyString).

(** [os.path.basename]. *)
Definition basename (p : string) : string :=
  slice_from (rfind "/"%char p + 1) p.

(** ASCII white space as [str.strip] sees it (tab to carriage return, the
    four separators 28..31 and the blank). *)
Definition is_space (a : ascii) : bool :=
  let n := Z.of_nat (nat_of_ascii a) in
  ((9 <=? n) && (n <=? 13)) || ((28 <=? n) && (n <=? 32)).

Definition code (a : ascii) : Z := Z.of_nat (nat_of_ascii a).

(** The white space of two bytes: U+0085 and U+00A0. *)
Definition is_space2 (a b : ascii) : bool :=
  (code a =? 194) && ((code b =? 133) || (code b =? 160)).

(** The white space of three bytes: U+1680, U+2000 to U+200A, U+2028,
    U+2029, U+202F, U+205F and U+3000. *)
Definition is_space3 (a b c : ascii) : bool :=
  ((code a =? 225) && (code b =? 154) && (code c =? 128))
  || ((code a =? 226) && (code b =? 128)
      && (((128 <=? code c) && (code c <=? 138))
          || (code c =? 168) || (code c =? 169) || (code c =? 175)))
  || ((code a =? 226) && (code b =? 129) && (code c =? 159))
  || ((code a =? 227) && (code b =? 128) && (code c =? 128)).

(** Truth value of [s.strip()]: some character is not white space, in the
    sense of [str.isspace]. *)
Fixpoint strip_nonempty (s : string) : bool :=
  match s with
  | EmptyString => false
  | String a r =>
      if is_space a then strip_nonempty r
      else
        match r with
        | EmptyString => true
        | String b r1 =>
            if is_space2 a b then strip_nonempty r1
            else
              match r1 with
              | EmptyString => true
              | String c r2 =>
                  if is_space3 a b c then strip_nonempty r2 else true
              end
        end
  end.

(** Truth value of a Python string. *)
Definition truthy (s : string) : bool :=
  match s with EmptyString => false | _ => true end.

(** [sep.join(parts)]. *)
Definition join (sep : string) (parts : list string) : string :=
  String.concat sep parts.

(** [s.split(sep)] for a separator of one character. *)
Fixpoint split_on (sep : ascii) (s : string) : list string :=
  match s with
  | EmptyString => [EmptyString]
  | String a r =>
      if Ascii.eqb a sep then EmptyString :: split_on sep r
      else
        match split_on sep r with
        | [] => [String a EmptyString]
        | h :: t => String a h :: t
        end
  end.

(** *** pathlib

    A [PurePosixPath] keeps a root and the components of its argument:
    empty components and single dots are dropped, so are repeated and
    trailing slashes; exactly two leading slashes are kept as they are. *)
Definition path_parts (p : string) : list string :=
  List.filter (fun c => negb (String.eqb c EmptyString) && negb (String.eqb c "."))
    (split_on "/" p).

Definition path_root (p : string) : string :=
  if startswith p "//" && negb (startswith p "///") then "//"
  else if startswith p "/" then "/" else EmptyString.

(** [str] of the path with this root and these components. *)
Definition path_str (root : string) (parts : list string) : string :=
  match root, parts with
  | EmptyString, [] => "."
  | _, _ => root ++ join "/" parts
  end.

(** [str(Path(a) / b)]: an absolute [b] replaces [a]. *)
Definition path_join (a b : string) : string :=
  if startswith b "/" then path_str (path_root b) (path_parts b)
  else path_str (path_root a) (path_parts a ++ path_parts b)%list.

(** ** The intermediate record (ranobe.json) *)

Record attachment : Type := {
  att_url : string;
  att_filename : string
}.

(** An inline leaf of a paragraph: its ["type"] and its optional ["text"]. *)
Record inline : Type := {
  in_type : string;
  in_text : option string
}.

(** A node of the structured tree: ["type"], the optional ["content"] list
    and the ["image"] fields of [attrs.images] (absent fields are [None]). *)
Record node : Type := {
  n_type : string;
  n_content : option (list inline);
  n_images : list (option string)
}.

(** A chapter's content: a markup string, a dictionary with its ["type"] and
    ["content"], or any other JSON value. *)
Inductive content : Type :=
  | CStr (html : string)
  | CDict (ty : string) (nodes : list node)
  | COther.

Record chapter : Type := {
  ch_id : Z;
  ch_volume : string;
  ch_number : string;
  ch_name : string;
  ch_attachments : list attachment;
  ch_content : content
}.

Record ranobe : Type := {
  r_id : string;
  r_title : option string;
  r_original_title : option string;
  r_description : option string;
  r_cover_image : option string;
  r_chapters : list chapter
}.
(** ** create_epub.py *)

(** *** Sorting

    [sorted] is stable and compares with [<].  A comparison between a float
    and a string raises [TypeError]; a list of fewer than two elements is
    never compared.  The values of [float(...)] are the finite floats, taken
    as rationals (every finite float is one), the two infinities and NaN,
    which [<] relates to nothing. *)

Inductive float_val : Type :=
  | Fin (q : Q)
  | Inf (negative : bool)
  | NaN.

Definition Qlt_bool (x y : Q) : bool := negb (Qle_bool y x).

(** [x < y] on floats. *)
Definition float_lt (x y : float_val) : bool :=
  match x, y with
  | NaN, _ | _, NaN => false
  | Fin a, Fin b => Qlt_bool a b
  | Fin _, Inf negative => negb negative
  | Inf negative, Fin _ => negative
  | Inf a, Inf b => a && negb b
  end.

Inductive sort_key : Type :=
  | KNum (x : float_val)
  | KStr (s : string).

Definition is_num (k : sort_key) : bool :=
  match k with KNum _ => true | KStr _ => false end.

Definition is_nan_key (k : sort_key) : bool :=
  match k with KNum NaN => true | _ => false end.

(** [a < b] on sort keys. *)
Definition key_lt (a b : sort_key) : res bool :=
  match a, b with
  | KNum x, KNum y => Ok (float_lt x y)
  | KStr s, KStr t => Ok (String.ltb s t)
  | _, _ => Raise TypeError
  end.

(** Stable insertion of [x], which precedes every element of [l] in the
    input: it moves right only past elements strictly smaller than it. *)
Fixpoint sort_insert {A : Type} (x : sort_key * A) (l : list (sort_key * A))
  : res (list (sort_key * A)) :=
  match l with
  | [] => Ok [x]
  | y :: l' =>
      match key_lt (fst y) (fst x) with
      | Raise e => Raise e
      | Ok false => Ok (x :: y :: l')
      | Ok true =>
          match sort_insert x l' with
          | Raise e => Raise e
          | Ok r => Ok (y :: r)
          end
      end
  end.

(** The list every stable sort returns for keys that [<] orders: floats
    without a NaN among them, or strings. *)
Fixpoint sort_keyed {A : Type} (l : list (sort_key * A))
  : res (list (sort_key * A)) :=
  match l with
  | [] => Ok []
  | x :: l' =>
      match sort_keyed l' with
      | Raise e => Raise e
      | Ok r => sort_insert x r
      end
  end.

(** Applying a key function that may raise to every element, in order. *)
Fixpoint keyed {A : Type} (key : A -> res sort_key) (l : list A)
  : res (list (sort_key * A)) :=
  match l with
  | [] => Ok []
  | x :: l' =>
      match key x with
      | Raise e => Raise e
      | Ok k =>
          match keyed key l' with
          | Raise e => Raise e
          | Ok r => Ok ((k, x) :: r)
          end
      end
  end.

(** Python's floats as the assembly uses them: the value of [float(s)]
    ([None]: [ValueError]) and what [list.sort] makes of two or more float
    keys with a NaN among them.  There [<] is no order and the list
    returned is a matter of the sorting algorithm; all that is known of it
    is that it holds the elements given. *)
Record python_floats : Type := {
  float_of : string -> option float_val;
  sort_with_nan : forall A : Type, list (sort_key * A) -> list (sort_key * A);
  sort_with_nan_perm :
    forall (A : Type) (l : list (sort_key * A)),
      Permutation (sort_with_nan A l) l
}.

(** Float keys only, a NaN among them, and something to compare. *)
Definition unordered {A : Type} (kl : list (sort_key * A)) : bool :=
  forallb (fun p => is_num (fst p)) kl
  && existsb (fun p => is_nan_key (fst p)) kl
  && (2 <=? length kl)%nat.

(** [sorted(l, key=key)]. *)
Definition py_sorted {A : Type} (pyfloat : python_floats)
    (key : A -> res sort_key) (l : list A) : res (list A) :=
  match keyed key l with
  | Raise e => Raise e
  | Ok kl =>
      if unordered kl then Ok (map snd (sort_with_nan pyfloat A kl))
      else
        match sort_keyed kl with
        | Raise e => Raise e
        | Ok r => Ok (map snd r)
        end
  end.

(** [lambda x: float(x)]: [ValueError] on a label that is not a number. *)
Definition float_key (pyfloat : python_floats) (s : string) : res sort_key :=
  match float_of pyfloat s with
  | Some x => Ok (KNum x)
  | None => Raise (ValueError "could not convert string to float")
  end.

(** [_vol_key]: the number when [float] accepts the label, else the label. *)
Definition _vol_key (pyfloat : python_floats) (v : string) : sort_key :=
  match float_of pyfloat v with
  | Some x => KNum x
  | None => KStr v
  end.

(** *** Grouping by volume (lines 85-88)

    [volumes_map] is a [defaultdict(list)]: its keys keep the order of their
    first insertion, which [sorted] preserves among equal keys. *)

Fixpoint vm_append (v : string) (ch : chapter) (m : list (string * list chapter))
  : list (string * list chapter) :=
  match m with
  | [] => [(v, [ch])]
  | (k, cs) :: m' =>
      if String.eqb k v then (k, (cs ++ [ch])%list) :: m'
      else (k, cs) :: vm_append v ch m'
  end.

Definition volumes_map_of (chapters : list chapter) : list (string * list chapter) :=
  fold_left (fun m ch => vm_append (ch_volume ch) ch m) chapters [].

Fixpoint vm_get (m : list (string * list chapter)) (v : string) : list chapter :=
  match m with
  | [] => []
  | (k, cs) :: m' => if String.eqb k v then cs else vm_get m' v
  end.

(** The loop of lines 101-135, reduced to what it orders: each volume label
    with its chapters as sorted by [float(c["chapter"])]. *)
Fixpoint volume_loop (pyfloat : python_floats)
    (m : list (string * list chapter)) (vols : list string)
  : res (list (string * list chapter)) :=
  match vols with
  | [] => Ok []
  | vol :: rest =>
      match py_sorted pyfloat (fun c => float_key pyfloat (ch_number c))
              (vm_get m vol) with
      | Raise e => Raise e
      | Ok chapters =>
          match volume_loop pyfloat m rest with
          | Raise e => Raise e
          | Ok secs => Ok ((vol, chapters) :: secs)
          end
      end
  end.

(** Lines 85-135 of [create_epub]: the volume sections in spine order. *)
Definition volume_sections (pyfloat : python_floats) (data : ranobe)
  : res (list (string * list chapter)) :=
  let volumes_map := volumes_map_of (r_chapters data) in
  match py_sorted pyfloat (fun v => Ok (_vol_key pyfloat v))
          (map fst volumes_map) with
  | Raise e => Raise e
  | Ok sorted_vols => volume_loop pyfloat volumes_map sorted_vols
  end.

(** A reading of [float] on plain decimal labels of at most fifteen
    significant digits, where distinct labels are distinct floats: an
    optional sign, digits and an optional fraction.  Exponents, [inf],
    [nan], surrounding blanks and digit separators are left to the
    parameter of the general statements. *)
Definition digit_val (a : ascii) : option Z :=
  let n := Z.of_nat (nat_of_ascii a) in
  if (48 <=? n) && (n <=? 57) then Some (n - 48) else None.

Fixpoint read_digits (s : string) (acc : Z) (cnt : nat) : Z * nat * string :=
  match s with
  | EmptyString => (acc, cnt, s)
  | String a r =>
      match digit_val a with
      | Some d => read_digits r (10 * acc + d) (S cnt)
      | None => (acc, cnt, s)
      end
  end.

Definition decimal_unsigned (s : string) : option Q :=
  let '(ip, n1, r1) := read_digits s 0 O in
  match r1 with
  | EmptyString => if Nat.eqb n1 O then None else Some (inject_Z ip)
  | String "." r2 =>
      let '(fp, n2, r3) := read_digits r2 0 O in
      match r3 with
      | EmptyString =>
          if Nat.eqb (n1 + n2) O then None
          else Some (inject_Z ip + Qmake fp (Pos.pow 10 (Pos.of_nat n2)))%Q
      | _ => None
      end
  | _ => None
  end.

Definition decimal_value (s : string) : option float_val :=
  option_map Fin
    match s with
    | String "-" r => option_map Qopp (decimal_unsigned r)
    | String "+" r => decimal_unsigned r
    | _ => decimal_unsigned s
    end.

(** The floats of the examples: [decimal_value], which yields no NaN, so
    that the order left among NaN keys never matters. *)
Definition decimal_float : python_floats :=
  {| float_of := decimal_value;
     sort_with_nan := fun _ l => l;
     sort_with_nan_perm := fun _ l => Permutation_refl l |}.

(** *** _doc_to_html (lines 207-282) *)

(** [name_map]: file name without its extension -> file name; a later
    attachment replaces an earlier one with the same key. *)
Definition stem (att : attachment) : string :=
  fst (splitext (att_filename att)).

(** One turn of the loop that fills [name_map]. *)
Definition name_map_step (name_map : gmap string string) (att : attachment)
  : gmap string string :=
  let base_name := stem att in
  <[base_name := att_filename att]> name_map.

Definition name_map_of (attachments : list attachment) : gmap string string :=
  fold_left name_map_step attachments ∅.

(** The text gathered from the inline leaves of a paragraph node. *)
Definition paragraph_text_of (nd : node) : string :=
  match n_content nd with
  | None => EmptyString
  | Some inlines =>
      fold_left
        (fun paragraph_text i =>
           if String.eqb (in_type i) "text"
           then paragraph_text ++ default EmptyString (in_text i)
           else paragraph_text)
        inlines EmptyString
  end.

Definition img_tag (filename : string) : string :=
  "<img src=" ++ dq ++ "imgs/" ++ filename ++ dq ++ "/>".

(** What the converter appends for a node: strings for [html_parts] and
    the identifiers it warns about. *)
Record emitted : Type := {
  html_parts : list string;
  warned : list string
}.

Definition emit_nothing : emitted := {| html_parts := []; warned := [] |}.

Definition emit_app (a b : emitted) : emitted :=
  {| html_parts := (html_parts a ++ html_parts b)%list;
     warned := (warned a ++ warned b)%list |}.

(** One element of [attrs.images]. *)
Definition image_emit (name_map : gmap string string) (img_obj : option string)
  : emitted :=
  match img_obj with
  | None => emit_nothing
  | Some img_name =>
      if negb (truthy img_name) then emit_nothing
      else
        match name_map !! img_name with
        | Some filename =>
            if truthy filename
            then {| html_parts := [img_tag filename]; warned := [] |}
            else {| html_parts := []; warned := [img_name] |}
        | None => {| html_parts := []; warned := [img_name] |}
        end
  end.

Definition node_emit (name_map : gmap string string) (nd : node) : emitted :=
  if String.eqb (n_type nd) "paragraph" then
    let paragraph_text := paragraph_text_of nd in
    if strip_nonempty paragraph_text
    then {| html_parts := ["<p>" ++ paragraph_text ++ "</p>"]; warned := [] |}
    else emit_nothing
  else if String.eqb (n_type nd) "image" then
    fold_left (fun acc img_obj => emit_app acc (image_emit name_map img_obj))
              (n_images nd) emit_nothing
  else emit_nothing.

Definition doc_emit (nodes : list node) (attachments : list attachment) : emitted :=
  let name_map := name_map_of attachments in
  fold_left (fun acc nd => emit_app acc (node_emit name_map nd)) nodes emit_nothing.

Definition newline : string := String (ascii_of_nat 10) EmptyString.

(** [_doc_to_html(doc_content, attachments)], the dictionary given by its
    ["type"] and its ["content"]. *)
Definition _doc_to_html (ty : string) (nodes : list node)
    (attachments : list attachment) : string :=
  if negb (String.eqb ty "doc") then EmptyString
  else join newline (html_parts (doc_emit nodes attachments)).


(** *** _compress_image (lines 284-303) *)

(** The files under the record's directory and the imaging library:
    [jpeg quality raw] is the re-encoded image, [None] when opening,
    converting or saving raises. *)
Record asm_env : Type := {
  fs : string -> option bytes;
  jpeg : Z -> bytes -> option bytes
}.

Inductive asm_event : Type :=
  | ImageOpen (img_path : string)
  | CompressWarning (img_path : string)
  | ReadBytes (img_path : string).

(** The creator's mutable part: [_image_cache] and the trace of what the
    run did, oldest event first. *)
Record creator : Type := {
  image_quality : Z;
  _image_cache : gmap string bytes;
  asm_trace : list asm_event
}.

Definition new_creator (quality : Z) : creator :=
  {| image_quality := quality; _image_cache := ∅; asm_trace := [] |}.

Definition log_asm (evs : list asm_event) (c : creator) : creator :=
  {| image_quality := image_quality c;
     _image_cache := _image_cache c;
     asm_trace := (asm_trace c ++ evs)%list |}.

Definition cache_store (img_path : string) (data : bytes) (c : creator) : creator :=
  {| image_quality := image_quality c;
     _image_cache := <[img_path := data]> (_image_cache c);
     asm_trace := asm_trace c |}.

Definition _compress_image (E : asm_env) (img_path : string) (c : creator)
  : res bytes * creator :=
  match _image_cache c !! img_path with
  | Some data => (Ok data, c)
  | None =>
      let c1 := log_asm [ImageOpen img_path] c in
      match fs E img_path with
      | Some raw =>
          match jpeg E (image_quality c) raw with
          | Some data => (Ok data, cache_store img_path data c1)
          | None =>
              (Ok raw, log_asm [CompressWarning img_path; ReadBytes img_path] c1)
          end
      | None =>
          (* Image.open raises, and so does read_bytes in the handler *)
          (Raise OSError, log_asm [CompressWarning img_path; ReadBytes img_path] c1)
      end
  end.

(** How often the imaging library was asked to open [img_path]. *)
Definition count_opens (img_path : string) (evs : list asm_event) : nat :=
  length (List.filter (fun e => match e with
                                | ImageOpen p => String.eqb p img_path
                                | _ => false
                                end) evs).

Definition opens_of (img_path : string) (c : creator) : nat :=
  count_opens img_path (asm_trace c).

(** *** _make_title_page (lines 305-337) *)

(** The ["Далее"] link: the first volume by [float], or ["#"]. *)
Definition title_link (pyfloat : python_floats) (data : ranobe) : string :=
  let volumes := map ch_volume (r_chapters data) in
  match volumes with
  | [] => "#"
  | _ =>
      match py_sorted pyfloat (float_key pyfloat) volumes with
      | Ok (first_vol :: _) =>
          "volume_" ++ first_vol ++ ".xhtml#volume_" ++ first_vol
      | _ => "#"
      end
  end.

Record page : Type := {
  page_title : string;
  page_file_name : string;
  page_content : string
}.

Definition title_html (title orig desc link : string) : string :=
  newline ++
  "        <h1 style=" ++ dq ++ "text-align:center;" ++ dq ++ ">" ++ title ++ "</h1>" ++ newline ++
  "        <h2 style=" ++ dq ++ "text-align:center;" ++ dq ++ ">" ++ orig ++ "</h2>" ++ newline ++
  "        <h3>Описание</h3>" ++ newline ++
  "        <p>" ++ desc ++ "</p>" ++ newline ++
  "        <p style=" ++ dq ++ "text-align:center;" ++ dq ++ ">" ++ newline ++
  "          <a href=" ++ dq ++ link ++ dq ++ " style=" ++ dq ++ "font-size:1.2em;" ++ dq ++ ">Далее &raquo;</a>" ++ newline ++
  "        </p>" ++ newline ++
  "        <h3>Содержание</h3>" ++ newline ++
  "        <p>Используйте оглавление или кнопку &laquo;Далее&raquo;.</p>" ++ newline ++
  "        ".

Definition _make_title_page (pyfloat : python_floats) (data : ranobe) : page :=
  let title := default "Без названия" (r_title data) in
  let orig := default EmptyString (r_original_title data) in
  let desc := default EmptyString (r_description data) in
  let link := title_link pyfloat data in
  {| page_title := "Титульная страница";
     page_file_name := "title_page.xhtml";
     page_content := title_html title orig desc link |}.

(** ** get_ranobe_content.py *)

(** *** The world around the acquisition

    Everything the module reaches through a library is a field of [env]:
    the HTTP client, the JSON decoding of each endpoint, the regular
    expression engine, the HTML parser and printer, URL and path helpers,
    and the progress tracker of the front end. *)

Record response : Type := {
  status_code : Z;
  resp_content : bytes
}.

(** [requests.get] either answers or raises. *)
Inductive http_result : Type :=
  | Responded (r : response)
  | RequestFailed.

(** An entry of the chapter list after [int(ch['volume'])] and
    [float(ch['number'])]. *)
Record stub : Type := {
  tom : Z;
  chapter_no : float_val;
  stub_name : string;
  stub_id : Z
}.

Record book_info : Type := {
  info_rus_name : option string;
  info_name : option string;
  info_summary : option string
}.

(** An [<img>] tag is its attribute dictionary, in document order. *)
Definition attrs : Type := list (string * string).

(** Parsed markup as the module sees it: [<img>] tags among other markup. *)
Inductive piece : Type :=
  | Raw (s : string)
  | Img (a : attrs).

Record env : Type := {
  (** the [n]-th request of the run (counted from 0), sent to a URL *)
  http_get : nat -> string -> http_result;
  (** [r.json().get('data', {})] of the book endpoint; [None] when it is
      falsy ([null] or an empty dictionary), [Raise] when decoding raises *)
  json_info : bytes -> res (option book_info);
  (** [data.get('cover', {}).get('default')] *)
  json_cover : bytes -> res (option string);
  (** the converted chapter list, [Raise] when a conversion raises *)
  json_chapters : bytes -> res (list stub);
  (** what [list.sort] makes of two or more entries with a NaN among their
      chapter numbers, where tuples are not ordered by [<] *)
  sort_stubs_with_nan : list stub -> list stub;
  (** [r.json().get('data')] of the chapter endpoint, [None] when falsy *)
  json_chapter : bytes -> res (option chapter);
  (** [re.search(pat, s)] and its group 1 *)
  re_search : string -> string -> option string;
  (** does creating the directory and writing the file succeed *)
  can_write : string -> bool;
  (** [BeautifulSoup(html, "html.parser")] and [str(soup)] *)
  bs_parse : string -> list piece;
  bs_str : list piece -> string;
  (** [urlparse(u).path]; [Raise]: [urlparse] rejects the reference with
      [ValueError] *)
  url_path : string -> res string;
  (** [Path(u).suffix], [str] of an int and of a float *)
  path_suffix : string -> string;
  int_str : Z -> string;
  float_str : float_val -> string;
  (** fractions reported by [progress.tqdm] when item [i] of [n] is asked
      for ([i = n]: the iterator is exhausted) *)
  tqdm_report : nat -> nat -> list Q
}.

Inductive event : Type :=
  | Get (url : string)
  | Sleep (seconds : Z)
  | WriteFile (path : string) (data : bytes)
  | WriteRecord (path : string) (data : ranobe)
  | LogWarning (msg : string)
  | LogError (msg : string)
  | LogInfo (msg : string)
  | Progress (fraction : Q).

(** The run so far, oldest event first. *)
Definition trace : Type := list event.

Definition is_get (e : event) : bool :=
  match e with Get _ => true | _ => false end.

Definition requests_made (tr : trace) : nat := length (List.filter is_get tr).

(** [requests.get(url)]: the request is recorded and answered. *)
Definition requests_get (E : env) (url : string) (tr : trace)
  : http_result * trace :=
  (http_get E (requests_made tr) url, (tr ++ [Get url])%list).

(** *** extract_book_id (lines 16-30) *)

Definition patterns : list string :=
  [ "/ru/book/(\d+--[\w-]+)"; "/ru/(\d+--[\w-]+)/" ].

Fixpoint first_match (E : env) (pats : list string) (url : string)
  : option string :=
  match pats with
  | [] => None
  | pat :: rest =>
      match re_search E pat url with
      | Some g => Some g
      | None => first_match E rest url
      end
  end.

Definition extract_book_id (E : env) (url : string) : option string :=
  first_match E patterns url.

(** *** get_book_info, get_cover_url, get_chapters_list (lines 32-72) *)

Definition api : string := "https://api2.mangalib.me/api/manga/".

Definition get_book_info (E : env) (book_id : string) (tr : trace)
  : res (option book_info) * trace :=
  let api_url := api ++ book_id ++ "?fields[]=summary" in
  let '(r, tr1) := requests_get E api_url tr in
  match r with
  | RequestFailed => (Raise OSError, tr1)
  | Responded r =>
      if status_code r =? 200 then (json_info E (resp_content r), tr1)
      else (Ok None, tr1)
  end.

Definition get_cover_url (E : env) (book_id : string) (tr : trace)
  : res (option string) * trace :=
  let api_url := api ++ book_id in
  let '(r, tr1) := requests_get E api_url tr in
  match r with
  | RequestFailed => (Raise OSError, tr1)
  | Responded r =>
      if status_code r =? 200 then (json_cover E (resp_content r), tr1)
      else (Ok None, tr1)
  end.

(** [(x['tom'], x['chapter'])] compared as tuples. *)
Definition stub_lt (a b : stub) : bool :=
  (tom a <? tom b) || ((tom a =? tom b) && float_lt (chapter_no a) (chapter_no b)).

Fixpoint stub_insert (x : stub) (l : list stub) : list stub :=
  match l with
  | [] => [x]
  | y :: l' => if stub_lt y x then y :: stub_insert x l' else x :: y :: l'
  end.

(** Stable insertion sort: the list every stable sort returns when no
    chapter number is NaN. *)
Definition stub_sort (l : list stub) : list stub := fold_right stub_insert [] l.

Definition has_nan_stub (l : list stub) : bool :=
  existsb (fun s => match chapter_no s with NaN => true | _ => false end) l.

(** [chapters.sort(key=lambda x: (x['tom'], x['chapter']))]. *)
Definition sort_stubs (E : env) (l : list stub) : list stub :=
  if has_nan_stub l && (2 <=? length l)%nat then sort_stubs_with_nan E l
  else stub_sort l.

Definition get_chapters_list (E : env) (book_id : string) (tr : trace)
  : res (list stub) * trace :=
  let api_url := api ++ book_id ++ "/chapters" in
  let '(r, tr1) := requests_get E api_url tr in
  match r with
  | RequestFailed => (Raise OSError, tr1)
  | Responded r =>
      if status_code r =? 200 then
        match json_chapters E (resp_content r) with
        | Raise e => (Raise e, tr1)
        | Ok chapters => (Ok (sort_stubs E chapters), tr1)
        end
      else (Ok [], tr1)
  end.

(** *** get_chapter_data (lines 74-99) *)

Fixpoint ends_with_dot_zero (s : string) : bool :=
  match s with
  | EmptyString => false
  | String a r => String.eqb s ".0" || ends_with_dot_zero r
  end.

(** [s.split('.')[0]]. *)
Fixpoint before_dot (s : string) : string :=
  match s with
  | EmptyString => EmptyString
  | String a r => if Ascii.eqb a "."%char then EmptyString else String a (before_dot r)
  end.

Definition chapter_url (book_id volume chapter : string) : string :=
  let chapter := if ends_with_dot_zero chapter then before_dot chapter else chapter in
  api ++ book_id ++ "/chapter?number=" ++ chapter ++ "&volume=" ++ volume.

(** The pause after a failed attempt, the last one apart:
    [time.sleep(sleep_time)], which raises [ValueError] for a negative
    length. *)
Definition pause (attempt max_retries sleep_time : Z) (tr : trace) : res trace :=
  if attempt <? max_retries then
    if sleep_time <? 0
    then Raise (ValueError "sleep length must be non-negative")
    else Ok (tr ++ [Sleep sleep_time])%list
  else Ok tr.

(** The attempts [attempt, attempt+1, ...] of the loop, [remaining] of
    them.  What the body of [try] raises is logged and the loop goes on; the
    pause stands outside it. *)
Fixpoint chapter_attempts (E : env) (api_url : string)
    (max_retries sleep_time : Z) (remaining : nat) (attempt : Z) (tr : trace)
  : res (option chapter) * trace :=
  match remaining with
  | O => (Ok None, tr)
  | S remaining_1 =>
      let '(r, tr1) := requests_get E api_url tr in
      let retry tr2 :=
        match pause attempt max_retries sleep_time tr2 with
        | Raise e => (Raise e, tr2)
        | Ok tr3 =>
            chapter_attempts E api_url max_retries sleep_time remaining_1
              (attempt + 1) tr3
        end in
      match r with
      | Responded r =>
          if status_code r =? 200 then
            match json_chapter E (resp_content r) with
            | Ok data => (Ok data, tr1)
            | Raise _ => retry (tr1 ++ [LogError "chapter request"])%list
            end
          else retry (tr1 ++ [LogWarning "chapter status"])%list
      | RequestFailed => retry (tr1 ++ [LogError "chapter request"])%list
      end
  end.

Definition get_chapter_data (E : env) (book_id volume chap : string)
    (max_retries sleep_time : Z) (tr : trace)
  : res (option chapter) * trace :=
  chapter_attempts E (chapter_url book_id volume chap)
    max_retries sleep_time (Z.to_nat max_retries) 1 tr.

(** *** download_image (lines 101-129) *)

Definition site : string := "https://ranobelib.me".

Definition image_target (url : string) : string :=
  if startswith url "https://" then url else site ++ url.

Fixpoint image_attempts (E : env) (url save_path : string)
    (max_retries sleep_time : Z) (remaining : nat) (attempt : Z) (tr : trace)
  : res bool * trace :=
  match remaining with
  | O => (Ok false, tr)
  | S remaining_1 =>
      let '(r, tr1) := requests_get E (image_target url) tr in
      let retry tr2 :=
        match pause attempt max_retries sleep_time tr2 with
        | Raise e => (Raise e, tr2)
        | Ok tr3 =>
            image_attempts E url save_path max_retries sleep_time remaining_1
              (attempt + 1) tr3
        end in
      match r with
      | Responded r =>
          if status_code r =? 200 then
            if can_write E save_path
            then (Ok true, (tr1 ++ [WriteFile save_path (resp_content r)])%list)
            else retry (tr1 ++ [LogError "image write"])%list
          else retry (tr1 ++ [LogWarning "image status"])%list
      | RequestFailed => retry (tr1 ++ [LogError "image request"])%list
      end
  end.

Definition download_image (E : env) (url save_path : string)
    (max_retries sleep_time : Z) (tr : trace) : res bool * trace :=
  image_attempts E url save_path max_retries sleep_time
    (Z.to_nat max_retries) 1 tr.

(** *** fix_img_links_in_html (lines 131-163) *)

Fixpoint attr_get (k : string) (a : attrs) : option string :=
  match a with
  | [] => None
  | (k', v) :: a' => if String.eqb k' k then Some v else attr_get k a'
  end.

(** [del tag.attrs[k]]. *)
Fixpoint attr_del (k : string) (a : attrs) : attrs :=
  match a with
  | [] => []
  | (k', v) :: a' =>
      if String.eqb k' k then attr_del k a' else (k', v) :: attr_del k a'
  end.

(** [tag[k] = v]: the value is replaced where the key stands, or appended. *)
Fixpoint attr_set (k v : string) (a : attrs) : attrs :=
  match a with
  | [] => [(k, v)]
  | (k', v') :: a' =>
      if String.eqb k' k then (k, v) :: a' else (k', v') :: attr_set k v a'
  end.

Definition default_max_retries : Z := 5.
Definition default_sleep_time : Z := 1.

(** The local file name chosen for a remote source: the last component of
    the path [urlparse] finds in it. *)
Definition local_filename (E : env) (src_val : string) : res string :=
  match url_path E src_val with
  | Raise e => Raise e
  | Ok parsed_path =>
      let filename := basename parsed_path in
      Ok (if truthy filename then filename else "img_unknown.jpg")
  end.

(** The body of the loop over the [<img>] tags. *)
Definition fix_img_tag (E : env) (output_folder : string) (tag : attrs)
    (tr : trace) : res attrs * trace :=
  let tag1 :=
    match attr_get "loading" tag with
    | Some _ => attr_del "loading" tag
    | None => tag
    end in
  match attr_get "src" tag1 with
  | None => (Ok tag1, tr)
  | Some src_val =>
      if negb (truthy src_val) then (Ok tag1, tr)
      else if startswith src_val "http" || startswith src_val "/uploads/" then
        match local_filename E src_val with
        | Raise e => (Raise e, tr)
        | Ok filename =>
            let local_path :=
              path_join (path_join output_folder "imgs") filename in
            let '(ok, tr1) :=
              download_image E src_val local_path
                default_max_retries default_sleep_time tr in
            match ok with
            | Raise e => (Raise e, tr1)
            | Ok true => (Ok (attr_set "src" ("imgs/" ++ filename) tag1), tr1)
            | Ok false => (Ok tag1, tr1)
            end
        end
      else (Ok tag1, tr)
  end.

(** The loop over the tags, in document order; an exception ends it. *)
Fixpoint fix_imgs (E : env) (output_folder : string) (soup : list piece)
    (tr : trace) : res (list piece) * trace :=
  match soup with
  | [] => (Ok [], tr)
  | Raw s :: rest =>
      let '(rest', tr') := fix_imgs E output_folder rest tr in
      match rest' with
      | Raise e => (Raise e, tr')
      | Ok rest' => (Ok (Raw s :: rest'), tr')
      end
  | Img tag :: rest =>
      let '(tag', tr1) := fix_img_tag E output_folder tag tr in
      match tag' with
      | Raise e => (Raise e, tr1)
      | Ok tag' =>
          let '(rest', tr') := fix_imgs E output_folder rest tr1 in
          match rest' with
          | Raise e => (Raise e, tr')
          | Ok rest' => (Ok (Img tag' :: rest'), tr')
          end
      end
  end.

Definition fix_img_links_in_html (E : env) (html_str output_folder : string)
    (tr : trace) : res string * trace :=
  let soup := bs_parse E html_str in
  let '(soup', tr') := fix_imgs E output_folder soup tr in
  match soup' with
  | Raise e => (Raise e, tr')
  | Ok soup' => (Ok (bs_str E soup'), tr')
  end.

(** *** fix_img_links_in_doc (lines 165-178) *)

(** One [download_image] per attachment, its outcome ignored. *)
Fixpoint download_attachments (E : env) (imgs_dir : string)
    (attachments : list attachment) (tr : trace) : res unit * trace :=
  match attachments with
  | [] => (Ok tt, tr)
  | att :: rest =>
      let local_path := path_join imgs_dir (att_filename att) in
      let '(ok, tr1) :=
        download_image E (att_url att) local_path
          default_max_retries default_sleep_time tr in
      match ok with
      | Raise e => (Raise e, tr1)
      | Ok _ => download_attachments E imgs_dir rest tr1
      end
  end.

Definition fix_img_links_in_doc (E : env) (doc_data : content)
    (output_folder : string) (attachments : list attachment) (tr : trace)
  : res content * trace :=
  let '(r, tr1) :=
    download_attachments E (path_join output_folder "imgs") attachments tr in
  match r with
  | Raise e => (Raise e, tr1)
  | Ok _ => (Ok doc_data, tr1)
  end.

(** *** get_ranobe_content (lines 180-298) *)

Definition progress (fraction : Q) (tr : trace) : trace :=
  (tr ++ [Progress fraction])%list.

(** Asking [progress.tqdm] for item [i] of [n]. *)
Definition tqdm_next (E : env) (i n : nat) (tr : trace) : trace :=
  (tr ++ map Progress (tqdm_report E i n))%list.

(** Lines 247-256: the content as stored in the chapter record. *)
Definition normalize_content (E : env) (c : content) (out_path : string)
    (attachments : list attachment) (tr : trace) : res content * trace :=
  match c with
  | CStr html =>
      let '(new_html, tr1) := fix_img_links_in_html E html out_path tr in
      match new_html with
      | Raise e => (Raise e, tr1)
      | Ok new_html => (Ok (CStr new_html), tr1)
      end
  | CDict ty nodes =>
      if String.eqb ty "doc"
      then fix_img_links_in_doc E (CDict ty nodes) out_path attachments tr
      else (Ok (CDict ty nodes), tr)
  | COther => (Ok COther, tr)
  end.

(** One iteration of the chapter loop (lines 240-274). *)
Definition chapter_step (E : env) (book_id out_path : string) (ch : stub)
    (all_chapters : list chapter) (tr : trace)
  : res (list chapter) * trace :=
  let tom_str := int_str E (tom ch) in
  let chap_str := float_str E (chapter_no ch) in
  let '(ch_data, tr1) :=
    get_chapter_data E book_id tom_str chap_str
      default_max_retries default_sleep_time tr in
  match ch_data with
  | Raise e => (Raise e, tr1)
  | Ok None => (Ok all_chapters, (tr1 ++ [LogWarning "chapter skipped"])%list)
  | Ok (Some d) =>
      let attachments := ch_attachments d in
      let '(content, tr2) :=
        normalize_content E (ch_content d) out_path attachments tr1 in
      match content with
      | Raise e => (Raise e, tr2)
      | Ok content =>
          let '(r, tr3) :=
            download_attachments E (path_join out_path "imgs") attachments
              tr2 in
          match r with
          | Raise e => (Raise e, tr3)
          | Ok _ =>
              let chapter_rec :=
                {| ch_id := ch_id d;
                   ch_volume := ch_volume d;
                   ch_number := ch_number d;
                   ch_name := ch_name d;
                   ch_attachments := attachments;
                   ch_content := content |} in
              (Ok (all_chapters ++ [chapter_rec])%list, tr3)
          end
      end
  end.

(** The loop over [progress.tqdm(chapters_list)]: item [i] of [n] is asked
    for, then processed; an exception ends the loop. *)
Fixpoint chapters_loop (E : env) (book_id out_path : string) (n i : nat)
    (stubs : list stub) (all_chapters : list chapter) (tr : trace)
  : res (list chapter) * trace :=
  match stubs with
  | [] => (Ok all_chapters, tqdm_next E i n tr)
  | ch :: rest =>
      let '(all_chapters', tr') :=
        chapter_step E book_id out_path ch all_chapters (tqdm_next E i n tr) in
      match all_chapters' with
      | Raise e => (Raise e, tr')
      | Ok all_chapters' =>
          chapters_loop E book_id out_path n (S i) rest all_chapters' tr'
      end
  end.

(** Lines 214-221: the cover, best effort. *)
Definition fetch_cover (E : env) (book_id imgs_path : string) (tr : trace)
  : res (option string) * trace :=
  let '(cover_url, tr1) := get_cover_url E book_id tr in
  match cover_url with
  | Raise e => (Raise e, tr1)
  | Ok None => (Ok None, tr1)
  | Ok (Some cover_url) =>
      if negb (truthy cover_url) then (Ok None, tr1)
      else
        let cover_filename := "cover" ++ path_suffix E cover_url in
        let cover_full_path := path_join imgs_path cover_filename in
        let '(ok, tr2) :=
          download_image E cover_url cover_full_path
            default_max_retries default_sleep_time tr1 in
        match ok with
        | Raise e => (Raise e, tr2)
        | Ok ok =>
            (Ok (if ok then Some ("imgs/" ++ cover_filename) else None), tr2)
        end
  end.

(** Creating the directories is taken to succeed. *)
Definition get_ranobe_content (E : env) (book_url output_dir : string)
    (tr : trace) : res string * trace :=
  let tr := progress 0 tr in
  let out_path := output_dir in
  let imgs_path := path_join out_path "imgs" in
  let tr := progress (5 # 100) tr in
  match extract_book_id E book_url with
  | None => (Raise (ValueError "Не удалось извлечь ID книги"), tr)
  | Some book_id =>
      if negb (truthy book_id)
      then (Raise (ValueError "Не удалось извлечь ID книги"), tr)
      else
      let '(info, tr) := get_book_info E book_id tr in
      match info with
      | Raise e => (Raise e, tr)
      | Ok None => (Raise (ValueError "Не удалось получить инфо о книге"), tr)
      | Ok (Some info) =>
          let tr := progress (1 # 10) tr in
          let '(cover_local, tr) := fetch_cover E book_id imgs_path tr in
          match cover_local with
          | Raise e => (Raise e, tr)
          | Ok cover_local =>
              let tr := progress (15 # 100) tr in
              let '(chapters_list, tr) := get_chapters_list E book_id tr in
              match chapters_list with
              | Raise e => (Raise e, tr)
              | Ok chapters_list =>
                  let tr := (tr ++ [LogInfo "chapters found"])%list in
                  let '(all_chapters, tr) :=
                    chapters_loop E book_id out_path
                      (length chapters_list) 0 chapters_list [] tr in
                  match all_chapters with
                  | Raise e => (Raise e, tr)
                  | Ok all_chapters =>
                  let tr := progress (95 # 100) tr in
                  let ranobe_data :=
                    {| r_id := book_id;
                       r_title := Some (default "Без названия" (info_rus_name info));
                       r_original_title := Some (default EmptyString (info_name info));
                       r_description := Some (default EmptyString (info_summary info));
                       r_cover_image := cover_local;
                       r_chapters := all_chapters |} in
                  let ranobe_json_path := path_join out_path "ranobe.json" in
                  if can_write E ranobe_json_path then
                    let tr := (tr ++ [WriteRecord ranobe_json_path ranobe_data;
                                      LogInfo "ranobe.json saved"])%list in
                    let tr := progress 1 tr in
                    (Ok ranobe_json_path, tr)
                  else (Raise OSError, tr)
                  end
              end
          end
      end
  end.

(** ** pipeline.py *)

(** The record last written to [path]. *)
Fixpoint read_record (path : string) (tr : trace) : option ranobe :=
  match tr with
  | [] => None
  | e :: rest =>
      match read_record path rest with
      | Some d => Some d
      | None =>
          match e with
          | WriteRecord p d => if String.eqb p path then Some d else None
          | _ => None
          end
      end
  end.

(** [run_pipeline] (lines 13-34).  [create_epub] stands for
    [EpubCreator(path).create_epub()] on the record read back: its path, or
    the exception it raises. *)
Definition run_pipeline (E : env) (create_epub : ranobe -> res string)
    (book_url output_dir : string) (tr : trace) : res string * trace :=
  let tr := progress 0 tr in
  let tr := progress (1 # 10) tr in
  let '(ranobe_json_path, tr) := get_ranobe_content E book_url output_dir tr in
  match ranobe_json_path with
  | Raise e => (Raise e, tr)
  | Ok ranobe_json_path =>
      let tr := progress (8 # 10) tr in
      match read_record ranobe_json_path tr with
      | None => (Raise OSError, tr)
      | Some data =>
          match create_epub data with
          | Raise e => (Raise e, tr)
          | Ok epub_path => (Ok epub_path, progress 1 tr)
          end
      end
  end.

(** The fractions handed to the progress callback, in order. *)
Fixpoint fractions (tr : trace) : list Q :=
  match tr with
  | [] => []
  | Progress q :: rest => q :: fractions rest
  | _ :: rest => fractions rest
  end.

(** ** A concrete world for examples

    A reading of [urlparse(u).path] for references of printable ASCII of
    the form [scheme://host/path;params?query#fragment] and of [str(soup)]
    for the pieces above, and small servers to run the definitions
    against. *)

Fixpoint take_until (stop : ascii -> bool) (s : string) : string :=
  match s with
  | EmptyString => EmptyString
  | String a r => if stop a then EmptyString else String a (take_until stop r)
  end.

(** The suffix from the first stopping character on, that character included. *)
Fixpoint drop_until (stop : ascii -> bool) (s : string) : string :=
  match s with
  | EmptyString => EmptyString
  | String a r => if stop a then s else drop_until stop r
  end.

Definition is_letter (a : ascii) : bool :=
  let n := Z.of_nat (nat_of_ascii a) in
  ((65 <=? n) && (n <=? 90)) || ((97 <=? n) && (n <=? 122)).

Definition is_scheme_char (a : ascii) : bool :=
  let n := Z.of_nat (nat_of_ascii a) in
  is_letter a || ((48 <=? n) && (n <=? 57))
  || Ascii.eqb a "+" || Ascii.eqb a "-" || Ascii.eqb a ".".

Fixpoint all_chars (p : ascii -> bool) (s : string) : bool :=
  match s with
  | EmptyString => true
  | String a r => p a && all_chars p r
  end.

Definition is_colon (a : ascii) : bool := Ascii.eqb a ":".
Definition ends_netloc (a : ascii) : bool :=
  Ascii.eqb a "/" || Ascii.eqb a "?" || Ascii.eqb a "#".
Definition ends_path (a : ascii) : bool := Ascii.eqb a "?" || Ascii.eqb a "#".
Definition is_semicolon (a : ascii) : bool := Ascii.eqb a ";".

(** The reference without its scheme. *)
Definition after_scheme (u : string) : string :=
  let pre := take_until is_colon u in
  match drop_until is_colon u, pre with
  | String _ rest, String a _ =>
      if is_letter a && all_chars is_scheme_char pre then rest else u
  | _, _ => u
  end.

Fixpoint has_char (c : ascii) (s : string) : bool :=
  match s with
  | EmptyString => false
  | String a r => Ascii.eqb a c || has_char c r
  end.

(** [urlparse(u).path]; a host with one square bracket and not the other
    is rejected, as [urlsplit] does ([ValueError: Invalid IPv6 URL]).  What
    later versions check inside a pair of brackets is not read. *)
Definition urlparse_path (u : string) : res string :=
  let rest := after_scheme u in
  let netloc :=
    if startswith rest "//" then take_until ends_netloc (slice_from 2 rest)
    else EmptyString in
  if xorb (has_char "[" netloc) (has_char "]" netloc)
  then Raise (ValueError "Invalid IPv6 URL")
  else
    let rest :=
      if startswith rest "//" then drop_until ends_netloc (slice_from 2 rest)
      else rest in
    let p := take_until ends_path rest in
    let last := basename p in
    Ok (slice_to (Z.of_nat (String.length p) - Z.of_nat (String.length last)) p
        ++ take_until is_semicolon last).

Definition render_attr (kv : string * string) : string :=
  " " ++ fst kv ++ "=" ++ dq ++ snd kv ++ dq.

Definition render_piece (p : piece) : string :=
  match p with
  | Raw s => s
  | Img a => "<img" ++ String.concat EmptyString (map render_attr a) ++ "/>"
  end.

Definition render (soup : list piece) : string :=
  String.concat EmptyString (map render_piece soup).

(** The sample of the specification: one remote image with a [loading]
    attribute. *)
Definition sample_src : string := "https://host/x/y.png".

Definition sample_html : string :=
  "<img src=" ++ dq ++ sample_src ++ dq ++ " loading=" ++ dq ++ "lazy" ++ dq ++ ">".

Definition sample_tag : attrs := [("src", sample_src); ("loading", "lazy")].

Definition sample_parse (html : string) : list piece :=
  if String.eqb html sample_html then [Img sample_tag] else [Raw html].

Definition sample_chapter : chapter :=
  {| ch_id := 7; ch_volume := "1"; ch_number := "1"; ch_name := "Intro";
     ch_attachments := [{| att_url := "/uploads/pic.jpg"; att_filename := "pic.jpg" |}];
     ch_content :=
       CDict "doc"
         [{| n_type := "image"; n_content := None; n_images := [Some "pic"] |}] |}.

Definition sample_stub : stub :=
  {| tom := 1; chapter_no := Fin 1; stub_name := "Intro"; stub_id := 7 |}.

(** A world given by its server; the other libraries are fixed.  The list
    of chapters it decodes holds the sample stub alone, volume 1 and chapter
    1.0, so [str] is only ever asked for these two numbers. *)
Definition world (server : nat -> string -> http_result) : env :=
  {| http_get := server;
     json_info := fun _ =>
       Ok (Some {| info_rus_name := Some "Книга"; info_name := None; info_summary := None |});
     json_cover := fun _ => Ok None;
     json_chapters := fun _ => Ok [sample_stub];
     sort_stubs_with_nan := fun l => l;
     json_chapter := fun _ => Ok (Some sample_chapter);
     re_search := fun pat s =>
       if String.eqb s "https://ranobelib.me/ru/book/1--a" then Some "1--a" else None;
     can_write := fun _ => true;
     bs_parse := sample_parse;
     bs_str := render;
     url_path := urlparse_path;
     path_suffix := fun u => snd (splitext u);
     int_str := fun z => "1";
     float_str := fun x => "1.0";
     tqdm_report := fun i n => [inject_Z (Z.of_nat i) / inject_Z (Z.of_nat n)]%Q |}.

(** A server that answers every request with status 200, one that answers
    404, and one that never answers. *)
Definition server_ok : nat -> string -> http_result :=
  fun _ _ => Responded {| status_code := 200; resp_content := [] |}.

Definition server_404 : nat -> string -> http_result :=
  fun _ _ => Responded {| status_code := 404; resp_content := [] |}.

Definition server_down : nat -> string -> http_result :=
  fun _ _ => RequestFailed.

(** Files and an imaging library that rejects every file. *)
Definition broken_images : asm_env :=
  {| fs := fun p => if String.eqb p "out/imgs/a.png" then Some [Byte.x00] else None;
     jpeg := fun _ _ => None |}.

(** An imaging library that re-encodes every file to one byte. *)
Definition good_images : asm_env :=
  {| fs := fun p => if String.eqb p "out/imgs/a.png" then Some [Byte.x00] else None;
     jpeg := fun _ _ => Some [Byte.xff] |}.

(** ** Properties in the words of the specification *)

(** Two calls of [compress_image] on one path: equal results, the image
    opened once, the second call answered by the cache. *)
Definition compressed_once (E : asm_env) (img_path : string) (c : creator) : Prop :=
  let '(r1, c1) := _compress_image E img_path c in
  let '(r2, c2) := _compress_image E img_path c1 in
  r1 = r2 /\ opens_of img_path c2 = S (opens_of img_path c) /\
  _image_cache c1 !! img_path = Some (match r2 with Ok d => d | Raise _ => [] end).

(** How an image tag starts. *)
Definition img_open : string := "<img src=" ++ dq.

Definition is_dq (a : ascii) : bool := Ascii.eqb a (ascii_of_nat 34).

(** The [src] values of the image tags that occur in [html], in order:
    what follows each [img_open] up to the next double quote. *)
Fixpoint img_srcs (html : string) : list string :=
  match html with
  | EmptyString => []
  | String a r =>
      ((if startswith html img_open
        then [take_until is_dq
                (slice_from (Z.of_nat (String.length img_open)) html)]
        else [])
       ++ img_srcs r)%list
  end.

(** Every image tag of the markup made from a node tree names a file of
    the chapter's attachment list. *)
Definition doc_imgs_resolved (nodes : list node) (attachments : list attachment)
  : Prop :=
  forall src_val,
    In src_val (img_srcs (_doc_to_html "doc" nodes attachments)) ->
    exists att, In att attachments /\ src_val = "imgs/" ++ att_filename att.

(** The attachment an identifier resolves to: the last one whose file name
    without its extension is the identifier. *)
Definition resolve (attachments : list attachment) (img_name : string)
  : option attachment :=
  List.find (fun att => String.eqb (stem att) img_name) (rev attachments).

(** The markup of a node tree, in the words of its description: one [<p>]
    per paragraph that is not blank, one [<img>] per identifier that
    resolves, in document order. *)
Definition identifier_parts (attachments : list attachment)
    (img_obj : option string) : list string :=
  match img_obj with
  | None => []
  | Some img_name =>
      if truthy img_name then
        match resolve attachments img_name with
        | Some att =>
            if truthy (att_filename att) then [img_tag (att_filename att)]
            else []
        | None => []
        end
      else []
  end.

Definition node_parts (attachments : list attachment) (nd : node)
  : list string :=
  if String.eqb (n_type nd) "paragraph" then
    if strip_nonempty (paragraph_text_of nd)
    then ["<p>" ++ paragraph_text_of nd ++ "</p>"]
    else []
  else if String.eqb (n_type nd) "image" then
    flat_map (identifier_parts attachments) (n_images nd)
  else [].

Definition doc_parts (nodes : list node) (attachments : list attachment)
  : list string :=
  flat_map (node_parts attachments) nodes.

(** The identifiers of a node tree that resolve to nothing, in order. *)
Definition identifier_unresolved (attachments : list attachment)
    (img_obj : option string) : list string :=
  match img_obj with
  | None => []
  | Some img_name =>
      if truthy img_name then
        match resolve attachments img_name with
        | Some att => if truthy (att_filename att) then [] else [img_name]
        | None => [img_name]
        end
      else []
  end.

Definition doc_unresolved (nodes : list node) (attachments : list attachment)
  : list string :=
  flat_map (fun nd =>
              if String.eqb (n_type nd) "paragraph" then []
              else if String.eqb (n_type nd) "image"
              then flat_map (identifier_unresolved attachments) (n_images nd)
              else [])
           nodes.

(** A paragraph whose text is the markup of an image. *)
Definition ghost_paragraph : node :=
  {| n_type := "paragraph";
     n_content := Some [{| in_type := "text"; in_text := Some (img_tag "ghost.png") |}];
     n_images := [] |}.

Definition pic_attachment : attachment :=
  {| att_url := "/uploads/pic.jpg"; att_filename := "pic.jpg" |}.

Definition image_node (ids : list (option string)) : node :=
  {| n_type := "image"; n_content := None; n_images := ids |}.

(** [x <= y] on floats; NaN stands in no such relation. *)
Definition float_le (x y : float_val) : Prop :=
  match x, y with
  | Fin a, Fin b => (a <= b)%Q
  | Fin _, Inf negative => negative = false
  | Inf negative, Fin _ => negative = true
  | Inf a, Inf b => a = true \/ b = false
  | NaN, _ => False
  | _, NaN => False
  end.

(** [a <= b] on sort keys of one kind. *)
Definition key_le (a b : sort_key) : Prop :=
  match a, b with
  | KNum x, KNum y => float_le x y
  | KStr s, KStr t => String.leb s t = true
  | _, _ => False
  end.

(** Every element is at most its successor. *)
Fixpoint nondecreasing (ks : list sort_key) : Prop :=
  match ks with
  | [] => True
  | a :: rest =>
      match rest with
      | [] => True
      | b :: _ => key_le a b /\ nondecreasing rest
      end
  end.

(** The order the assembled document is to have: volume labels by
    [_vol_key], the chapters of each volume by their number. *)
Definition sections_ordered (pyfloat : python_floats)
    (secs : list (string * list chapter)) : Prop :=
  nondecreasing (map (_vol_key pyfloat) (map fst secs)) /\
  Forall (fun sec =>
            nondecreasing
              (map (fun c => _vol_key pyfloat (ch_number c)) (snd sec)) /\
            Forall (fun c => float_of pyfloat (ch_number c) <> None) (snd sec))
         secs.

(** No volume label and no chapter number of the record reads as NaN. *)
Definition nan_free (pyfloat : python_floats) (data : ranobe) : Prop :=
  forall c, In c (r_chapters data) ->
    float_of pyfloat (ch_volume c) <> Some NaN /\
    float_of pyfloat (ch_number c) <> Some NaN.

Definition plain_chapter (volume number : string) : chapter :=
  {| ch_id := 0; ch_volume := volume; ch_number := number; ch_name := number;
     ch_attachments := []; ch_content := CStr EmptyString |}.

Definition book_of (title : option string) (chapters : list chapter) : ranobe :=
  {| r_id := "1--a"; r_title := title; r_original_title := None;
     r_description := None; r_cover_image := None; r_chapters := chapters |}.

(** A record mixing a numeric and a non-numeric volume label. *)
Definition mixed_book : ranobe :=
  book_of (Some "Книга") [plain_chapter "1" "1"; plain_chapter "extra" "1"].

(** The record of the specification's round trip. *)
Definition two_volume_book : ranobe :=
  book_of (Some "Книга")
    [plain_chapter "2" "1.0"; plain_chapter "1" "2.0"; plain_chapter "1" "1.0"].

(** A book with chapters links its title page to the anchor of one of its
    volumes. *)
Definition title_links_forward (pyfloat : python_floats) (data : ranobe)
  : Prop :=
  r_chapters data <> [] ->
  exists v, In v (map ch_volume (r_chapters data)) /\
            title_link pyfloat data = "volume_" ++ v ++ ".xhtml#volume_" ++ v.

(** A book with a volume label that reads as NaN. *)
Definition nan_book : ranobe :=
  book_of None
    [plain_chapter "2" "1"; plain_chapter "nan" "1"; plain_chapter "1" "1"].

(** A book whose only volume label is not a number. *)
Definition extra_book : ranobe := book_of None [plain_chapter "extra" "1"].

(** The [n]-th request, sent to [url], meets a transport error or a status
    other than 200. *)
Definition attempt_fails (E : env) (n : nat) (url : string) : Prop :=
  match http_get E n url with
  | RequestFailed => True
  | Responded r => status_code r <> 200
  end.

Definition is_net (e : event) : bool :=
  match e with Get _ | Sleep _ => true | _ => false end.

(** [n] requests to [url] with a pause of [sleep_time] between two of them. *)
Fixpoint retry_pattern (url : string) (sleep_time : Z) (n : nat) : list event :=
  match n with
  | O => []
  | S n' =>
      match n' with
      | O => [Get url]
      | S _ => Get url :: Sleep sleep_time :: retry_pattern url sleep_time n'
      end
  end.

(** Fractions that never decrease, and fractions within [0, 1]. *)
Fixpoint fractions_nondecreasing (qs : list Q) : Prop :=
  match qs with
  | [] => True
  | a :: rest =>
      match rest with
      | [] => True
      | b :: _ => (a <= b)%Q /\ fractions_nondecreasing rest
      end
  end.

Definition in_unit (q : Q) : Prop := (0 <= q)%Q /\ (q <= 1)%Q.

(** The fractions [progress.tqdm] reports over a list of [n] items, asked
    for items [i], [i+1], ..., [n]. *)
Fixpoint tqdm_from (E : env) (n i : nat) (remaining : nat) : list Q :=
  match remaining with
  | O => tqdm_report E i n
  | S k => (tqdm_report E i n ++ tqdm_from E n (S i) k)%list
  end.


(** The normalisation of [html_str] hands back the markup [expected]. *)
Definition markup_made_local (E : env) (html_str output_folder expected : string)
  : Prop :=
  fst (fix_img_links_in_html E html_str output_folder []) = Ok expected.

(** When the imaging library raises on a path that is not cached, the
    caller still gets bytes. *)
Definition failure_contained (E : asm_env) (img_path : string) (c : creator)
  : Prop :=
  _image_cache c !! img_path = None ->
  match fs E img_path with
  | Some raw => jpeg E (image_quality c) raw = None
  | None => True
  end ->
  exists data, fst (_compress_image E img_path c) = Ok data.

(** [tr'] continues [tr] without a call of the progress callback. *)
Definition quiet_step (tr tr' : trace) : Prop :=
  exists new, tr' = (tr ++ new)%list /\ fractions new = [].


(** Every request among the events goes to [target]. *)
Definition gets_to (target : string) (evs : list event) : Prop :=
  Forall (fun e => is_get e = true -> e = Get target) evs.

Definition is_remote (src_val : string) : bool :=
  startswith src_val "http" || startswith src_val "/uploads/".

(** Every request is answered with status 200 and every file can be
    written. *)
Definition always_ok (E : env) : Prop :=
  (forall n url, exists r, http_get E n url = Responded r /\ status_code r = 200)
  /\ (forall p, can_write E p = true).


(** The paths of the files written, in order. *)
Definition paths_written (tr : trace) : list string :=
  flat_map (fun e => match e with WriteFile p _ => [p] | _ => [] end) tr.

(** The addresses requested, in order. *)
Definition urls_requested (tr : trace) : list string :=
  flat_map (fun e => match e with Get u => [u] | _ => [] end) tr.

(** A chapter record holds what was fetched for it, the content as it came
    unless it is markup. *)
Definition stored_as_fetched (E : env) (book_id : string) (c : chapter) : Prop :=
  exists (ch : stub) (tr0 tr1 : trace) (d : chapter),
    get_chapter_data E book_id (int_str E (tom ch))
      (float_str E (chapter_no ch))
      default_max_retries default_sleep_time tr0 = (Ok (Some d), tr1) /\
    ch_id c = ch_id d /\ ch_volume c = ch_volume d /\
    ch_number c = ch_number d /\ ch_name c = ch_name d /\
    ch_attachments c = ch_attachments d /\
    match ch_content d with
    | CStr _ => exists html, ch_content c = CStr html
    | fetched => ch_content c = fetched
    end.

(** What one call of [download_image] may leave in the trace. *)
Definition image_event (url save_path : string) (sleep_time : Z) (e : event)
  : Prop :=
  match e with
  | Get u => u = image_target url
  | WriteFile p _ => p = save_path
  | Sleep seconds => seconds = sleep_time
  | LogWarning _ | LogError _ => True
  | WriteRecord _ _ | LogInfo _ | Progress _ => False
  end.

(** Markup without an [<img>] tag. *)
Definition text_only (soup : list piece) : Prop :=
  Forall (fun p => match p with Raw _ => True | Img _ => False end) soup.

(** The tag as [fix_img_links_in_html] leaves it after a download that
    succeeded ([ok]) or failed. *)
Definition rewritten_tag (tag : attrs) (filename : string) (ok : bool) : attrs :=
  if ok then attr_set "src" ("imgs/" ++ filename) (attr_del "loading" tag)
  else attr_del "loading" tag.

(** ** Further worlds and predicates *)

(** A server that answers the first request with 404 and every later one
    with 200. *)
Definition server_flaky : nat -> string -> http_result :=
  fun n _ =>
    Responded {| status_code := if Nat.eqb n 0 then 404 else 200;
                 resp_content := [] |}.

Definition is_write (e : event) : bool :=
  match e with WriteFile _ _ => true | _ => false end.

(** The files written during a run, in order. *)
Definition files_written (tr : trace) : list event := List.filter is_write tr.


(** An [<img>] tag without a [loading] attribute; text is not concerned. *)
Definition no_loading (p : piece) : Prop :=
  match p with
  | Raw _ => True
  | Img a => attr_get "loading" a = None
  end.

(** Text is the same; a tag has the same attributes, [src] and [loading]
    apart. *)
Definition same_but_src_loading (p q : piece) : Prop :=
  match p, q with
  | Raw s, Raw t => s = t
  | Img a, Img b =>
      forall k, k <> "src" -> k <> "loading" -> attr_get k b = attr_get k a
  | _, _ => False
  end.

Definition count_imgs (soup : list piece) : nat :=
  length (List.filter (fun p => match p with Img _ => true | Raw _ => false end)
            soup).



Fixpoint dotless (s : string) : bool :=
  match s with
  | EmptyString => true
  | String a r => negb (Ascii.eqb a ".") && dotless r
  end.

Definition no_info_message : string := "Не удалось получить инфо о книге".

(** Every list of [volumes_map] is non-empty and holds chapters of its own
    key only. *)
Definition own_chapters (kv : string * list chapter) : Prop :=
  snd kv <> [] /\ Forall (fun c => ch_volume c = fst kv) (snd kv).

(** The node types [_doc_to_html] converts. *)
Definition known_node (nd : node) : bool :=
  String.eqb (n_type nd) "paragraph" || String.eqb (n_type nd) "image".

(** * Theorems *)

(** ** _compress_image *)

Section CompressImage.
Variable E : asm_env.
Variable img_path : string.

Lemma opens_of_log (c : creator) (evs : list asm_event) :
  opens_of img_path (log_asm evs c)
  = (opens_of img_path c + count_opens img_path evs)%nat.
Proof.
  unfold opens_of, count_opens, log_asm; simpl.
  rewrite List.filter_app, length_app. reflexivity.
Qed.

Lemma opens_of_cache_store (p : string) (d : bytes) (c : creator) :
  opens_of img_path (cache_store p d c) = opens_of img_path c.
Proof. reflexivity. Qed.

Lemma count_opens_one :
  count_opens img_path [ImageOpen img_path] = 1%nat.
Proof. unfold count_opens; simpl. now rewrite String.eqb_refl. Qed.

Lemma opens_after_attempt (c : creator) :
  opens_of img_path
    (log_asm [CompressWarning img_path; ReadBytes img_path]
       (log_asm [ImageOpen img_path] c))
  = S (opens_of img_path c).
Proof.
  rewrite opens_of_log, opens_of_log, count_opens_one.
  unfold count_opens; simpl. lia.
Qed.

(** A cached path is answered without touching the creator. *)
Lemma compress_hit (c : creator) (data : bytes) :
  _image_cache c !! img_path = Some data ->
  _compress_image E img_path c = (Ok data, c).
Proof. intros H. unfold _compress_image. rewrite H. reflexivity. Qed.

(** A first successful compression stores its result. *)
Lemma compress_miss_ok (c : creator) (raw data : bytes) :
  _image_cache c !! img_path = None ->
  fs E img_path = Some raw ->
  jpeg E (image_quality c) raw = Some data ->
  _compress_image E img_path c
  = (Ok data, cache_store img_path data (log_asm [ImageOpen img_path] c)).
Proof.
  intros Hc Hf Hj. unfold _compress_image.
  rewrite Hc, Hf. simpl. rewrite Hj. reflexivity.
Qed.

(** A failed compression hands back the file and stores nothing. *)
Lemma compress_miss_fail (c : creator) (raw : bytes) :
  _image_cache c !! img_path = None ->
  fs E img_path = Some raw ->
  jpeg E (image_quality c) raw = None ->
  _compress_image E img_path c
  = (Ok raw,
     log_asm [CompressWarning img_path; ReadBytes img_path]
       (log_asm [ImageOpen img_path] c)).
Proof.
  intros Hc Hf Hj. unfold _compress_image.
  rewrite Hc, Hf. simpl. rewrite Hj. reflexivity.
Qed.

(** C6, amended: when the imaging library re-encodes the file at
    [img_path], two calls of [_compress_image] return the same bytes, the
    image is opened exactly once, and the second call is answered from
    the cache without changing the creator. *)
Theorem compress_twice_cached (c : creator) (raw data : bytes) :
  _image_cache c !! img_path = None ->
  fs E img_path = Some raw ->
  jpeg E (image_quality c) raw = Some data ->
  let r1 := _compress_image E img_path c in
  let r2 := _compress_image E img_path (snd r1) in
  fst r1 = Ok data /\ fst r2 = Ok data /\
  snd r2 = snd r1 /\
  _image_cache (snd r1) !! img_path = Some data /\
  opens_of img_path (snd r2) = S (opens_of img_path c).
Proof.
  intros Hc Hf Hj. simpl.
  rewrite (compress_miss_ok c raw data Hc Hf Hj). simpl.
  assert (Hhit : _image_cache
                   (cache_store img_path data (log_asm [ImageOpen img_path] c))
                 !! img_path = Some data)
    by (simpl; apply lookup_insert_eq).
  rewrite (compress_hit _ data Hhit). simpl.
  repeat split; try assumption.
  rewrite opens_of_cache_store, opens_of_log, count_opens_one. lia.
Qed.

Lemma compress_miss_unreadable (c : creator) :
  _image_cache c !! img_path = None ->
  fs E img_path = None ->
  _compress_image E img_path c
  = (Raise OSError,
     log_asm [CompressWarning img_path; ReadBytes img_path]
       (log_asm [ImageOpen img_path] c)).
Proof.
  intros Hc Hf. unfold _compress_image. now rewrite Hc, Hf.
Qed.

(** C10, amended: when the imaging library raises on an image that is not
    cached, [_compress_image] stores nothing in the cache, and a second
    call opens the image again.  Where the file at [img_path] can be read,
    both calls return its bytes as they are and no call raises; where it
    cannot be read either, the exception of [read_bytes] in the handler
    reaches the caller, on both calls. *)
Theorem compress_failure_not_cached (c : creator) :
  _image_cache c !! img_path = None ->
  (forall raw, fs E img_path = Some raw ->
               jpeg E (image_quality c) raw = None) ->
  let r1 := _compress_image E img_path c in
  let r2 := _compress_image E img_path (snd r1) in
  (forall raw, fs E img_path = Some raw ->
               fst r1 = Ok raw /\ fst r2 = Ok raw) /\
  (fs E img_path = None ->
   fst r1 = Raise OSError /\ fst r2 = Raise OSError) /\
  _image_cache (snd r1) = _image_cache c /\
  _image_cache (snd r2) = _image_cache c /\
  opens_of img_path (snd r1) = S (opens_of img_path c) /\
  opens_of img_path (snd r2) = S (S (opens_of img_path c)).
Proof.
  intros Hc Hj. cbn zeta.
  set (c1 := log_asm [CompressWarning img_path; ReadBytes img_path]
               (log_asm [ImageOpen img_path] c)).
  set (c2 := log_asm [CompressWarning img_path; ReadBytes img_path]
               (log_asm [ImageOpen img_path] c1)).
  assert (Hc1 : _image_cache c1 !! img_path = None) by exact Hc.
  assert (Hrun : exists o,
            _compress_image E img_path c = (o, c1) /\
            _compress_image E img_path c1 = (o, c2) /\
            (forall raw, fs E img_path = Some raw -> o = Ok raw) /\
            (fs E img_path = None -> o = Raise OSError)).
  { destruct (fs E img_path) as [raw|] eqn:Hf.
    - exists (Ok raw). specialize (Hj raw eq_refl).
      split; [exact (compress_miss_fail c raw Hc Hf Hj)|].
      split; [exact (compress_miss_fail c1 raw Hc1 Hf Hj)|].
      split; [intros raw' Hr; now injection Hr as <- | discriminate].
    - exists (Raise OSError).
      split; [exact (compress_miss_unreadable c Hc Hf)|].
      split; [exact (compress_miss_unreadable c1 Hc1 Hf)|].
      split; [discriminate | reflexivity]. }
  destruct Hrun as (o & H1 & H2 & Hread & Hunread).
  rewrite H1. cbn [fst snd]. rewrite H2. cbn [fst snd].
  split; [intros raw Hr; now rewrite (Hread raw Hr)|].
  split; [intros Hn; now rewrite (Hunread Hn)|].
  repeat split.
  - apply opens_after_attempt.
  - unfold c2. rewrite opens_after_attempt. unfold c1.
    now rewrite opens_after_attempt.
Qed.
End CompressImage.

Lemma compress_twice_cached_witness :
  let r1 := _compress_image good_images "out/imgs/a.png" (new_creator 85) in
  let r2 := _compress_image good_images "out/imgs/a.png" (snd r1) in
  fst r1 = Ok [Byte.xff] /\ fst r2 = Ok [Byte.xff] /\
  snd r2 = snd r1 /\
  _image_cache (snd r1) !! "out/imgs/a.png" = Some [Byte.xff] /\
  opens_of "out/imgs/a.png" (snd r2) = 1%nat.
Proof.
  apply (compress_twice_cached good_images "out/imgs/a.png"
           (new_creator 85) [Byte.x00] [Byte.xff]); reflexivity.
Defined.

Lemma compress_failure_not_cached_witness :
  let r1 := _compress_image broken_images "out/imgs/a.png" (new_creator 85) in
  let r2 := _compress_image broken_images "out/imgs/a.png" (snd r1) in
  fst r1 = Ok [Byte.x00] /\ fst r2 = Ok [Byte.x00] /\
  _image_cache (snd r1) = ∅ /\
  _image_cache (snd r2) = ∅ /\
  opens_of "out/imgs/a.png" (snd r1) = 1%nat /\
  opens_of "out/imgs/a.png" (snd r2) = 2%nat.
Proof.
  destruct (compress_failure_not_cached broken_images "out/imgs/a.png"
              (new_creator 85) eq_refl (fun _ _ => eq_refl))
    as (Hread & _ & H3 & H4 & H5 & H6).
  destruct (Hread [Byte.x00] eq_refl) as [H1 H2].
  repeat split; assumption.
Defined.

(** C10 as stated fails for a path with no readable file behind it: the
    handler's [read_bytes] raises and the exception reaches the caller. *)
Lemma compress_unreadable_propagates :
  ~ failure_contained broken_images "out/imgs/none.png" (new_creator 85).
Proof.
  unfold failure_contained. intros H.
  destruct (H eq_refl I) as [data Hd]. vm_compute in Hd. discriminate Hd.
Qed.

(** For a file that is there the failure is contained. *)
Example compress_failure_contained_when_readable :
  failure_contained broken_images "out/imgs/a.png" (new_creator 85).
Proof. intros _ _. now exists [Byte.x00]. Qed.

(** C6 as stated fails for a file the imaging library rejects: both calls
    open the image, and the cache never holds the path. *)
Lemma compress_twice_opens_twice :
  ~ compressed_once broken_images "out/imgs/a.png" (new_creator 85).
Proof.
  unfold compressed_once.
  destruct (_compress_image broken_images "out/imgs/a.png" (new_creator 85))
    as [r1 c1] eqn:H1.
  destruct (_compress_image broken_images "out/imgs/a.png" c1) as [r2 c2] eqn:H2.
  vm_compute in H1. injection H1 as <- <-.
  vm_compute in H2. injection H2 as <- <-.
  intros (_ & Hopen & _). vm_compute in Hopen. discriminate.
Qed.

(** ** _doc_to_html *)

Section DocToHtml.

Lemma emit_fold_parts {A : Type} (f : A -> emitted) (l : list A) (acc : emitted) :
  html_parts (fold_left (fun acc x => emit_app acc (f x)) l acc)
  = (html_parts acc ++ flat_map (fun x => html_parts (f x)) l)%list.
Proof.
  revert acc. induction l as [|x l IH]; intros acc; simpl.
  - now rewrite app_nil_r.
  - rewrite IH. simpl. now rewrite <- app_assoc.
Qed.

Lemma emit_fold_warned {A : Type} (f : A -> emitted) (l : list A) (acc : emitted) :
  warned (fold_left (fun acc x => emit_app acc (f x)) l acc)
  = (warned acc ++ flat_map (fun x => warned (f x)) l)%list.
Proof.
  revert acc. induction l as [|x l IH]; intros acc; simpl.
  - now rewrite app_nil_r.
  - rewrite IH. simpl. now rewrite <- app_assoc.
Qed.

Lemma name_map_fold_some (atts : list attachment) (m : gmap string string)
    (k f : string) :
  fold_left name_map_step atts m !! k = Some f ->
  m !! k = Some f \/
  exists att, In att atts /\ stem att = k /\ att_filename att = f.
Proof.
  revert m. induction atts as [|a atts IH]; intros m H; simpl in *.
  - now left.
  - destruct (IH _ H) as [Hm | (att & Hin & Hk & Hf)].
    + unfold name_map_step in Hm. rewrite lookup_insert in Hm.
      destruct (decide (stem a = k)) as [Heq | Hne].
      * right. exists a. split; [now left|]. split; [exact Heq|].
        congruence.
      * now left.
    + right. exists att. auto.
Qed.

Lemma name_map_fold_none (atts : list attachment) (m : gmap string string)
    (k : string) :
  m !! k = None ->
  (forall att, In att atts -> stem att <> k) ->
  fold_left name_map_step atts m !! k = None.
Proof.
  revert m. induction atts as [|a atts IH]; intros m Hm Hall; simpl.
  - exact Hm.
  - apply IH.
    + unfold name_map_step. rewrite lookup_insert_ne; [exact Hm|].
      apply Hall. now left.
    + intros att Hin. apply Hall. now right.
Qed.

(** What [name_map] holds comes from an attachment whose file name without
    its extension is the key. *)
Lemma name_map_lookup_some (atts : list attachment) (k f : string) :
  name_map_of atts !! k = Some f ->
  exists att, In att atts /\ stem att = k /\ att_filename att = f.
Proof.
  intros H. destruct (name_map_fold_some atts ∅ k f H) as [He | Hex].
  - rewrite lookup_empty in He. discriminate.
  - exact Hex.
Qed.

Lemma name_map_lookup_none (atts : list attachment) (k : string) :
  (forall att, In att atts -> stem att <> k) ->
  name_map_of atts !! k = None.
Proof. intros H. apply name_map_fold_none; [apply lookup_empty | exact H]. Qed.

Lemma image_emit_part (m : gmap string string) (img_obj : option string)
    (part : string) :
  In part (html_parts (image_emit m img_obj)) ->
  exists img_name filename,
    img_obj = Some img_name /\ m !! img_name = Some filename /\
    part = img_tag filename.
Proof.
  unfold image_emit. destruct img_obj as [img_name|]; [|intros []].
  destruct (truthy img_name); simpl; [|intros []].
  destruct (m !! img_name) as [filename|] eqn:Hl; [|intros []].
  destruct (truthy filename); simpl; [|intros []].
  intros [<- | []]. exists img_name, filename. auto.
Qed.

Lemma image_emit_at_most_one (m : gmap string string) (img_obj : option string) :
  (length (html_parts (image_emit m img_obj)) <= 1)%nat.
Proof.
  unfold image_emit. destruct img_obj as [img_name|]; simpl; [|lia].
  destruct (truthy img_name); simpl; [|lia].
  destruct (m !! img_name) as [filename|]; simpl; [|lia].
  destruct (truthy filename); simpl; lia.
Qed.

Lemma image_emit_unresolved (m : gmap string string) (img_name : string) :
  m !! img_name = None ->
  html_parts (image_emit m (Some img_name)) = [] /\
  (truthy img_name = true ->
   warned (image_emit m (Some img_name)) = [img_name]).
Proof.
  intros H. unfold image_emit. rewrite H.
  destruct (truthy img_name); simpl; split; auto; discriminate.
Qed.

Lemma find_last {A : Type} (p : A -> bool) (l : list A) (a : A) :
  List.find p (l ++ [a])
  = match List.find p l with
    | Some x => Some x
    | None => if p a then Some a else None
    end.
Proof.
  induction l as [|x l IH]; simpl; [reflexivity|].
  destruct (p x); [reflexivity | exact IH].
Qed.

(** [name_map] holds, for a key, the file name of the last attachment whose
    name without its extension is the key. *)
Lemma name_map_fold_resolve (atts : list attachment) (m : gmap string string)
    (k : string) :
  fold_left name_map_step atts m !! k
  = match resolve atts k with
    | Some att => Some (att_filename att)
    | None => m !! k
    end.
Proof.
  revert m. induction atts as [|a atts IH]; intros m; [reflexivity|].
  simpl. rewrite IH. unfold resolve. simpl. rewrite find_last.
  destruct (List.find _ (rev atts)) as [att|]; [reflexivity|].
  unfold name_map_step.
  destruct (String.eqb (stem a) k) eqn:He.
  - apply String.eqb_eq in He. subst k. apply lookup_insert_eq.
  - apply String.eqb_neq in He. now apply lookup_insert_ne.
Qed.

Lemma name_map_resolve (atts : list attachment) (k : string) :
  name_map_of atts !! k = option_map att_filename (resolve atts k).
Proof.
  unfold name_map_of. rewrite name_map_fold_resolve.
  destruct (resolve atts k); [reflexivity | apply lookup_empty].
Qed.

Lemma resolve_some (atts : list attachment) (k : string) (att : attachment) :
  resolve atts k = Some att -> In att atts /\ stem att = k.
Proof.
  unfold resolve. intros H. apply List.find_some in H. destruct H as [Hin He].
  split; [apply (proj2 (List.in_rev atts att)); exact Hin
         | now apply String.eqb_eq].
Qed.

Lemma resolve_none (atts : list attachment) (k : string) :
  resolve atts k = None -> forall att, In att atts -> stem att <> k.
Proof.
  unfold resolve. intros H att Hin He.
  assert (Hf : String.eqb (stem att) k = false).
  { apply (List.find_none _ _ H att).
    apply (proj1 (List.in_rev atts att)). exact Hin. }
  apply String.eqb_neq in Hf. contradiction.
Qed.

Lemma image_emit_spec (atts : list attachment) (img_obj : option string) :
  html_parts (image_emit (name_map_of atts) img_obj)
  = identifier_parts atts img_obj /\
  warned (image_emit (name_map_of atts) img_obj)
  = identifier_unresolved atts img_obj.
Proof.
  unfold image_emit, identifier_parts, identifier_unresolved.
  destruct img_obj as [img_name|]; [|split; reflexivity].
  destruct (truthy img_name); simpl; [|split; reflexivity].
  rewrite name_map_resolve.
  destruct (resolve atts img_name) as [att|]; simpl; [|split; reflexivity].
  destruct (truthy (att_filename att)); split; reflexivity.
Qed.

Lemma flat_map_eq {A B : Type} (f g : A -> list B) (l : list A) :
  (forall x, f x = g x) -> flat_map f l = flat_map g l.
Proof.
  intros H. induction l as [|x l IH]; simpl; [reflexivity|].
  now rewrite H, IH.
Qed.

Lemma node_emit_spec (atts : list attachment) (nd : node) :
  html_parts (node_emit (name_map_of atts) nd) = node_parts atts nd.
Proof.
  unfold node_emit, node_parts.
  destruct (String.eqb (n_type nd) "paragraph").
  - now destruct (strip_nonempty (paragraph_text_of nd)).
  - destruct (String.eqb (n_type nd) "image"); [|reflexivity].
    rewrite emit_fold_parts. simpl. apply flat_map_eq.
    intros img_obj. apply image_emit_spec.
Qed.

Lemma node_emit_warned (atts : list attachment) (nd : node) :
  warned (node_emit (name_map_of atts) nd)
  = if String.eqb (n_type nd) "paragraph" then []
    else if String.eqb (n_type nd) "image"
         then flat_map (identifier_unresolved atts) (n_images nd)
         else [].
Proof.
  unfold node_emit.
  destruct (String.eqb (n_type nd) "paragraph").
  - now destruct (strip_nonempty (paragraph_text_of nd)).
  - destruct (String.eqb (n_type nd) "image"); [|reflexivity].
    rewrite emit_fold_warned. simpl. apply flat_map_eq.
    intros img_obj. apply image_emit_spec.
Qed.

(** C3, amended: the markup [_doc_to_html] makes of a node tree is, joined
    by new lines and in document order, one [<p>] per paragraph node whose
    text is not blank and one tag [<img src="imgs/FILE"/>] per identifier
    of an image node that resolves; the identifiers warned about are those
    that do not.  An identifier resolves to the last attachment of the
    chapter whose file name without its extension is the identifier, FILE
    being that attachment's file name; an identifier for which the list has
    no such attachment yields no tag and one warning; no identifier yields
    more than one tag. *)
Theorem doc_image_tags_from_attachments
    (nodes : list node) (atts : list attachment) :
  _doc_to_html "doc" nodes atts = join newline (doc_parts nodes atts) /\
  warned (doc_emit nodes atts) = doc_unresolved nodes atts /\
  (forall part, In part (doc_parts nodes atts) ->
     (exists nd, In nd nodes /\ n_type nd = "paragraph" /\
                 strip_nonempty (paragraph_text_of nd) = true /\
                 part = "<p>" ++ paragraph_text_of nd ++ "</p>")
     \/
     (exists nd img_name att,
         In nd nodes /\ n_type nd = "image" /\
         In (Some img_name) (n_images nd) /\
         In att atts /\
         fst (splitext (att_filename att)) = img_name /\
         part = img_tag (att_filename att))) /\
  (forall img_name,
     (forall att, In att atts ->
                  fst (splitext (att_filename att)) <> img_name) ->
     identifier_parts atts (Some img_name) = [] /\
     (truthy img_name = true ->
      identifier_unresolved atts (Some img_name) = [img_name])) /\
  (forall img_obj, (length (identifier_parts atts img_obj) <= 1)%nat).
Proof.
  assert (Hparts : html_parts (doc_emit nodes atts) = doc_parts nodes atts).
  { unfold doc_emit, doc_parts. rewrite emit_fold_parts. simpl.
    apply flat_map_eq. intros nd. apply node_emit_spec. }
  split; [|split; [|split; [|split]]].
  - unfold _doc_to_html. simpl. now rewrite Hparts.
  - unfold doc_emit, doc_unresolved. rewrite emit_fold_warned. simpl.
    apply flat_map_eq. intros nd. apply node_emit_warned.
  - intros part Hin. unfold doc_parts in Hin.
    apply in_flat_map in Hin. destruct Hin as (nd & Hnd & Hpart).
    unfold node_parts in Hpart.
    destruct (String.eqb (n_type nd) "paragraph") eqn:Hp.
    + left. apply String.eqb_eq in Hp.
      destruct (strip_nonempty (paragraph_text_of nd)) eqn:Hs;
        simpl in Hpart; [|destruct Hpart].
      destruct Hpart as [<- | []]. exists nd. auto.
    + destruct (String.eqb (n_type nd) "image") eqn:Hi; [|destruct Hpart].
      right. apply String.eqb_eq in Hi.
      apply in_flat_map in Hpart. destruct Hpart as (img_obj & Himg & Hpart).
      unfold identifier_parts in Hpart.
      destruct img_obj as [img_name|]; [|destruct Hpart].
      destruct (truthy img_name); [|destruct Hpart].
      destruct (resolve atts img_name) as [att|] eqn:Hr; [|destruct Hpart].
      destruct (truthy (att_filename att)); [|destruct Hpart].
      destruct Hpart as [<- | []].
      apply resolve_some in Hr. destruct Hr as [Hatt Hk].
      exists nd, img_name, att. repeat split; auto.
  - intros img_name Hall. unfold identifier_parts, identifier_unresolved.
    destruct (resolve atts img_name) as [att|] eqn:Hr.
    + apply resolve_some in Hr. destruct Hr as [Hatt Hk].
      now destruct (Hall att Hatt).
    + destruct (truthy img_name); split; auto; discriminate.
  - intros img_obj. unfold identifier_parts.
    destruct img_obj as [img_name|]; simpl; [|lia].
    destruct (truthy img_name); simpl; [|lia].
    destruct (resolve atts img_name) as [att|]; simpl; [|lia].
    destruct (truthy (att_filename att)); simpl; lia.
Qed.
End DocToHtml.

Lemma doc_image_tags_from_attachments_witness :
  _doc_to_html "doc" [image_node [Some "pic"; Some "zzz"]] [pic_attachment]
  = img_tag "pic.jpg" /\
  warned (doc_emit [image_node [Some "pic"; Some "zzz"]] [pic_attachment])
  = ["zzz"] /\
  identifier_parts [pic_attachment] (Some "zzz") = [].
Proof.
  pose proof (doc_image_tags_from_attachments
                [image_node [Some "pic"; Some "zzz"]] [pic_attachment])
    as (Hjoin & Hwarn & _ & Hun & _).
  split; [rewrite Hjoin; reflexivity|].
  split; [rewrite Hwarn; reflexivity|].
  destruct (Hun "zzz") as (Hparts & _); [|exact Hparts].
  intros att [<- | []]. vm_compute. discriminate.
Defined.

(** C3 as stated fails: the text of a paragraph is copied as it is, so the
    markup can hold an image tag that names no attachment. *)
Lemma doc_paragraph_tag_unresolved :
  ~ doc_imgs_resolved [ghost_paragraph] [].
Proof.
  intros H. destruct (H "imgs/ghost.png") as (att & [] & _).
  vm_compute. now left.
Qed.

(** For a tree of image nodes that resolve, every tag of the markup names
    an attachment. *)
Example doc_imgs_resolved_when_clean :
  doc_imgs_resolved [image_node [Some "pic"]; image_node [Some "pic"]]
    [pic_attachment].
Proof.
  intros src_val Hin. vm_compute in Hin.
  exists pic_attachment. split; [now left|].
  destruct Hin as [<- | [<- | []]]; reflexivity.
Qed.

(** An identifier equal to an attachment's whole file name is not matched:
    the key of [name_map] is the name without its extension. *)
Example doc_whole_filename_unmatched :
  doc_emit [image_node [Some "pic.jpg"]] [pic_attachment]
  = {| html_parts := []; warned := ["pic.jpg"] |}.
Proof. reflexivity. Qed.

(** Two attachments with one extension-less name: the later one is used. *)
Example doc_later_attachment_wins :
  _doc_to_html "doc" [image_node [Some "pic"]]
    [pic_attachment; {| att_url := "/uploads/pic.png"; att_filename := "pic.png" |}]
  = img_tag "pic.png".
Proof. reflexivity. Qed.

(** A paragraph of white space alone, the no-break space included, is
    dropped. *)
Example doc_blank_paragraph_dropped :
  _doc_to_html "doc"
    [{| n_type := "paragraph";
        n_content :=
          Some [{| in_type := "text";
                   in_text := Some (String (ascii_of_nat 194)
                                      (String (ascii_of_nat 160) " ")) |}];
        n_images := [] |}] []
  = EmptyString.
Proof. reflexivity. Qed.

(** ** Sorting, volume sections and the title page *)

Section Sorting.
Context {A : Type}.
Implicit Types (x y : sort_key * A) (l r : list (sort_key * A)).

Lemma key_lt_false_le (a b : sort_key) :
  is_nan_key a = false -> is_nan_key b = false ->
  key_lt a b = Ok false -> key_le b a.
Proof.
  destruct a as [x|s], b as [y|t]; simpl; try discriminate.
  - intros Ha Hb H. injection H as H.
    destruct x as [p|n|], y as [q|m|]; simpl in *; try discriminate.
    + unfold Qlt_bool in H. apply negb_false_iff in H.
      now apply Qle_bool_iff.
    + now apply negb_false_iff in H.
    + exact H.
    + destruct n, m; simpl in H; try discriminate; auto.
  - intros _ _ H. injection H as H. unfold String.ltb in H.
    unfold String.leb. rewrite String.compare_antisym.
    destruct (String.compare s t); simpl in *; congruence.
Qed.

Lemma key_lt_true_le (a b : sort_key) :
  key_lt a b = Ok true -> key_le a b.
Proof.
  destruct a as [x|s], b as [y|t]; simpl; try discriminate.
  - intros H. injection H as H.
    destruct x as [p|n|], y as [q|m|]; simpl in *; try discriminate.
    + unfold Qlt_bool in H. apply negb_true_iff in H.
      apply Qlt_le_weak, Qnot_le_lt. intros Hle.
      apply Qle_bool_iff in Hle. congruence.
    + now apply negb_true_iff in H.
    + exact H.
    + destruct n, m; simpl in H; try discriminate; auto.
  - intros H. injection H as H. unfold String.ltb in H.
    unfold String.leb. destruct (String.compare s t); congruence.
Qed.

Lemma key_le_refl_num (a : sort_key) :
  is_num a = true -> is_nan_key a = false -> key_le a a.
Proof.
  destruct a as [[q|n|]|s]; simpl; try discriminate; intros _ _.
  - apply Qle_refl.
  - destruct n; auto.
Qed.

Lemma key_lt_kind (a b : sort_key) (v : bool) :
  key_lt a b = Ok v -> is_num a = is_num b.
Proof. destruct a, b; simpl; congruence. Qed.

Lemma key_lt_raise (a b : sort_key) (e : exn) :
  key_lt a b = Raise e -> e = TypeError /\ is_num a <> is_num b.
Proof. destruct a, b; simpl; intros H; inversion H; split; congruence. Qed.

(** The shape of a successful insertion. *)
Lemma sort_insert_shape x l r :
  sort_insert x l = Ok r ->
  r = x :: l \/
  exists y l' r', l = y :: l' /\ r = y :: r' /\
                  key_lt (fst y) (fst x) = Ok true /\
                  sort_insert x l' = Ok r'.
Proof.
  destruct l as [|y l']; simpl.
  - intros H. injection H as <-. now left.
  - destruct (key_lt (fst y) (fst x)) as [[|]|] eqn:Hk; try discriminate.
    + destruct (sort_insert x l') as [r'|] eqn:Hi; try discriminate.
      intros H. injection H as <-. right. exists y, l', r'. auto.
    + intros H. injection H as <-. now left.
Qed.

Lemma sort_insert_perm x l r :
  sort_insert x l = Ok r -> Permutation r (x :: l).
Proof.
  revert r. induction l as [|y l' IH]; intros r H.
  - simpl in H. injection H as <-. reflexivity.
  - apply sort_insert_shape in H.
    destruct H as [-> | (y0 & l0 & r' & Heq & -> & _ & Hi)]; [reflexivity|].
    injection Heq as <- <-. rewrite (IH _ Hi). apply perm_swap.
Qed.

Lemma sort_insert_sorted x l r :
  sort_insert x l = Ok r ->
  (forall y, In y (x :: l) -> is_nan_key (fst y) = false) ->
  nondecreasing (map fst l) -> nondecreasing (map fst r).
Proof.
  revert r. induction l as [|y l' IH]; intros r H Hn Hs.
  - simpl in H. injection H as <-. exact I.
  - simpl in H.
    destruct (key_lt (fst y) (fst x)) as [[|]|] eqn:Hk; try discriminate.
    + destruct (sort_insert x l') as [r'|] eqn:Hi; try discriminate.
      injection H as <-.
      assert (Hs' : nondecreasing (map fst l'))
        by (destruct l'; [exact I | apply Hs]).
      assert (Hn' : forall z, In z (x :: l') -> is_nan_key (fst z) = false).
      { intros z [<- | Hz]; apply Hn; [now left | right; now right]. }
      specialize (IH _ eq_refl Hn' Hs').
      apply sort_insert_shape in Hi.
      destruct Hi as [-> | (z & l'' & r'' & -> & -> & _ & _)].
      * simpl. split; [now apply key_lt_true_le | exact IH].
      * simpl. split; [apply Hs | exact IH].
    + injection H as <-. simpl. split; [|exact Hs].
      apply key_lt_false_le; auto; apply Hn; [right; now left | now left].
Qed.

Lemma sort_keyed_perm l r : sort_keyed l = Ok r -> Permutation r l.
Proof.
  revert r. induction l as [|x l' IH]; intros r H; simpl in H.
  - injection H as <-. reflexivity.
  - destruct (sort_keyed l') as [r'|] eqn:Hs; try discriminate.
    rewrite (sort_insert_perm _ _ _ H). constructor. now apply IH.
Qed.

Lemma sort_keyed_sorted l r :
  sort_keyed l = Ok r ->
  (forall y, In y l -> is_nan_key (fst y) = false) ->
  nondecreasing (map fst r).
Proof.
  revert r. induction l as [|x l' IH]; intros r H Hn; simpl in H.
  - injection H as <-. exact I.
  - destruct (sort_keyed l') as [r'|] eqn:Hs; try discriminate.
    apply (sort_insert_sorted x r' r H).
    + intros y [<- | Hy]; apply Hn; [now left | right].
      now apply (Permutation_in y (sort_keyed_perm _ _ Hs)).
    + apply (IH _ eq_refl). intros y Hy. apply Hn. now right.
Qed.

(** A list that sorts without an exception holds keys of one kind. *)
Lemma sort_keyed_one_kind l r :
  sort_keyed l = Ok r ->
  forall x y, In x l -> In y l -> is_num (fst x) = is_num (fst y).
Proof.
  revert r. induction l as [|a l' IH]; intros r H x y Hx Hy; [destruct Hx|].
  simpl in H. destruct (sort_keyed l') as [r'|] eqn:Hs; try discriminate.
  assert (Ha : forall z, In z l' -> is_num (fst a) = is_num (fst z)).
  { intros z Hz. destruct r' as [|h t].
    - apply sort_keyed_perm in Hs. apply Permutation_nil in Hs.
      subst l'. destruct Hz.
    - assert (Hh : In h l').
      { apply (Permutation_in h (sort_keyed_perm _ _ Hs)). now left. }
      simpl in H.
      destruct (key_lt (fst h) (fst a)) as [v|] eqn:Hk; try discriminate.
      apply key_lt_kind in Hk. rewrite <- Hk. now apply (IH _ eq_refl). }
  destruct Hx as [<- | Hx], Hy as [<- | Hy]; auto.
  - symmetry. auto.
  - now apply (IH _ eq_refl).
Qed.

Lemma sort_insert_raise x l e :
  sort_insert x l = Raise e -> e = TypeError.
Proof.
  induction l as [|y l' IH]; simpl; [discriminate|].
  destruct (key_lt (fst y) (fst x)) as [[|]|] eqn:Hk; try discriminate.
  - destruct (sort_insert x l'); [discriminate|].
    intros H. injection H as <-. now apply IH.
  - intros H. injection H as <-. now apply key_lt_raise in Hk.
Qed.

Lemma sort_keyed_raise l e : sort_keyed l = Raise e -> e = TypeError.
Proof.
  induction l as [|x l' IH]; simpl; [discriminate|].
  destruct (sort_keyed l') as [r'|e'].
  - apply sort_insert_raise.
  - intros H. injection H as <-. now apply IH.
Qed.

(** Keys of both kinds: the comparison raises [TypeError]. *)
Lemma sort_keyed_mixed l x y :
  In x l -> In y l -> is_num (fst x) <> is_num (fst y) ->
  sort_keyed l = Raise TypeError.
Proof.
  intros Hx Hy Hne. destruct (sort_keyed l) as [r|e] eqn:H.
  - exfalso. apply Hne. eapply sort_keyed_one_kind; eauto.
  - now rewrite (sort_keyed_raise _ _ H).
Qed.

Lemma sort_insert_total x l :
  (forall y, In y l -> is_num (fst y) = is_num (fst x)) ->
  exists r, sort_insert x l = Ok r.
Proof.
  induction l as [|y l' IH]; intros Hk; simpl; [eauto|].
  destruct (key_lt (fst y) (fst x)) as [[|]|e] eqn:Hlt; [| eauto |].
  - destruct IH as [r ->]; [intros z Hz; apply Hk; now right | eauto].
  - apply key_lt_raise in Hlt. destruct Hlt as [_ Hne].
    exfalso. apply Hne, Hk. now left.
Qed.

(** Keys of one kind: the sort returns. *)
Lemma sort_keyed_total l (b : bool) :
  (forall x, In x l -> is_num (fst x) = b) ->
  exists r, sort_keyed l = Ok r.
Proof.
  induction l as [|x l' IH]; intros Hk; simpl; [eauto|].
  destruct IH as [r' Hr]; [intros z Hz; apply Hk; now right|].
  rewrite Hr. apply sort_insert_total. intros y Hy.
  apply (Permutation_in y (sort_keyed_perm _ _ Hr)) in Hy.
  rewrite (Hk y), (Hk x); auto; [now left | now right].
Qed.
(** No NaN among the keys: the list is one the stable sort orders. *)
Lemma unordered_without_nan l :
  (forall y, In y l -> is_nan_key (fst y) = false) -> unordered l = false.
Proof.
  intros H. unfold unordered.
  assert (He : existsb (fun p => is_nan_key (fst p)) l = false).
  { induction l as [|y l' IH]; [reflexivity|]. simpl.
    rewrite (H y) by now left. apply IH. intros z Hz. apply H. now right. }
  rewrite He. now rewrite andb_false_r.
Qed.

Lemma unordered_all_num l :
  unordered l = true -> forall y, In y l -> is_num (fst y) = true.
Proof.
  unfold unordered. intros H y Hy.
  apply andb_true_iff in H. destruct H as [H _].
  apply andb_true_iff in H. destruct H as [H _].
  rewrite forallb_forall in H. now apply H.
Qed.
End Sorting.

Section KeyedSort.
Context {A : Type}.

Lemma keyed_agree (key : A -> res sort_key) (l : list A)
    (kl : list (sort_key * A)) :
  keyed key l = Ok kl ->
  map snd kl = l /\ Forall (fun p => key (snd p) = Ok (fst p)) kl.
Proof.
  revert kl. induction l as [|x l IH]; intros kl H; simpl in H.
  - injection H as <-. split; [reflexivity | constructor].
  - destruct (key x) as [k|] eqn:Hk; try discriminate.
    destruct (keyed key l) as [r|]; try discriminate.
    injection H as <-. destruct (IH _ eq_refl) as [Hm Hf].
    simpl. split; [now rewrite Hm | constructor; auto].
Qed.

Lemma keyed_total (key : A -> res sort_key) (l : list A) :
  (forall x, In x l -> exists k, key x = Ok k) ->
  exists kl, keyed key l = Ok kl.
Proof.
  induction l as [|x l IH]; intros H; simpl; [eauto|].
  destruct (H x) as [k ->]; [now left|].
  destruct IH as [kl ->]; [intros y Hy; apply H; now right | eauto].
Qed.

Lemma keyed_raise (key : A -> res sort_key) (l : list A) (x : A) (e : exn) :
  In x l -> key x = Raise e ->
  exists e', keyed key l = Raise e'.
Proof.
  induction l as [|y l IH]; intros Hin Hk; [destruct Hin|]. simpl.
  destruct (key y) as [k|e0] eqn:Hy; [|eauto].
  destruct Hin as [-> | Hin]; [congruence|].
  destruct (IH Hin Hk) as [e' ->]. eauto.
Qed.

Lemma Forall_perm_keys (P : sort_key * A -> Prop) (l r : list (sort_key * A)) :
  Permutation r l -> Forall P l -> Forall P r.
Proof.
  intros Hp Hf. apply List.Forall_forall. intros x Hx.
  rewrite List.Forall_forall in Hf. apply Hf.
  now apply (Permutation_in x Hp).
Qed.

Lemma keyed_keys (key : A -> res sort_key) (f : A -> sort_key) (l : list A)
    (kl : list (sort_key * A)) :
  (forall x k, key x = Ok k -> k = f x) ->
  keyed key l = Ok kl ->
  forall p, In p kl -> fst p = f (snd p) /\ In (snd p) l.
Proof.
  intros Hf Hk p Hp. destruct (keyed_agree _ _ _ Hk) as [Hm Hall].
  rewrite List.Forall_forall in Hall. split.
  - apply Hf. now apply Hall.
  - rewrite <- Hm. now apply in_map.
Qed.

(** What [sorted] returns holds the elements of its input. *)
Lemma py_sorted_perm (pyfloat : python_floats) (key : A -> res sort_key)
    (l r : list A) :
  py_sorted pyfloat key l = Ok r -> Permutation r l.
Proof.
  unfold py_sorted. intros H.
  destruct (keyed key l) as [kl|] eqn:Hk; try discriminate.
  destruct (keyed_agree _ _ _ Hk) as [Hm _]. rewrite <- Hm.
  destruct (unordered kl).
  - injection H as <-. apply Permutation_map, sort_with_nan_perm.
  - destruct (sort_keyed kl) as [sr|] eqn:Hs; try discriminate.
    injection H as <-. apply Permutation_map. now apply sort_keyed_perm.
Qed.

(** What [sorted] returns is a rearrangement of its input whose keys never
    decrease, for any key function that agrees with a total one and yields
    no NaN. *)
Lemma py_sorted_ordered (pyfloat : python_floats) (key : A -> res sort_key)
    (f : A -> sort_key) (l r : list A) :
  (forall x k, key x = Ok k -> k = f x) ->
  (forall x, In x l -> is_nan_key (f x) = false) ->
  py_sorted pyfloat key l = Ok r ->
  nondecreasing (map f r) /\ Permutation r l /\
  Forall (fun x => key x = Ok (f x)) r.
Proof.
  intros Hf Hnan H. pose proof (py_sorted_perm _ _ _ _ H) as Hperm.
  unfold py_sorted in H.
  destruct (keyed key l) as [kl|] eqn:Hk; try discriminate.
  destruct (keyed_agree _ _ _ Hk) as [Hm Hall].
  assert (Hno : forall p, In p kl -> is_nan_key (fst p) = false).
  { intros p Hp. destruct (keyed_keys _ f _ _ Hf Hk p Hp) as [-> Hin].
    now apply Hnan. }
  rewrite (unordered_without_nan kl Hno) in H.
  destruct (sort_keyed kl) as [sr|] eqn:Hs; try discriminate.
  injection H as <-.
  pose proof (sort_keyed_perm _ _ Hs) as Hp.
  pose proof (Forall_perm_keys _ _ _ Hp Hall) as Hall'.
  assert (Hfst : map fst sr = map f (map snd sr)).
  { clear -Hall' Hf. induction Hall' as [|p sr Hp _ IH]; [reflexivity|].
    simpl. rewrite IH. f_equal. now apply Hf. }
  split; [|split].
  - rewrite <- Hfst. now apply (sort_keyed_sorted kl).
  - exact Hperm.
  - clear -Hall' Hf. induction Hall' as [|p sr Hp _ IH]; simpl; constructor; auto.
    rewrite Hp. f_equal. now apply Hf.
Qed.

Lemma key_le_num_trans (a b c : sort_key) :
  is_num b = true -> key_le a b -> key_le b c -> key_le a c.
Proof.
  destruct a as [[p|n|]|s], b as [[q|m|]|t], c as [[u|o|]|w]; simpl;
    try tauto; try discriminate; intros _ H1 H2;
    try (now apply (Qle_trans _ q));
    repeat match goal with b : bool |- _ => destruct b end;
    intuition congruence.
Qed.

(** The head of a sorted list of numbers is a least element. *)
Lemma sort_keyed_head_least (l : list (sort_key * A)) (h : sort_key * A)
    (t : list (sort_key * A)) :
  (forall x, In x l -> is_num (fst x) = true /\ is_nan_key (fst x) = false) ->
  sort_keyed l = Ok (h :: t) ->
  forall x, In x l -> key_le (fst h) (fst x).
Proof.
  revert h t. induction l as [|a l' IH]; intros h t Hn H x Hx; [destruct Hx|].
  simpl in H. destruct (sort_keyed l') as [r'|] eqn:Hs; try discriminate.
  assert (Hrefl : forall y, In y (a :: l') -> key_le (fst y) (fst y)).
  { intros y Hy. destruct (Hn y Hy). now apply key_le_refl_num. }
  destruct r' as [|h' t'].
  - simpl in H. injection H as <- <-.
    apply sort_keyed_perm, Permutation_nil in Hs. subst l'.
    destruct Hx as [<- | []]. apply Hrefl. now left.
  - assert (IH' : forall y, In y l' -> key_le (fst h') (fst y)).
    { apply (IH h' t'); auto. intros y Hy. apply Hn. now right. }
    assert (Hh' : In h' l').
    { apply (Permutation_in h' (sort_keyed_perm _ _ Hs)). now left. }
    simpl in H.
    destruct (key_lt (fst h') (fst a)) as [[|]|] eqn:Hk; try discriminate.
    + destruct (sort_insert a t') as [r''|]; try discriminate.
      injection H as <- <-.
      destruct Hx as [<- | Hx]; [now apply key_lt_true_le | now apply IH'].
    + injection H as <- <-.
      destruct Hx as [<- | Hx]; [apply Hrefl; now left|].
      apply (key_le_num_trans _ (fst h')).
      * apply Hn. now right.
      * apply key_lt_false_le; auto; apply Hn; [right; exact Hh' | now left].
      * now apply IH'.
Qed.
End KeyedSort.

Section VolumeSections.
Variable pyfloat : python_floats.

Lemma float_key_agrees (s : string) (k : sort_key) :
  float_key pyfloat s = Ok k -> k = _vol_key pyfloat s.
Proof.
  unfold float_key, _vol_key. destruct (float_of pyfloat s); congruence.
Qed.

Lemma float_key_ok_numeric (s : string) :
  float_key pyfloat s = Ok (_vol_key pyfloat s) -> float_of pyfloat s <> None.
Proof. unfold float_key. destruct (float_of pyfloat s); congruence. Qed.

Lemma vol_key_nan (s : string) :
  float_of pyfloat s <> Some NaN -> is_nan_key (_vol_key pyfloat s) = false.
Proof.
  unfold _vol_key. destruct (float_of pyfloat s) as [[q|n|]|]; auto.
  intros H. now destruct H.
Qed.

Lemma vm_append_keys (v : string) (ch : chapter)
    (m : list (string * list chapter)) (k : string) :
  In k (map fst (vm_append v ch m)) <-> k = v \/ In k (map fst m).
Proof using Type.
  induction m as [|[k' cs] m IH]; simpl.
  - intuition.
  - destruct (String.eqb k' v) eqn:He; simpl.
    + apply String.eqb_eq in He. subst. intuition.
    + rewrite IH. intuition.
Qed.

Lemma volumes_map_fold_keys (chapters : list chapter)
    (m : list (string * list chapter)) (k : string) :
  In k (map fst (fold_left (fun m ch => vm_append (ch_volume ch) ch m)
                           chapters m))
  <-> In k (map ch_volume chapters) \/ In k (map fst m).
Proof using Type.
  revert m. induction chapters as [|c cs IH]; intros m; simpl.
  - intuition.
  - rewrite IH, vm_append_keys. intuition.
Qed.

(** The keys of [volumes_map] are the volume labels of the chapters. *)
Lemma volumes_map_keys (chapters : list chapter) (k : string) :
  In k (map fst (volumes_map_of chapters)) <-> In k (map ch_volume chapters).
Proof using Type.
  unfold volumes_map_of. rewrite volumes_map_fold_keys. simpl. intuition.
Qed.

Lemma vm_append_flat (v : string) (ch : chapter)
    (m : list (string * list chapter)) :
  Permutation (flat_map snd (vm_append v ch m)) (ch :: flat_map snd m).
Proof using Type.
  induction m as [|[k cs] m IH]; simpl; [reflexivity|].
  destruct (String.eqb k v); simpl.
  - rewrite <- app_assoc. simpl. symmetry. apply Permutation_middle.
  - rewrite IH. symmetry. apply Permutation_middle.
Qed.

Lemma volumes_map_fold_flat (chapters : list chapter)
    (m : list (string * list chapter)) :
  Permutation
    (flat_map snd (fold_left (fun m ch => vm_append (ch_volume ch) ch m)
                             chapters m))
    (flat_map snd m ++ chapters).
Proof using Type.
  revert m. induction chapters as [|c cs IH]; intros m; simpl.
  - now rewrite app_nil_r.
  - rewrite IH, vm_append_flat. simpl. apply Permutation_middle.
Qed.

(** The lists of [volumes_map] hold the chapters of the record. *)
Lemma volumes_map_flat (chapters : list chapter) :
  Permutation (flat_map snd (volumes_map_of chapters)) chapters.
Proof using Type. apply (volumes_map_fold_flat chapters []). Qed.

Lemma vm_get_sub (m : list (string * list chapter)) (k : string) (c : chapter) :
  In c (vm_get m k) -> In c (flat_map snd m).
Proof using Type.
  induction m as [|[k' cs] m IH]; simpl; [tauto|].
  destruct (String.eqb k' k); intros H; apply in_or_app; auto.
Qed.

Lemma volume_loop_labels (m : list (string * list chapter))
    (vols : list string) (secs : list (string * list chapter)) :
  (forall c, In c (flat_map snd m) ->
             float_of pyfloat (ch_number c) <> Some NaN) ->
  volume_loop pyfloat m vols = Ok secs ->
  map fst secs = vols /\
  Forall (fun sec =>
            nondecreasing
              (map (fun c => _vol_key pyfloat (ch_number c)) (snd sec)) /\
            Forall (fun c => float_of pyfloat (ch_number c) <> None) (snd sec))
         secs.
Proof.
  intros Hnan.
  revert secs. induction vols as [|vol rest IH]; intros secs H; simpl in H.
  - injection H as <-. split; [reflexivity | constructor].
  - destruct (py_sorted _ _ (vm_get m vol)) as [chapters|] eqn:Hs;
      try discriminate.
    destruct (volume_loop pyfloat m rest) as [secs'|]; try discriminate.
    injection H as <-. destruct (IH _ eq_refl) as [Hl Hf].
    simpl. split; [now rewrite Hl|]. constructor; [|exact Hf].
    apply (py_sorted_ordered _ _ (fun c => _vol_key pyfloat (ch_number c)))
      in Hs.
    + destruct Hs as (Hnd & _ & Hall). simpl. split; [exact Hnd|].
      eapply List.Forall_impl; [|exact Hall].
      intros c Hc. now apply float_key_ok_numeric.
    + intros c k. apply float_key_agrees.
    + intros c Hc. apply vol_key_nan, Hnan. now apply (vm_get_sub m vol).
Qed.

(** When the assembly gets through its sorting and no label or number of
    the record is NaN, the volume sections stand in non-decreasing order of
    [_vol_key] and the chapters of each section in non-decreasing order of
    their number. *)
Lemma volume_sections_ordered (data : ranobe)
    (secs : list (string * list chapter)) :
  nan_free pyfloat data ->
  volume_sections pyfloat data = Ok secs -> sections_ordered pyfloat secs.
Proof.
  unfold volume_sections, sections_ordered. intros Hnan H.
  destruct (py_sorted _ _ (map fst (volumes_map_of (r_chapters data))))
    as [sorted_vols|] eqn:Hs; try discriminate.
  apply volume_loop_labels in H.
  - destruct H as [Hl Hf]. split; [|exact Hf]. rewrite Hl.
    apply (py_sorted_ordered _ _ (_vol_key pyfloat)) in Hs; [apply Hs | |].
    + intros v k Hk. congruence.
    + intros v Hv. apply volumes_map_keys, in_map_iff in Hv.
      destruct Hv as (c & <- & Hc). apply vol_key_nan. now apply Hnan.
  - intros c Hc. apply Hnan.
    now apply (Permutation_in c (volumes_map_flat (r_chapters data))).
Qed.

Lemma mixed_not_unordered {A : Type} (kl : list (sort_key * A))
    (x : sort_key * A) :
  In x kl -> is_num (fst x) = false -> unordered kl = false.
Proof.
  intros Hx Hn. destruct (unordered kl) eqn:Hu; [|reflexivity].
  now rewrite (unordered_all_num kl Hu x Hx) in Hn.
Qed.

(** A numeric and a non-numeric volume label in one record: the sort of
    the labels raises [TypeError] and no section is built. *)
Lemma volume_sections_mixed (data : ranobe) (c1 c2 : chapter) :
  In c1 (r_chapters data) -> In c2 (r_chapters data) ->
  float_of pyfloat (ch_volume c1) <> None ->
  float_of pyfloat (ch_volume c2) = None ->
  volume_sections pyfloat data = Raise TypeError.
Proof.
  intros H1 H2 Hn1 Hn2. unfold volume_sections, py_sorted.
  set (vols := map fst (volumes_map_of (r_chapters data))).
  destruct (keyed (fun v => Ok (_vol_key pyfloat v)) vols) as [kl|e] eqn:Hk.
  - destruct (keyed_agree _ _ _ Hk) as [Hm Hall].
    assert (Hin : forall c, In c (r_chapters data) ->
              In (_vol_key pyfloat (ch_volume c), ch_volume c) kl).
    { intros c Hc.
      assert (Hv : In (ch_volume c) (map snd kl)).
      { rewrite Hm. apply volumes_map_keys. now apply in_map. }
      apply in_map_iff in Hv. destruct Hv as ([k v] & Hv & Hp).
      simpl in Hv. subst v. rewrite List.Forall_forall in Hall.
      specialize (Hall _ Hp). simpl in Hall. congruence. }
    rewrite (mixed_not_unordered kl _ (Hin c2 H2))
      by (simpl; unfold _vol_key; now rewrite Hn2).
    rewrite (sort_keyed_mixed kl _ _ (Hin c1 H1) (Hin c2 H2)); [reflexivity|].
    simpl. unfold _vol_key. rewrite Hn2.
    destruct (float_of pyfloat (ch_volume c1)); [discriminate | congruence].
  - destruct (keyed_total (fun v => Ok (_vol_key pyfloat v)) vols) as [kl Hkl];
      [eauto | congruence].
Qed.

(** *** The title page *)

Lemma title_link_no_chapters (data : ranobe) :
  r_chapters data = [] -> title_link pyfloat data = "#".
Proof. intros H. unfold title_link. now rewrite H. Qed.

Lemma title_link_not_numeric (data : ranobe) (c : chapter) :
  In c (r_chapters data) -> float_of pyfloat (ch_volume c) = None ->
  title_link pyfloat data = "#".
Proof.
  intros Hin Hn. unfold title_link.
  destruct (map ch_volume (r_chapters data)) as [|v vs] eqn:Hv; [reflexivity|].
  assert (Hc : In (ch_volume c) (v :: vs))
    by (rewrite <- Hv; now apply in_map).
  unfold py_sorted.
  destruct (keyed_raise (float_key pyfloat) (v :: vs) (ch_volume c)
              (ValueError "could not convert string to float") Hc)
    as [e' ->]; [|reflexivity].
  unfold float_key. now rewrite Hn.
Qed.

Lemma float_keyed_total (l : list string) :
  (forall s, In s l -> float_of pyfloat s <> None) ->
  exists kl, keyed (float_key pyfloat) l = Ok kl /\
             forall p, In p kl ->
               fst p = _vol_key pyfloat (snd p) /\ is_num (fst p) = true /\
               In (snd p) l.
Proof.
  intros Hnum.
  destruct (keyed_total (float_key pyfloat) l) as [kl Hkl].
  { intros s Hs. unfold float_key.
    destruct (float_of pyfloat s) eqn:Hp; [eauto | now apply Hnum in Hs]. }
  exists kl. split; [exact Hkl|]. intros p Hp.
  destruct (keyed_agree _ _ _ Hkl) as [Hm Hag].
  rewrite List.Forall_forall in Hag. specialize (Hag p Hp).
  assert (Hin : In (snd p) l) by (rewrite <- Hm; now apply in_map).
  unfold float_key, _vol_key in *.
  destruct (float_of pyfloat (snd p)); [|discriminate].
  injection Hag as <-. auto.
Qed.

(** With labels that all read as numbers the link leads to a volume of
    the book. *)
Lemma title_link_parsed (data : ranobe) :
  r_chapters data <> [] ->
  (forall c, In c (r_chapters data) -> float_of pyfloat (ch_volume c) <> None) ->
  exists first_vol,
    In first_vol (map ch_volume (r_chapters data)) /\
    title_link pyfloat data
    = "volume_" ++ first_vol ++ ".xhtml#volume_" ++ first_vol.
Proof.
  intros Hne Hall. unfold title_link.
  destruct (map ch_volume (r_chapters data)) as [|v vs] eqn:Hv.
  { destruct (r_chapters data); [congruence | discriminate]. }
  destruct (py_sorted pyfloat (float_key pyfloat) (v :: vs)) as [r|e] eqn:Hs.
  - pose proof (py_sorted_perm _ _ _ _ Hs) as Hperm.
    destruct r as [|h t].
    { apply Permutation_nil in Hperm. discriminate. }
    exists h. split; [|reflexivity].
    apply (Permutation_in h Hperm). now left.
  - exfalso. unfold py_sorted in Hs.
    destruct (float_keyed_total (v :: vs)) as (kl & Hkl & Hk).
    { intros s Hs'. rewrite <- Hv in Hs'. apply in_map_iff in Hs'.
      destruct Hs' as (c & <- & Hc). now apply Hall. }
    rewrite Hkl in Hs. destruct (unordered kl); [discriminate|].
    destruct (sort_keyed_total kl true) as [sr Hsr];
      [intros p Hp; now apply Hk|].
    rewrite Hsr in Hs. discriminate.
Qed.

Lemma title_link_numeric (data : ranobe) :
  r_chapters data <> [] ->
  (forall c, In c (r_chapters data) ->
     float_of pyfloat (ch_volume c) <> None /\
     float_of pyfloat (ch_volume c) <> Some NaN) ->
  exists first_vol,
    In first_vol (map ch_volume (r_chapters data)) /\
    (forall c, In c (r_chapters data) ->
               key_le (_vol_key pyfloat first_vol)
                      (_vol_key pyfloat (ch_volume c))) /\
    title_link pyfloat data
    = "volume_" ++ first_vol ++ ".xhtml#volume_" ++ first_vol.
Proof.
  intros Hne Hall. unfold title_link.
  destruct (map ch_volume (r_chapters data)) as [|v vs] eqn:Hv.
  { destruct (r_chapters data); [congruence | discriminate]. }
  assert (Hlab : forall s, In s (v :: vs) ->
             float_of pyfloat s <> None /\ float_of pyfloat s <> Some NaN).
  { intros s Hs. rewrite <- Hv in Hs. apply in_map_iff in Hs.
    destruct Hs as (c & <- & Hc). now apply Hall. }
  unfold py_sorted.
  destruct (float_keyed_total (v :: vs)) as (kl & Hkl & Hk);
    [intros s Hs; now apply Hlab|].
  rewrite Hkl. destruct (keyed_agree _ _ _ Hkl) as [Hm Hag].
  assert (Hno : forall p, In p kl -> is_nan_key (fst p) = false).
  { intros p Hp. destruct (Hk p Hp) as (-> & _ & Hin).
    apply vol_key_nan. now apply Hlab. }
  rewrite (unordered_without_nan kl Hno).
  destruct (sort_keyed_total kl true) as [sr Hsr];
    [intros p Hp; now apply Hk|].
  rewrite Hsr. pose proof (sort_keyed_perm _ _ Hsr) as Hperm.
  destruct sr as [|h t].
  { apply Permutation_nil in Hperm. subst kl. discriminate. }
  simpl. exists (snd h).
  assert (Hh : In h kl) by (apply (Permutation_in h Hperm); now left).
  split; [|split; [|reflexivity]].
  - assert (Hin : In (snd h) (map snd kl)) by now apply in_map.
    rewrite Hm in Hin. exact Hin.
  - intros c Hc.
    assert (Hcv : In (ch_volume c) (map snd kl))
      by (rewrite Hm, <- Hv; now apply in_map).
    apply in_map_iff in Hcv. destruct Hcv as (p & Hpv & Hp).
    destruct (Hk h Hh) as (<- & _ & _). rewrite <- Hpv.
    destruct (Hk p Hp) as (<- & _ & _).
    apply (sort_keyed_head_least kl h t); auto.
    intros x Hx. split; [now apply Hk | now apply Hno].
Qed.
End VolumeSections.

(** C4: at a record mixing a numeric and a non-numeric volume label, the
    sort of the volume labels compares a float with a string and raises
    [TypeError]: no volume section is built, where the claim asks for the
    sections in order. *)
Theorem volume_sections_mixed_book_raises :
  volume_sections decimal_float mixed_book = Raise TypeError.
Proof. vm_compute. reflexivity. Qed.

(** The round trip of the specification: volumes ["1"; "2"], the chapters of
    volume "1" by number. *)
Example volume_sections_two_volumes :
  match volume_sections decimal_float two_volume_book with
  | Ok secs => map (fun sec => (fst sec, map ch_number (snd sec))) secs
  | Raise _ => []
  end = [("1", ["1.0"; "2.0"]); ("2", ["1.0"])].
Proof. vm_compute. reflexivity. Qed.

(** C8, amended: the title page is built from the three fields, a missing
    title rendered as the placeholder and a missing original title or
    description as empty text; its link is ["#"] when the book has no
    chapter or when some chapter's volume label does not read as a number;
    when there are chapters and every volume label reads as a number, the
    link goes to [volume_V.xhtml#volume_V] for a volume label V of the
    book, and V is of least numeric value when no label reads as NaN. *)
Theorem title_page_link (pyfloat : python_floats) (data : ranobe) :
  page_content (_make_title_page pyfloat data)
  = title_html (default "Без названия" (r_title data))
               (default EmptyString (r_original_title data))
               (default EmptyString (r_description data))
               (title_link pyfloat data) /\
  (r_chapters data = [] -> title_link pyfloat data = "#") /\
  (forall c, In c (r_chapters data) ->
             float_of pyfloat (ch_volume c) = None ->
             title_link pyfloat data = "#") /\
  (r_chapters data <> [] ->
   (forall c, In c (r_chapters data) ->
              float_of pyfloat (ch_volume c) <> None) ->
   exists first_vol,
     In first_vol (map ch_volume (r_chapters data)) /\
     title_link pyfloat data
     = "volume_" ++ first_vol ++ ".xhtml#volume_" ++ first_vol) /\
  (r_chapters data <> [] ->
   (forall c, In c (r_chapters data) ->
              float_of pyfloat (ch_volume c) <> None /\
              float_of pyfloat (ch_volume c) <> Some NaN) ->
   exists first_vol,
     In first_vol (map ch_volume (r_chapters data)) /\
     (forall c, In c (r_chapters data) ->
                key_le (_vol_key pyfloat first_vol)
                       (_vol_key pyfloat (ch_volume c))) /\
     title_link pyfloat data
     = "volume_" ++ first_vol ++ ".xhtml#volume_" ++ first_vol).
Proof.
  split; [reflexivity|]. split; [apply title_link_no_chapters|].
  split; [apply title_link_not_numeric|].
  split; [apply title_link_parsed | apply title_link_numeric].
Qed.

Lemma title_page_link_witness :
  exists first_vol,
    In first_vol (map ch_volume (r_chapters two_volume_book)) /\
    (forall c, In c (r_chapters two_volume_book) ->
               key_le (_vol_key decimal_float first_vol)
                      (_vol_key decimal_float (ch_volume c))) /\
    title_link decimal_float two_volume_book
    = "volume_" ++ first_vol ++ ".xhtml#volume_" ++ first_vol.
Proof.
  destruct (title_page_link decimal_float two_volume_book)
    as (_ & _ & _ & _ & H).
  apply H.
  - discriminate.
  - intros c [<- | [<- | [<- | []]]]; vm_compute; split; discriminate.
Defined.

(** The title page of the specification's round trip links to volume 1. *)
Example title_page_link_two_volumes :
  title_link decimal_float two_volume_book = "volume_1.xhtml#volume_1".
Proof. vm_compute. reflexivity. Qed.

(** With a label that reads as NaN the link follows the order Python's
    sort leaves: where it leaves 2, NaN, 1 as they stand, the link goes to
    volume 2, which is not the least. *)
Example title_link_with_nan (pyfloat : python_floats) :
  float_of pyfloat "2" = Some (Fin 2) ->
  float_of pyfloat "nan" = Some NaN ->
  float_of pyfloat "1" = Some (Fin 1) ->
  sort_with_nan pyfloat string
    [(KNum (Fin 2), "2"); (KNum NaN, "nan"); (KNum (Fin 1), "1")]
  = [(KNum (Fin 2), "2"); (KNum NaN, "nan"); (KNum (Fin 1), "1")] ->
  title_link pyfloat nan_book = "volume_2.xhtml#volume_2".
Proof.
  intros H2 Hn H1 Hs. unfold title_link, py_sorted. simpl.
  unfold float_key. rewrite H2, Hn, H1. simpl. now rewrite Hs.
Qed.

(** C8 as stated fails: a book with a chapter whose volume label is not a
    number gets the dead link. *)
Lemma title_link_dead_with_chapters :
  ~ title_links_forward decimal_float extra_book.
Proof.
  intros H. destruct H as (v & _ & Heq); [discriminate|].
  vm_compute in Heq. discriminate.
Qed.

(** A missing title is rendered as the placeholder, not as empty text. *)
Example title_page_placeholder :
  page_content (_make_title_page decimal_float extra_book)
  = title_html "Без названия" EmptyString EmptyString "#".
Proof. reflexivity. Qed.

(** ** The trace of the acquisition *)

Section Trace.
Variable E : env.

Lemma requests_made_app (a b : trace) :
  requests_made (a ++ b)%list = (requests_made a + requests_made b)%nat.
Proof. unfold requests_made. now rewrite List.filter_app, length_app. Qed.

Lemma fractions_app (a b : trace) :
  fractions (a ++ b)%list = (fractions a ++ fractions b)%list.
Proof.
  induction a as [|e a IH]; [reflexivity|].
  destruct e; simpl; rewrite IH; reflexivity.
Qed.

Lemma fractions_progress (qs : list Q) : fractions (map Progress qs) = qs.
Proof. induction qs as [|q qs IH]; simpl; [|rewrite IH]; reflexivity. Qed.

Lemma quiet_refl (tr : trace) : quiet_step tr tr.
Proof. exists []. now rewrite app_nil_r. Qed.

Lemma quiet_trans (a b c : trace) :
  quiet_step a b -> quiet_step b c -> quiet_step a c.
Proof.
  intros (n1 & -> & H1) (n2 & -> & H2). exists (n1 ++ n2)%list.
  rewrite <- app_assoc, fractions_app, H1, H2. auto.
Qed.

Lemma quiet_app (tr new : trace) :
  fractions new = [] -> quiet_step tr (tr ++ new)%list.
Proof. intros H. exists new. auto. Qed.

Lemma quiet_fractions (tr tr' : trace) :
  quiet_step tr tr' -> fractions tr' = fractions tr.
Proof.
  intros (new & -> & H). now rewrite fractions_app, H, app_nil_r.
Qed.

Lemma requests_get_quiet (url : string) (tr : trace) :
  quiet_step tr (snd (requests_get E url tr)).
Proof. apply quiet_app. reflexivity. Qed.

Lemma pause_ok (attempt max_retries sleep_time : Z) (tr tr' : trace) :
  pause attempt max_retries sleep_time tr = Ok tr' ->
  tr' = tr \/ (tr' = (tr ++ [Sleep sleep_time])%list /\ 0 <= sleep_time).
Proof.
  unfold pause. destruct (attempt <? max_retries).
  - destruct (sleep_time <? 0) eqn:Hs; [discriminate|].
    intros H. injection H as <-. right. split; [reflexivity|].
    now apply Z.ltb_ge.
  - intros H. injection H as <-. now left.
Qed.

Lemma pause_quiet (attempt max_retries sleep_time : Z) (tr tr' : trace) :
  pause attempt max_retries sleep_time tr = Ok tr' -> quiet_step tr tr'.
Proof.
  intros H. destruct (pause_ok _ _ _ _ _ H) as [-> | [-> _]];
    [apply quiet_refl | now apply quiet_app].
Qed.

(** A pause of non-negative length does not raise. *)
Lemma pause_nonneg (attempt max_retries sleep_time : Z) (tr : trace) :
  0 <= sleep_time ->
  exists tr', pause attempt max_retries sleep_time tr = Ok tr'.
Proof.
  intros H. unfold pause. destruct (attempt <? max_retries); [|eauto].
  apply Z.ltb_ge in H. rewrite H. eauto.
Qed.

(** The step from a failed attempt to the next one. *)
Lemma retry_quiet {A : Type} (next : trace -> res A * trace)
    (attempt max_retries sleep_time : Z) (tr tr2 : trace) :
  quiet_step tr tr2 ->
  (forall t, quiet_step t (snd (next t))) ->
  quiet_step tr
    (snd (match pause attempt max_retries sleep_time tr2 with
          | Raise e => (Raise e, tr2)
          | Ok tr3 => next tr3
          end)).
Proof.
  intros H Hnext.
  destruct (pause attempt max_retries sleep_time tr2) as [tr3|e] eqn:Hp.
  - eapply quiet_trans; [exact H|].
    eapply quiet_trans; [exact (pause_quiet _ _ _ _ _ Hp) | apply Hnext].
  - exact H.
Qed.

Lemma retry_ok {A : Type} (next : trace -> res A * trace)
    (attempt max_retries sleep_time : Z) (tr2 : trace) :
  0 <= sleep_time ->
  (forall t, exists a, fst (next t) = Ok a) ->
  exists a,
    fst (match pause attempt max_retries sleep_time tr2 with
         | Raise e => (Raise e, tr2)
         | Ok tr3 => next tr3
         end) = Ok a.
Proof.
  intros Hs Hnext.
  destruct (pause_nonneg attempt max_retries sleep_time tr2 Hs) as [tr3 ->].
  apply Hnext.
Qed.

Lemma chapter_attempts_quiet (api_url : string) (max_retries sleep_time : Z)
    (remaining : nat) (attempt : Z) (tr : trace) :
  quiet_step tr
    (snd (chapter_attempts E api_url max_retries sleep_time remaining attempt tr)).
Proof.
  revert attempt tr. induction remaining as [|k IH]; intros attempt tr; simpl.
  - apply quiet_refl.
  - assert (Hlog : forall lg, fractions [lg] = [] ->
              quiet_step tr ((tr ++ [Get api_url]) ++ [lg])%list).
    { intros lg Hlg. rewrite <- app_assoc. apply quiet_app.
      destruct lg; simpl in *; congruence. }
    destruct (http_get E (requests_made tr) api_url) as [r|].
    + destruct (status_code r =? 200).
      * destruct (json_chapter E (resp_content r)); simpl.
        -- now apply quiet_app.
        -- apply (retry_quiet
                    (chapter_attempts E api_url max_retries sleep_time k
                       (attempt + 1))); [now apply Hlog | apply IH].
      * apply (retry_quiet
                 (chapter_attempts E api_url max_retries sleep_time k
                    (attempt + 1))); [now apply Hlog | apply IH].
    + apply (retry_quiet
               (chapter_attempts E api_url max_retries sleep_time k
                  (attempt + 1))); [now apply Hlog | apply IH].
Qed.

Lemma chapter_attempts_ok (api_url : string) (max_retries sleep_time : Z)
    (remaining : nat) (attempt : Z) (tr : trace) :
  0 <= sleep_time ->
  exists data,
    fst (chapter_attempts E api_url max_retries sleep_time remaining attempt tr)
    = Ok data.
Proof.
  intros Hs. revert attempt tr.
  induction remaining as [|k IH]; intros attempt tr; simpl; [eauto|].
  destruct (http_get E (requests_made tr) api_url) as [r|].
  - destruct (status_code r =? 200).
    + destruct (json_chapter E (resp_content r)); simpl; [eauto|].
      apply (retry_ok (chapter_attempts E api_url max_retries sleep_time k
                         (attempt + 1))); auto.
    + apply (retry_ok (chapter_attempts E api_url max_retries sleep_time k
                         (attempt + 1))); auto.
  - apply (retry_ok (chapter_attempts E api_url max_retries sleep_time k
                       (attempt + 1))); auto.
Qed.

Lemma get_chapter_data_quiet (book_id volume chap : string)
    (max_retries sleep_time : Z) (tr : trace) :
  quiet_step tr
    (snd (get_chapter_data E book_id volume chap max_retries sleep_time tr)).
Proof. apply chapter_attempts_quiet. Qed.

(** With a pause of non-negative length [get_chapter_data] does not
    raise. *)
Lemma get_chapter_data_ok (book_id volume chap : string)
    (max_retries sleep_time : Z) (tr : trace) :
  0 <= sleep_time ->
  exists data,
    fst (get_chapter_data E book_id volume chap max_retries sleep_time tr)
    = Ok data.
Proof. apply chapter_attempts_ok. Qed.

Lemma image_attempts_quiet (url save_path : string) (max_retries sleep_time : Z)
    (remaining : nat) (attempt : Z) (tr : trace) :
  quiet_step tr
    (snd (image_attempts E url save_path max_retries sleep_time
            remaining attempt tr)).
Proof.
  revert attempt tr. induction remaining as [|k IH]; intros attempt tr; simpl.
  - apply quiet_refl.
  - assert (Hlog : forall lg, fractions [lg] = [] ->
              quiet_step tr ((tr ++ [Get (image_target url)]) ++ [lg])%list).
    { intros lg Hlg. rewrite <- app_assoc. apply quiet_app.
      destruct lg; simpl in *; congruence. }
    destruct (http_get E (requests_made tr) (image_target url)) as [r|].
    + destruct (status_code r =? 200).
      * destruct (can_write E save_path); simpl.
        -- now apply Hlog.
        -- apply (retry_quiet
                    (image_attempts E url save_path max_retries sleep_time k
                       (attempt + 1))); [now apply Hlog | apply IH].
      * apply (retry_quiet
                 (image_attempts E url save_path max_retries sleep_time k
                    (attempt + 1))); [now apply Hlog | apply IH].
    + apply (retry_quiet
               (image_attempts E url save_path max_retries sleep_time k
                  (attempt + 1))); [now apply Hlog | apply IH].
Qed.

Lemma image_attempts_ok (url save_path : string) (max_retries sleep_time : Z)
    (remaining : nat) (attempt : Z) (tr : trace) :
  0 <= sleep_time ->
  exists ok,
    fst (image_attempts E url save_path max_retries sleep_time
           remaining attempt tr) = Ok ok.
Proof.
  intros Hs. revert attempt tr.
  induction remaining as [|k IH]; intros attempt tr; simpl; [eauto|].
  destruct (http_get E (requests_made tr) (image_target url)) as [r|].
  - destruct (status_code r =? 200).
    + destruct (can_write E save_path); simpl; [eauto|].
      apply (retry_ok (image_attempts E url save_path max_retries sleep_time
                         k (attempt + 1))); auto.
    + apply (retry_ok (image_attempts E url save_path max_retries sleep_time
                         k (attempt + 1))); auto.
  - apply (retry_ok (image_attempts E url save_path max_retries sleep_time
                       k (attempt + 1))); auto.
Qed.

Lemma download_image_quiet (url save_path : string)
    (max_retries sleep_time : Z) (tr : trace) :
  quiet_step tr
    (snd (download_image E url save_path max_retries sleep_time tr)).
Proof. apply image_attempts_quiet. Qed.

(** With a pause of non-negative length [download_image] does not raise. *)
Lemma download_image_ok (url save_path : string)
    (max_retries sleep_time : Z) (tr : trace) :
  0 <= sleep_time ->
  exists ok,
    fst (download_image E url save_path max_retries sleep_time tr) = Ok ok.
Proof. apply image_attempts_ok. Qed.

Lemma default_sleep_nonneg : 0 <= default_sleep_time.
Proof. unfold default_sleep_time. lia. Qed.

Lemma download_attachments_quiet (imgs_dir : string)
    (attachments : list attachment) (tr : trace) :
  quiet_step tr (snd (download_attachments E imgs_dir attachments tr)).
Proof.
  revert tr. induction attachments as [|att rest IH]; intros tr; simpl.
  - apply quiet_refl.
  - pose proof (download_image_quiet (att_url att)
                  (path_join imgs_dir (att_filename att))
                  default_max_retries default_sleep_time tr) as Hq.
    destruct (download_image E (att_url att)
                (path_join imgs_dir (att_filename att))
                default_max_retries default_sleep_time tr) as [ok tr1].
    simpl in Hq. destruct ok as [ok|e]; [|exact Hq].
    eapply quiet_trans; [exact Hq | apply IH].
Qed.

(** The downloads of the attachments never raise. *)
Lemma download_attachments_ok (imgs_dir : string)
    (attachments : list attachment) (tr : trace) :
  fst (download_attachments E imgs_dir attachments tr) = Ok tt.
Proof.
  revert tr. induction attachments as [|att rest IH]; intros tr; simpl.
  - reflexivity.
  - destruct (download_image_ok (att_url att)
                (path_join imgs_dir (att_filename att))
                default_max_retries default_sleep_time tr
                default_sleep_nonneg) as [ok Hok].
    destruct (download_image E (att_url att)
                (path_join imgs_dir (att_filename att))
                default_max_retries default_sleep_time tr) as [o tr1].
    simpl in Hok. subst o. apply IH.
Qed.

Lemma fix_img_tag_quiet (output_folder : string) (tag : attrs) (tr : trace) :
  quiet_step tr (snd (fix_img_tag E output_folder tag tr)).
Proof.
  unfold fix_img_tag.
  set (tag1 := match attr_get "loading" tag with
               | Some _ => attr_del "loading" tag
               | None => tag
               end).
  destruct (attr_get "src" tag1) as [src_val|]; [|apply quiet_refl].
  destruct (negb (truthy src_val)); [apply quiet_refl|].
  destruct (startswith src_val "http" || startswith src_val "/uploads/");
    [|apply quiet_refl].
  destruct (local_filename E src_val) as [filename|e]; [|apply quiet_refl].
  pose proof (download_image_quiet src_val
                (path_join (path_join output_folder "imgs") filename)
                default_max_retries default_sleep_time tr) as Hq.
  destruct (download_image E src_val _ default_max_retries default_sleep_time tr)
    as [ok tr1].
  simpl in Hq. destruct ok as [[|]|e]; exact Hq.
Qed.

Lemma fix_imgs_quiet (output_folder : string) (soup : list piece) (tr : trace) :
  quiet_step tr (snd (fix_imgs E output_folder soup tr)).
Proof.
  revert tr. induction soup as [|p rest IH]; intros tr; simpl.
  - apply quiet_refl.
  - destruct p as [s|tag].
    + specialize (IH tr).
      destruct (fix_imgs E output_folder rest tr) as [rest' tr'].
      destruct rest'; exact IH.
    + pose proof (fix_img_tag_quiet output_folder tag tr) as H1.
      destruct (fix_img_tag E output_folder tag tr) as [tag' tr1].
      simpl in H1. destruct tag' as [tag'|e]; [|exact H1].
      specialize (IH tr1).
      destruct (fix_imgs E output_folder rest tr1) as [rest' tr'].
      simpl in IH. destruct rest'; simpl; eapply quiet_trans; eauto.
Qed.

Lemma fix_img_links_in_html_quiet (html_str output_folder : string)
    (tr : trace) :
  quiet_step tr (snd (fix_img_links_in_html E html_str output_folder tr)).
Proof.
  unfold fix_img_links_in_html.
  pose proof (fix_imgs_quiet output_folder (bs_parse E html_str) tr) as H.
  destruct (fix_imgs E output_folder (bs_parse E html_str) tr) as [soup' tr'].
  destruct soup'; exact H.
Qed.

Lemma fix_img_links_in_doc_quiet (doc_data : content) (output_folder : string)
    (attachments : list attachment) (tr : trace) :
  quiet_step tr
    (snd (fix_img_links_in_doc E doc_data output_folder attachments tr)).
Proof.
  unfold fix_img_links_in_doc.
  pose proof (download_attachments_quiet (path_join output_folder "imgs")
                attachments tr) as H.
  destruct (download_attachments E _ attachments tr) as [r tr1].
  destruct r; exact H.
Qed.

Lemma normalize_content_quiet (c : content) (out_path : string)
    (attachments : list attachment) (tr : trace) :
  quiet_step tr (snd (normalize_content E c out_path attachments tr)).
Proof.
  destruct c as [html|ty nodes|]; simpl.
  - pose proof (fix_img_links_in_html_quiet html out_path tr) as H.
    destruct (fix_img_links_in_html E html out_path tr) as [r tr1].
    destruct r; exact H.
  - destruct (String.eqb ty "doc"); simpl;
      [apply fix_img_links_in_doc_quiet | apply quiet_refl].
  - apply quiet_refl.
Qed.

Lemma chapter_step_quiet (book_id out_path : string) (ch : stub)
    (all_chapters : list chapter) (tr : trace) :
  quiet_step tr (snd (chapter_step E book_id out_path ch all_chapters tr)).
Proof.
  unfold chapter_step.
  pose proof (get_chapter_data_quiet book_id (int_str E (tom ch))
                (float_str E (chapter_no ch))
                default_max_retries default_sleep_time tr) as H1.
  destruct (get_chapter_data E book_id (int_str E (tom ch))
              (float_str E (chapter_no ch))
              default_max_retries default_sleep_time tr) as [ch_data tr1].
  simpl in H1. destruct ch_data as [[d|]|e]; simpl.
  - pose proof (normalize_content_quiet (ch_content d) out_path
                  (ch_attachments d) tr1) as H2.
    destruct (normalize_content E (ch_content d) out_path
                (ch_attachments d) tr1) as [c tr2].
    simpl in H2. destruct c as [c|e]; [|eapply quiet_trans; eauto].
    pose proof (download_attachments_quiet (path_join out_path "imgs")
                  (ch_attachments d) tr2) as H3.
    destruct (download_attachments E _ (ch_attachments d) tr2) as [r tr3].
    simpl in H3.
    assert (quiet_step tr tr3)
      by (eapply quiet_trans; [exact H1|]; eapply quiet_trans; eauto).
    destruct r; assumption.
  - eapply quiet_trans; [exact H1 | now apply quiet_app].
  - exact H1.
Qed.

(** The chapter loop reports nothing but what [progress.tqdm] reports: all
    of it when the loop runs to its end, the first reports when an
    exception ends it. *)
Lemma chapters_loop_fractions (book_id out_path : string) (n i : nat)
    (stubs : list stub) (all_chapters : list chapter) (tr : trace) :
  exists reported rest,
    fractions (snd (chapters_loop E book_id out_path n i stubs all_chapters tr))
    = (fractions tr ++ reported)%list /\
    tqdm_from E n i (length stubs) = (reported ++ rest)%list /\
    (forall collected,
       fst (chapters_loop E book_id out_path n i stubs all_chapters tr)
       = Ok collected -> rest = []).
Proof.
  revert i all_chapters tr.
  induction stubs as [|ch rest IH]; intros i all_chapters tr; simpl.
  - exists (tqdm_report E i n), []. unfold tqdm_next.
    rewrite fractions_app, fractions_progress, app_nil_r. auto.
  - pose proof (chapter_step_quiet book_id out_path ch all_chapters
                  (tqdm_next E i n tr)) as H.
    destruct (chapter_step E book_id out_path ch all_chapters
                (tqdm_next E i n tr)) as [acc tr'].
    simpl in H. apply quiet_fractions in H.
    assert (Hn : fractions (tqdm_next E i n tr)
                 = (fractions tr ++ tqdm_report E i n)%list).
    { unfold tqdm_next. now rewrite fractions_app, fractions_progress. }
    destruct acc as [acc|e].
    + destruct (IH (S i) acc tr') as (reported & rest' & Hf & Ht & Hok).
      exists (tqdm_report E i n ++ reported)%list, rest'.
      rewrite Hf, H, Hn, Ht. rewrite <- !app_assoc. auto.
    + exists (tqdm_report E i n), (tqdm_from E n (S i) (length rest)).
      simpl. rewrite H, Hn. split; [reflexivity|]. split; [reflexivity|].
      discriminate.
Qed.

Lemma get_book_info_quiet (book_id : string) (tr : trace) :
  quiet_step tr (snd (get_book_info E book_id tr)).
Proof.
  unfold get_book_info. simpl.
  destruct (http_get E _ _) as [r|]; [destruct (status_code r =? 200)|];
    simpl; now apply quiet_app.
Qed.

Lemma get_cover_url_quiet (book_id : string) (tr : trace) :
  quiet_step tr (snd (get_cover_url E book_id tr)).
Proof.
  unfold get_cover_url. simpl.
  destruct (http_get E _ _) as [r|]; [destruct (status_code r =? 200)|];
    simpl; now apply quiet_app.
Qed.

Lemma get_chapters_list_quiet (book_id : string) (tr : trace) :
  quiet_step tr (snd (get_chapters_list E book_id tr)).
Proof.
  unfold get_chapters_list. simpl.
  destruct (http_get E _ _) as [r|];
    [destruct (status_code r =? 200);
     [destruct (json_chapters E (resp_content r))|]|];
    simpl; now apply quiet_app.
Qed.

Lemma fetch_cover_quiet (book_id imgs_path : string) (tr : trace) :
  quiet_step tr (snd (fetch_cover E book_id imgs_path tr)).
Proof.
  unfold fetch_cover.
  pose proof (get_cover_url_quiet book_id tr) as H1.
  destruct (get_cover_url E book_id tr) as [cover_url tr1]. simpl in H1.
  destruct cover_url as [[cover_url|]|e]; simpl; try exact H1.
  destruct (negb (truthy cover_url)); simpl; [exact H1|].
  pose proof (download_image_quiet cover_url
                (path_join imgs_path ("cover" ++ path_suffix E cover_url))
                default_max_retries default_sleep_time tr1) as H2.
  destruct (download_image E cover_url _ default_max_retries
              default_sleep_time tr1) as [ok tr2].
  simpl in H2. destruct ok; simpl; eapply quiet_trans; eauto.
Qed.
End Trace.
(** ** Bounded retries *)

Section Retry.
Variable E : env.

Lemma requests_made_get (url : string) : requests_made [Get url] = 1%nat.
Proof. reflexivity. Qed.

Lemma requests_made_quiet (e : event) :
  is_net e = false -> requests_made [e] = 0%nat.
Proof. destruct e; simpl; try discriminate; reflexivity. Qed.

Lemma requests_made_sleep (s : Z) : requests_made [Sleep s] = 0%nat.
Proof. reflexivity. Qed.

Lemma pause_eq (attempt max_retries sleep_time : Z) (tr : trace) :
  0 <= sleep_time ->
  pause attempt max_retries sleep_time tr
  = Ok (if attempt <? max_retries then (tr ++ [Sleep sleep_time])%list else tr).
Proof.
  intros H. unfold pause. destruct (attempt <? max_retries); [|reflexivity].
  apply Z.ltb_ge in H. now rewrite H.
Qed.

(** A failed attempt of [get_chapter_data]: the request, a log entry, the
    pause, then the next attempt. *)
Lemma chapter_attempt_fails (api_url : string) (max_retries sleep_time : Z)
    (k : nat) (attempt : Z) (tr : trace) :
  0 <= sleep_time ->
  attempt_fails E (requests_made tr) api_url ->
  exists lg, is_net lg = false /\
    chapter_attempts E api_url max_retries sleep_time (S k) attempt tr
    = chapter_attempts E api_url max_retries sleep_time k (attempt + 1)
        (if attempt <? max_retries
         then (((tr ++ [Get api_url]) ++ [lg]) ++ [Sleep sleep_time])%list
         else ((tr ++ [Get api_url]) ++ [lg])%list).
Proof.
  unfold attempt_fails. intros Hs Hf. simpl.
  destruct (http_get E (requests_made tr) api_url) as [r|].
  - apply Z.eqb_neq in Hf. rewrite Hf.
    exists (LogWarning "chapter status"). split; [reflexivity|].
    now rewrite pause_eq.
  - exists (LogError "chapter request"). split; [reflexivity|].
    now rewrite pause_eq.
Qed.

Lemma image_attempt_fails (url save_path : string) (max_retries sleep_time : Z)
    (k : nat) (attempt : Z) (tr : trace) :
  0 <= sleep_time ->
  attempt_fails E (requests_made tr) (image_target url) ->
  exists lg, is_net lg = false /\ is_write lg = false /\
    image_attempts E url save_path max_retries sleep_time (S k) attempt tr
    = image_attempts E url save_path max_retries sleep_time k (attempt + 1)
        (if attempt <? max_retries
         then (((tr ++ [Get (image_target url)]) ++ [lg])
               ++ [Sleep sleep_time])%list
         else ((tr ++ [Get (image_target url)]) ++ [lg])%list).
Proof.
  unfold attempt_fails. intros Hs Hf. simpl.
  destruct (http_get E (requests_made tr) (image_target url)) as [r|].
  - apply Z.eqb_neq in Hf. rewrite Hf.
    exists (LogWarning "image status"). repeat split.
    now rewrite pause_eq.
  - exists (LogError "image request"). repeat split.
    now rewrite pause_eq.
Qed.

(** The trace of a failed attempt followed by what comes after it. *)
Lemma failed_attempt_trace (url : string) (max_retries sleep_time : Z)
    (k : nat) (attempt : Z) (tr new : trace) (lg : event) :
  attempt = max_retries - Z.of_nat (S k) + 1 ->
  is_net lg = false ->
  List.filter is_net new = retry_pattern url sleep_time k ->
  requests_made new = k ->
  exists new',
    ((if attempt <? max_retries
      then ((tr ++ [Get url]) ++ [lg]) ++ [Sleep sleep_time]
      else (tr ++ [Get url]) ++ [lg]) ++ new)%list = (tr ++ new')%list /\
    List.filter is_net new' = retry_pattern url sleep_time (S k) /\
    requests_made new' = S k.
Proof.
  intros Ha Hlg Hnew Hreq.
  destruct (attempt <? max_retries) eqn:Hlt.
  - apply Z.ltb_lt in Hlt.
    exists ([Get url] ++ [lg] ++ [Sleep sleep_time] ++ new)%list.
    split; [now rewrite <- !app_assoc|]. split.
    + destruct k as [|k']; [exfalso; lia|].
      simpl. destruct lg; simpl in Hlg; try discriminate; simpl;
        rewrite Hnew; reflexivity.
    + rewrite !requests_made_app, requests_made_get, requests_made_sleep,
        (requests_made_quiet lg Hlg), Hreq. lia.
  - apply Z.ltb_ge in Hlt. destruct k as [|k']; [|exfalso; lia].
    exists ([Get url] ++ [lg] ++ new)%list.
    split; [now rewrite <- !app_assoc|]. split.
    + simpl. destruct lg; simpl in Hlg; try discriminate; simpl;
        rewrite Hnew; reflexivity.
    + rewrite !requests_made_app, requests_made_get,
        (requests_made_quiet lg Hlg), Hreq. lia.
Qed.

Lemma requests_made_paused (attempt max_retries sleep_time : Z) (tr : trace)
    (url : string) (lg : event) :
  is_net lg = false ->
  requests_made (if attempt <? max_retries
                 then (((tr ++ [Get url]) ++ [lg]) ++ [Sleep sleep_time])%list
                 else ((tr ++ [Get url]) ++ [lg])%list)
  = S (requests_made tr).
Proof.
  intros Hlg. destruct (attempt <? max_retries);
    rewrite !requests_made_app, requests_made_get,
      (requests_made_quiet lg Hlg); try rewrite requests_made_sleep; lia.
Qed.

Lemma chapter_attempts_all_fail (api_url : string) (max_retries sleep_time : Z)
    (remaining : nat) (attempt : Z) (tr : trace) :
  0 <= sleep_time ->
  attempt = max_retries - Z.of_nat remaining + 1 ->
  (forall k, (k < remaining)%nat ->
             attempt_fails E (requests_made tr + k) api_url) ->
  exists new,
    chapter_attempts E api_url max_retries sleep_time remaining attempt tr
    = (Ok None, (tr ++ new)%list) /\
    List.filter is_net new = retry_pattern api_url sleep_time remaining /\
    requests_made new = remaining.
Proof.
  intros Hs. revert attempt tr.
  induction remaining as [|k IH]; intros attempt tr Ha Hf.
  - exists []. simpl. now rewrite app_nil_r.
  - destruct (chapter_attempt_fails api_url max_retries sleep_time k attempt tr
                Hs)
      as (lg & Hlg & ->).
    { specialize (Hf O). rewrite Nat.add_0_r in Hf. apply Hf. lia. }
    destruct (IH (attempt + 1)
                (if attempt <? max_retries
                 then (((tr ++ [Get api_url]) ++ [lg])
                       ++ [Sleep sleep_time])%list
                 else ((tr ++ [Get api_url]) ++ [lg])%list))
      as (new & -> & Hnew & Hreq).
    + lia.
    + intros j Hj. rewrite requests_made_paused by exact Hlg.
      replace (S (requests_made tr) + j)%nat
        with (requests_made tr + S j)%nat by lia.
      apply Hf. lia.
    + destruct (failed_attempt_trace api_url max_retries sleep_time k attempt
                  tr new lg Ha Hlg Hnew Hreq) as (new' & Hn' & H1 & H2).
      exists new'. split; [f_equal; exact Hn' | auto].
Qed.

Lemma image_attempts_all_fail (url save_path : string)
    (max_retries sleep_time : Z) (remaining : nat) (attempt : Z) (tr : trace) :
  0 <= sleep_time ->
  attempt = max_retries - Z.of_nat remaining + 1 ->
  (forall k, (k < remaining)%nat ->
             attempt_fails E (requests_made tr + k) (image_target url)) ->
  exists new,
    image_attempts E url save_path max_retries sleep_time remaining attempt tr
    = (Ok false, (tr ++ new)%list) /\
    List.filter is_net new
    = retry_pattern (image_target url) sleep_time remaining /\
    requests_made new = remaining.
Proof.
  intros Hs. revert attempt tr.
  induction remaining as [|k IH]; intros attempt tr Ha Hf.
  - exists []. simpl. now rewrite app_nil_r.
  - destruct (image_attempt_fails url save_path max_retries sleep_time k
                attempt tr Hs) as (lg & Hlg & _ & ->).
    { specialize (Hf O). rewrite Nat.add_0_r in Hf. apply Hf. lia. }
    destruct (IH (attempt + 1)
                (if attempt <? max_retries
                 then (((tr ++ [Get (image_target url)]) ++ [lg])
                       ++ [Sleep sleep_time])%list
                 else ((tr ++ [Get (image_target url)]) ++ [lg])%list))
      as (new & -> & Hnew & Hreq).
    + lia.
    + intros j Hj. rewrite requests_made_paused by exact Hlg.
      replace (S (requests_made tr) + j)%nat
        with (requests_made tr + S j)%nat by lia.
      apply Hf. lia.
    + destruct (failed_attempt_trace (image_target url) max_retries sleep_time
                  k attempt tr new lg Ha Hlg Hnew Hreq)
        as (new' & Hn' & H1 & H2).
      exists new'. split; [f_equal; exact Hn' | auto].
Qed.

(** C5: when each of the [max_retries] attempts of [get_chapter_data] meets
    a transport error or a status other than 200, and the pause is of
    non-negative length, the call returns [None] without raising; it sends
    exactly [max_retries] requests, all to the chapter's URL, with one
    pause of [sleep_time] between two requests and none after the last; and
    with the default policy (5 attempts, pause 1) the chapter loop leaves
    the chapter list as it was for that chapter. *)
Theorem chapter_fetch_exhausts_retries (book_id volume chap : string)
    (max_retries sleep_time : Z) (tr : trace) :
  0 <= max_retries ->
  0 <= sleep_time ->
  (forall k, (k < Z.to_nat max_retries)%nat ->
             attempt_fails E (requests_made tr + k)
               (chapter_url book_id volume chap)) ->
  (exists new,
     get_chapter_data E book_id volume chap max_retries sleep_time tr
     = (Ok None, (tr ++ new)%list) /\
     List.filter is_net new
     = retry_pattern (chapter_url book_id volume chap) sleep_time
         (Z.to_nat max_retries) /\
     Z.of_nat (requests_made new) = max_retries) /\
  (max_retries = default_max_retries ->
   sleep_time = default_sleep_time ->
   forall (ch : stub) (out_path : string) (all_chapters : list chapter),
     volume = int_str E (tom ch) ->
     chap = float_str E (chapter_no ch) ->
     fst (chapter_step E book_id out_path ch all_chapters tr)
     = Ok all_chapters).
Proof.
  intros Hpos Hs Hf.
  destruct (chapter_attempts_all_fail (chapter_url book_id volume chap)
              max_retries sleep_time (Z.to_nat max_retries) 1 tr)
    as (new & Heq & Hnet & Hreq); [exact Hs | lia | exact Hf |].
  split.
  - exists new. unfold get_chapter_data. rewrite Heq.
    repeat split; auto. lia.
  - intros -> -> ch out_path all_chapters -> ->.
    unfold chapter_step, get_chapter_data. rewrite Heq. reflexivity.
Qed.
End Retry.

Lemma chapter_fetch_exhausts_retries_witness :
  (exists new,
     get_chapter_data (world server_404) "1--a" "1" "1.0" 5 1 []
     = (Ok None, new) /\
     List.filter is_net new
     = retry_pattern (chapter_url "1--a" "1" "1.0") 1 5 /\
     Z.of_nat (requests_made new) = 5) /\
  fst (chapter_step (world server_404) "1--a" "out" sample_stub [] [])
  = Ok [].
Proof.
  destruct (chapter_fetch_exhausts_retries (world server_404)
              "1--a" "1" "1.0" 5 1 []) as [H1 H2].
  - lia.
  - lia.
  - intros k Hk. unfold attempt_fails. simpl. lia.
  - split; [exact H1|].
    apply (H2 eq_refl eq_refl sample_stub "out" []); reflexivity.
Defined.

(** A pause of negative length is refused by [time.sleep]: the call raises
    after its first attempt. *)
Example chapter_fetch_negative_pause :
  get_chapter_data (world server_404) "1--a" "1" "1.0" 5 (-1) []
  = (Raise (ValueError "sleep length must be non-negative"),
     [Get (chapter_url "1--a" "1" "1.0"); LogWarning "chapter status"]).
Proof. reflexivity. Qed.

(** ** Normalisation of chapter content *)

Section Normalize.
Variable E : env.

Lemma attr_get_del_ne (k k' : string) (a : attrs) :
  k <> k' -> attr_get k (attr_del k' a) = attr_get k a.
Proof.
  intros Hne. induction a as [|[k0 v] a IH]; simpl; [reflexivity|].
  destruct (String.eqb k0 k') eqn:H1.
  - apply String.eqb_eq in H1. subst k0.
    destruct (String.eqb k' k) eqn:H2; [|exact IH].
    apply String.eqb_eq in H2. congruence.
  - simpl. now rewrite IH.
Qed.

Lemma attr_get_del_eq (k : string) (a : attrs) :
  attr_get k (attr_del k a) = None.
Proof.
  induction a as [|[k0 v] a IH]; simpl; [reflexivity|].
  destruct (String.eqb k0 k) eqn:H1; [exact IH|]. simpl. now rewrite H1.
Qed.

Lemma attr_del_absent (k : string) (a : attrs) :
  attr_get k a = None -> attr_del k a = a.
Proof.
  induction a as [|[k0 v] a IH]; simpl; [reflexivity|].
  destruct (String.eqb k0 k); [discriminate|].
  intros H. now rewrite IH.
Qed.

Lemma attr_get_set_eq (k v : string) (a : attrs) :
  attr_get k (attr_set k v a) = Some v.
Proof.
  induction a as [|[k0 v0] a IH]; simpl; [now rewrite String.eqb_refl|].
  destruct (String.eqb k0 k) eqn:H1; simpl.
  - now rewrite String.eqb_refl.
  - now rewrite H1.
Qed.

Lemma attr_get_set_ne (k k' v : string) (a : attrs) :
  k' <> k -> attr_get k' (attr_set k v a) = attr_get k' a.
Proof.
  intros Hne. induction a as [|[k0 v0] a IH]; simpl.
  - destruct (String.eqb k k') eqn:H; [|reflexivity].
    apply String.eqb_eq in H. congruence.
  - destruct (String.eqb k0 k) eqn:H1; simpl.
    + apply String.eqb_eq in H1. subst k0.
      destruct (String.eqb k k') eqn:H2; [|reflexivity].
      apply String.eqb_eq in H2. congruence.
    + now rewrite IH.
Qed.

(** Whether or not the tag has the attribute, what is left is the tag
    without it. *)
Lemma loading_stripped (tag : attrs) :
  match attr_get "loading" tag with
  | Some _ => attr_del "loading" tag
  | None => tag
  end = attr_del "loading" tag.
Proof.
  destruct (attr_get "loading" tag) eqn:H; [reflexivity|].
  now rewrite attr_del_absent.
Qed.

Lemma fix_img_tag_remote (output_folder : string) (tag : attrs) (tr : trace)
    (src_val filename : string) :
  attr_get "src" tag = Some src_val ->
  truthy src_val = true ->
  is_remote src_val = true ->
  local_filename E src_val = Ok filename ->
  exists ok,
    fst (download_image E src_val
           (path_join (path_join output_folder "imgs") filename)
           default_max_retries default_sleep_time tr) = Ok ok /\
    fix_img_tag E output_folder tag tr
    = (Ok (rewritten_tag tag filename ok),
       snd (download_image E src_val
              (path_join (path_join output_folder "imgs") filename)
              default_max_retries default_sleep_time tr)).
Proof.
  intros Hsrc Ht Hr Hname. unfold fix_img_tag. rewrite loading_stripped.
  rewrite attr_get_del_ne by discriminate. rewrite Hsrc, Ht. simpl.
  unfold is_remote in Hr. rewrite Hr, Hname.
  destruct (download_image_ok E src_val
              (path_join (path_join output_folder "imgs") filename)
              default_max_retries default_sleep_time tr
              default_sleep_nonneg) as [ok Hok].
  exists ok. split; [exact Hok|].
  destruct (download_image E src_val _ default_max_retries
              default_sleep_time tr) as [o tr1].
  simpl in Hok. subst o. now destruct ok.
Qed.

(** A reference [urlparse] rejects ends the loop before any download. *)
Lemma fix_img_tag_rejected (output_folder : string) (tag : attrs) (tr : trace)
    (src_val : string) (e : exn) :
  attr_get "src" tag = Some src_val ->
  truthy src_val = true ->
  is_remote src_val = true ->
  local_filename E src_val = Raise e ->
  fix_img_tag E output_folder tag tr = (Raise e, tr).
Proof.
  intros Hsrc Ht Hr Hname. unfold fix_img_tag. rewrite loading_stripped.
  rewrite attr_get_del_ne by discriminate. rewrite Hsrc, Ht. simpl.
  unfold is_remote in Hr. now rewrite Hr, Hname.
Qed.

Lemma fix_img_tag_local (output_folder : string) (tag : attrs) (tr : trace) :
  (forall src_val, attr_get "src" tag = Some src_val ->
                   is_remote src_val = false) ->
  fix_img_tag E output_folder tag tr = (Ok (attr_del "loading" tag), tr).
Proof.
  intros H. unfold fix_img_tag. rewrite loading_stripped.
  rewrite attr_get_del_ne by discriminate.
  destruct (attr_get "src" tag) as [src_val|] eqn:Hsrc; [|reflexivity].
  destruct (negb (truthy src_val)); [reflexivity|].
  specialize (H _ eq_refl). unfold is_remote in H. now rewrite H.
Qed.

Lemma rewritten_tag_attrs (tag : attrs) (filename src_val : string) (ok : bool) :
  attr_get "src" tag = Some src_val ->
  attr_get "loading" (rewritten_tag tag filename ok) = None /\
  attr_get "src" (rewritten_tag tag filename ok)
  = Some (if ok then "imgs/" ++ filename else src_val) /\
  (forall k, k <> "src" -> k <> "loading" ->
             attr_get k (rewritten_tag tag filename ok) = attr_get k tag).
Proof.
  intros Hsrc. unfold rewritten_tag. destruct ok; repeat split.
  - rewrite attr_get_set_ne by discriminate. apply attr_get_del_eq.
  - apply attr_get_set_eq.
  - intros k Hk Hl. rewrite attr_get_set_ne by exact Hk.
    now apply attr_get_del_ne.
  - apply attr_get_del_eq.
  - now rewrite attr_get_del_ne by discriminate.
  - intros k Hk Hl. now apply attr_get_del_ne.
Qed.

Lemma image_events_gets_to (url save_path : string) (sleep_time : Z)
    (new : list event) :
  Forall (image_event url save_path sleep_time) new ->
  gets_to (image_target url) new.
Proof.
  unfold gets_to. apply List.Forall_impl. intros e He Hg.
  destruct e; simpl in *; try discriminate. now subst.
Qed.

(** What one [download_image] call adds to the trace: requests to one
    address, at most as many as attempts allowed, a file at [save_path],
    pauses of [sleep_time] and log entries. *)
Lemma image_attempts_events (url save_path : string)
    (max_retries sleep_time : Z) (remaining : nat) (attempt : Z) (tr : trace) :
  exists new,
    snd (image_attempts E url save_path max_retries sleep_time
           remaining attempt tr) = (tr ++ new)%list /\
    Forall (image_event url save_path sleep_time) new /\
    (requests_made new <= remaining)%nat /\
    (remaining <> O -> (1 <= requests_made new)%nat).
Proof.
  revert attempt tr. induction remaining as [|k IH]; intros attempt tr.
  - exists []. simpl. rewrite app_nil_r.
    split; [reflexivity|]. split; [exact (List.Forall_nil _)|].
    split; [unfold requests_made; simpl; lia | congruence].
  - assert (Hretry : forall lg,
      is_net lg = false -> image_event url save_path sleep_time lg ->
      exists new,
        snd (match pause attempt max_retries sleep_time
                     ((tr ++ [Get (image_target url)]) ++ [lg])%list with
             | Raise e =>
                 (Raise e, ((tr ++ [Get (image_target url)]) ++ [lg])%list)
             | Ok tr3 =>
                 image_attempts E url save_path max_retries sleep_time k
                   (attempt + 1) tr3
             end)
        = (tr ++ new)%list /\
        Forall (image_event url save_path sleep_time) new /\
        (requests_made new <= S k)%nat /\
        (1 <= requests_made new)%nat).
    { intros lg Hlg Hev.
      assert (Hq : requests_made [lg] = 0%nat)
        by (destruct lg; simpl in *; try discriminate; reflexivity).
      destruct (pause attempt max_retries sleep_time
                  ((tr ++ [Get (image_target url)]) ++ [lg])%list)
        as [tr3|e] eqn:Hp.
      - assert (Hp3 : exists p, tr3 = (((tr ++ [Get (image_target url)])
                                        ++ [lg]) ++ p)%list /\
                                Forall (image_event url save_path sleep_time) p
                                /\ requests_made p = 0%nat).
        { destruct (pause_ok _ _ _ _ _ Hp) as [-> | [-> _]].
          - exists []. rewrite app_nil_r.
            split; [reflexivity|]. split; [constructor | reflexivity].
          - exists [Sleep sleep_time].
            split; [reflexivity|]. split; [|reflexivity].
            constructor; [reflexivity | constructor]. }
        destruct Hp3 as (p & -> & Hpe & Hp0).
        destruct (IH (attempt + 1)
                    (((tr ++ [Get (image_target url)]) ++ [lg]) ++ p)%list)
          as (new & Hs & Hg & Hle & _).
        exists ([Get (image_target url)] ++ [lg] ++ p ++ new)%list.
        split; [rewrite Hs; now rewrite <- !app_assoc|]. split.
        + simpl. constructor; [reflexivity|]. constructor; [exact Hev|].
          apply List.Forall_app. split; assumption.
        + rewrite !requests_made_app, requests_made_get, Hp0, Hq. lia.
      - exists ([Get (image_target url)] ++ [lg])%list.
        split; [simpl; now rewrite <- app_assoc|]. split.
        + constructor; [reflexivity|]. constructor; [exact Hev | constructor].
        + rewrite requests_made_app, requests_made_get, Hq. lia. }
    simpl.
    destruct (http_get E (requests_made tr) (image_target url)) as [r|].
    + destruct (status_code r =? 200).
      * destruct (can_write E save_path).
        -- exists ([Get (image_target url)]
                     ++ [WriteFile save_path (resp_content r)])%list.
           simpl. split; [now rewrite <- app_assoc|]. split.
           ++ constructor; [reflexivity|].
              constructor; [reflexivity | constructor].
           ++ split; [unfold requests_made; simpl; lia |].
              intros _. unfold requests_made; simpl; lia.
        -- destruct (Hretry (LogError "image write") eq_refl I)
             as (new & Hs & Hg & Hle & Hge). exists new. auto.
      * destruct (Hretry (LogWarning "image status") eq_refl I)
          as (new & Hs & Hg & Hle & Hge). exists new. auto.
    + destruct (Hretry (LogError "image request") eq_refl I)
        as (new & Hs & Hg & Hle & Hge). exists new. auto.
Qed.

Lemma download_image_events (url save_path : string) (tr : trace) :
  exists new,
    snd (download_image E url save_path default_max_retries
           default_sleep_time tr) = (tr ++ new)%list /\
    Forall (image_event url save_path default_sleep_time) new /\
    (1 <= requests_made new <= 5)%nat.
Proof.
  destruct (image_attempts_events url save_path default_max_retries
              default_sleep_time (Z.to_nat default_max_retries) 1 tr)
    as (new & Hs & He & Hle & Hge).
  exists new. split; [exact Hs|]. split; [exact He|].
  split; [apply Hge; discriminate | exact Hle].
Qed.

Lemma fix_imgs_text (output_folder : string) (soup : list piece) (tr : trace) :
  text_only soup -> fix_imgs E output_folder soup tr = (Ok soup, tr).
Proof.
  induction 1 as [|p soup Hp _ IH]; [reflexivity|].
  destruct p as [s|tag]; [|destruct Hp]. simpl. now rewrite IH.
Qed.

(** The turn of one tag in the loop: the tags before it are done, then the
    tag, then those after it. *)
Lemma fix_imgs_at (output_folder : string) (pre post pre' : list piece)
    (tag : attrs) (tr tr1 : trace) :
  fix_imgs E output_folder pre tr = (Ok pre', tr1) ->
  fix_imgs E output_folder (pre ++ Img tag :: post) tr
  = match fix_img_tag E output_folder tag tr1 with
    | (Raise e, tr2) => (Raise e, tr2)
    | (Ok tag', tr2) =>
        match fix_imgs E output_folder post tr2 with
        | (Raise e, tr') => (Raise e, tr')
        | (Ok post', tr') => (Ok (pre' ++ Img tag' :: post')%list, tr')
        end
    end.
Proof.
  revert pre' tr tr1. induction pre as [|p pre IH]; intros pre' tr tr1 H.
  - simpl in H. injection H as <- <-. simpl.
    destruct (fix_img_tag E output_folder tag tr) as [[tag'|e] tr2];
      [|reflexivity].
    now destruct (fix_imgs E output_folder post tr2) as [[post'|e] tr'].
  - destruct p as [s|t]; simpl in *.
    + destruct (fix_imgs E output_folder pre tr) as [[rest|e] tr0] eqn:Hpre;
        [|discriminate].
      injection H as <- <-. rewrite (IH rest tr tr0 Hpre).
      destruct (fix_img_tag E output_folder tag tr0) as [[tag'|e] tr2];
        [|reflexivity].
      now destruct (fix_imgs E output_folder post tr2) as [[post'|e] tr'].
    + destruct (fix_img_tag E output_folder t tr) as [[t'|e] tr0];
        [|discriminate].
      destruct (fix_imgs E output_folder pre tr0) as [[rest|e] tr0'] eqn:Hpre;
        [|discriminate].
      injection H as <- <-. rewrite (IH rest tr0 tr0' Hpre).
      destruct (fix_img_tag E output_folder tag tr0') as [[tag'|e] tr2];
        [|reflexivity].
      now destruct (fix_imgs E output_folder post tr2) as [[post'|e] tr'].
Qed.

(** C7, amended: for an [<img>] tag of the markup whose [src] is not empty,
    starts with [http] or [/uploads/] and is accepted by [urlparse],
    [fix_img_links_in_html] calls [download_image] once, at the tag's turn,
    with the original [src] and the path [imgs/NAME] under the output
    folder, NAME being the base name of the URL's path ([img_unknown.jpg]
    when it is empty); the call sends between one and five requests, all
    to one address, which is the [src] itself when it starts with
    [https://].  In the markup returned the tag has lost its [loading]
    attribute, kept its other attributes, and its [src] is [imgs/NAME]
    when that download succeeded and the original [src] when it failed.
    Where the tag is the only one of the markup, the markup returned is the
    input with that tag replaced and the trace is that of the one
    download. *)
Theorem remote_image_rewritten (html_str output_folder : string) (tr : trace)
    (pre post pre' : list piece) (tag : attrs) (src_val filename : string)
    (tr1 : trace) :
  bs_parse E html_str = (pre ++ Img tag :: post)%list ->
  fix_imgs E output_folder pre tr = (Ok pre', tr1) ->
  attr_get "src" tag = Some src_val ->
  truthy src_val = true ->
  is_remote src_val = true ->
  local_filename E src_val = Ok filename ->
  exists ok new,
    download_image E src_val
      (path_join (path_join output_folder "imgs") filename)
      default_max_retries default_sleep_time tr1
    = (Ok ok, (tr1 ++ new)%list) /\
    gets_to (image_target src_val) new /\
    (1 <= requests_made new <= 5)%nat /\
    (startswith src_val "https://" = true -> image_target src_val = src_val) /\
    attr_get "loading" (rewritten_tag tag filename ok) = None /\
    attr_get "src" (rewritten_tag tag filename ok)
    = Some (if ok then "imgs/" ++ filename else src_val) /\
    (forall k, k <> "src" -> k <> "loading" ->
               attr_get k (rewritten_tag tag filename ok) = attr_get k tag) /\
    (forall post' tr',
       fix_imgs E output_folder post (tr1 ++ new)%list = (Ok post', tr') ->
       fix_img_links_in_html E html_str output_folder tr
       = (Ok (bs_str E (pre' ++ Img (rewritten_tag tag filename ok) :: post')),
          tr')) /\
    (text_only pre -> text_only post ->
     fix_img_links_in_html E html_str output_folder tr
     = (Ok (bs_str E (pre ++ Img (rewritten_tag tag filename ok) :: post)),
        (tr ++ new)%list)).
Proof.
  intros Hparse Hpre Hsrc Ht Hr Hname.
  destruct (fix_img_tag_remote output_folder tag tr1 src_val filename
              Hsrc Ht Hr Hname) as (ok & Hok & Htag).
  destruct (download_image_events src_val
              (path_join (path_join output_folder "imgs") filename) tr1)
    as (new & Hs & Hev & Hreq).
  rewrite Hs in Htag.
  assert (Hrun : forall post' tr',
            fix_imgs E output_folder post (tr1 ++ new)%list = (Ok post', tr') ->
            fix_img_links_in_html E html_str output_folder tr
            = (Ok (bs_str E (pre' ++ Img (rewritten_tag tag filename ok)
                             :: post')), tr')).
  { intros post' tr' Hpost. unfold fix_img_links_in_html.
    now rewrite Hparse, (fix_imgs_at _ _ _ _ _ _ _ Hpre), Htag, Hpost. }
  exists ok, new.
  split.
  { rewrite <- Hok, <- Hs. apply surjective_pairing. }
  split; [now apply (image_events_gets_to _ _ _ _ Hev)|].
  split; [exact Hreq|].
  split; [intros H; unfold image_target; now rewrite H|].
  destruct (rewritten_tag_attrs tag filename src_val ok Hsrc)
    as (Hl & Hs' & Hk).
  split; [exact Hl|]. split; [exact Hs'|]. split; [exact Hk|].
  split; [exact Hrun|].
  intros Hpt Hpo. rewrite (fix_imgs_text _ _ _ Hpt) in Hpre.
  injection Hpre as <- <-.
  apply Hrun. now apply fix_imgs_text.
Qed.

(** C9: in the markup [fix_img_links_in_html] returns, a tag whose remote
    image could not be downloaded ([download_image] returned [False]) has
    its original [src] and no [loading] attribute; a tag whose [src] starts
    with neither [http] nor [/uploads/] causes no request at its turn and
    comes back with its [src] as it was and no [loading] attribute; and
    when all five attempts meet an error, [download_image] returns [False]
    after exactly five requests. *)
Theorem failed_or_local_image_kept (html_str output_folder : string)
    (tr : trace) (pre post pre' : list piece) (tag : attrs) (tr1 : trace) :
  bs_parse E html_str = (pre ++ Img tag :: post)%list ->
  fix_imgs E output_folder pre tr = (Ok pre', tr1) ->
  (forall src_val filename tr2 post' tr',
     attr_get "src" tag = Some src_val ->
     truthy src_val = true ->
     is_remote src_val = true ->
     local_filename E src_val = Ok filename ->
     download_image E src_val
       (path_join (path_join output_folder "imgs") filename)
       default_max_retries default_sleep_time tr1 = (Ok false, tr2) ->
     fix_imgs E output_folder post tr2 = (Ok post', tr') ->
     fix_img_links_in_html E html_str output_folder tr
     = (Ok (bs_str E (pre' ++ Img (attr_del "loading" tag) :: post')), tr') /\
     attr_get "src" (attr_del "loading" tag) = Some src_val /\
     attr_get "loading" (attr_del "loading" tag) = None) /\
  ((forall src_val, attr_get "src" tag = Some src_val ->
                    is_remote src_val = false) ->
   forall post' tr',
     fix_imgs E output_folder post tr1 = (Ok post', tr') ->
     fix_img_links_in_html E html_str output_folder tr
     = (Ok (bs_str E (pre' ++ Img (attr_del "loading" tag) :: post')), tr') /\
     attr_get "src" (attr_del "loading" tag) = attr_get "src" tag /\
     attr_get "loading" (attr_del "loading" tag) = None) /\
  (forall url save_path,
     (forall k, (k < 5)%nat ->
                attempt_fails E (requests_made tr + k) (image_target url)) ->
     exists new,
       download_image E url save_path default_max_retries
         default_sleep_time tr = (Ok false, (tr ++ new)%list) /\
       requests_made new = 5%nat).
Proof.
  intros Hparse Hpre. split; [|split].
  - intros src_val filename tr2 post' tr' Hsrc Ht Hr Hname Hdl Hpost.
    destruct (fix_img_tag_remote output_folder tag tr1 src_val filename
                Hsrc Ht Hr Hname) as (ok & Hok & Htag).
    rewrite Hdl in Hok, Htag. simpl in Hok, Htag. injection Hok as <-.
    split; [|split].
    + unfold fix_img_links_in_html.
      now rewrite Hparse, (fix_imgs_at _ _ _ _ _ _ _ Hpre), Htag, Hpost.
    + now rewrite attr_get_del_ne by discriminate.
    + apply attr_get_del_eq.
  - intros Hloc post' tr' Hpost. split; [|split].
    + unfold fix_img_links_in_html.
      now rewrite Hparse, (fix_imgs_at _ _ _ _ _ _ _ Hpre),
        (fix_img_tag_local _ _ _ Hloc), Hpost.
    + now rewrite attr_get_del_ne by discriminate.
    + apply attr_get_del_eq.
  - intros url save_path Hf.
    destruct (image_attempts_all_fail E url save_path default_max_retries
                default_sleep_time 5 1 tr default_sleep_nonneg eq_refl Hf)
      as (new & Heq & _ & Hreq).
    exists new. split; [exact Heq | exact Hreq].
Qed.
End Normalize.

Lemma remote_image_rewritten_witness :
  fix_img_links_in_html (world server_ok) sample_html "out" []
  = (Ok ("<img src=" ++ dq ++ "imgs/y.png" ++ dq ++ "/>"),
     [Get sample_src; WriteFile "out/imgs/y.png" []]).
Proof.
  destruct (remote_image_rewritten (world server_ok) sample_html "out" []
              [] [] [] sample_tag sample_src "y.png" []
              eq_refl eq_refl eq_refl eq_refl eq_refl eq_refl)
    as (ok & new & Hdl & _ & _ & _ & _ & _ & _ & _ & Hone).
  assert (Hnew : ok = true /\
                 new = [Get sample_src; WriteFile "out/imgs/y.png" []]).
  { vm_compute in Hdl. injection Hdl as <- <-. split; reflexivity. }
  destruct Hnew as [-> ->].
  rewrite (Hone (List.Forall_nil _) (List.Forall_nil _)). reflexivity.
Defined.

(** C7, as stated, fails: when the server answers every request with 404,
    the tag of the sample comes back with its remote [src]. *)
Lemma remote_image_not_rewritten :
  ~ markup_made_local (world server_404) sample_html "out"
      ("<img src=" ++ dq ++ "imgs/y.png" ++ dq ++ "/>").
Proof.
  unfold markup_made_local. intros H. vm_compute in H. discriminate H.
Qed.

(** With a server that answers, the sample is rewritten as stated. *)
Example sample_markup_made_local :
  markup_made_local (world server_ok) sample_html "out"
    ("<img src=" ++ dq ++ "imgs/y.png" ++ dq ++ "/>").
Proof. reflexivity. Qed.

(** A reference [urlparse] rejects stops the normalisation with its
    exception, before any request. *)
Example rejected_reference_stops_normalisation :
  fix_imgs (world server_ok) "out"
    [Img [("src", "https://[bad/x.png"); ("loading", "lazy")]] []
  = (Raise (ValueError "Invalid IPv6 URL"), []).
Proof. reflexivity. Qed.

Lemma failed_or_local_image_kept_witness :
  fst (fix_img_links_in_html (world server_404) sample_html "out" [])
  = Ok ("<img src=" ++ dq ++ sample_src ++ dq ++ "/>") /\
  fix_imgs (world server_ok) "out" [Img [("src", "imgs/y.png")]] []
  = (Ok [Img [("src", "imgs/y.png")]], []).
Proof.
  destruct (failed_or_local_image_kept (world server_404) sample_html "out" []
              [] [] [] sample_tag [] eq_refl eq_refl) as (Hfail & _ & _).
  destruct (download_image (world server_404) sample_src "out/imgs/y.png"
              default_max_retries default_sleep_time []) as [o tr2] eqn:Hdl.
  assert (Ho : o = Ok false)
    by (apply (f_equal fst) in Hdl; vm_compute in Hdl; now subst o).
  subst o.
  destruct (Hfail sample_src "y.png" tr2 [] tr2
              eq_refl eq_refl eq_refl eq_refl Hdl eq_refl) as (Hres & _ & _).
  split; [rewrite Hres; reflexivity|].
  reflexivity.
Defined.

(** The local path as [pathlib] builds it: a trailing slash of the output
    folder and an empty output folder leave no trace in it. *)
Example local_path_normalised :
  path_join (path_join "out/" "imgs") "y.png" = "out/imgs/y.png" /\
  path_join (path_join EmptyString "imgs") "y.png" = "imgs/y.png" /\
  path_join (path_join "./out//" "imgs") "y.png" = "out/imgs/y.png" /\
  path_join (path_join "/srv/out" "imgs") "y.png" = "/srv/out/imgs/y.png".
Proof. repeat split; reflexivity. Qed.

(** ** Structured content on the acquisition side *)

Section DocContent.
Variable E : env.

Lemma download_image_first_ok (url save_path : string) (tr : trace)
    (r : response) :
  http_get E (requests_made tr) (image_target url) = Responded r ->
  status_code r = 200 ->
  can_write E save_path = true ->
  download_image E url save_path default_max_retries default_sleep_time tr
  = (Ok true,
     (tr ++ [Get (image_target url); WriteFile save_path (resp_content r)])%list).
Proof.
  intros Hget Hst Hw. unfold download_image.
  change (Z.to_nat default_max_retries) with 5%nat.
  cbn [image_attempts]. unfold requests_get. rewrite Hget, Hst, Hw. simpl.
  now rewrite <- app_assoc.
Qed.



Lemma paths_written_app (a b : trace) :
  paths_written (a ++ b)%list = (paths_written a ++ paths_written b)%list.
Proof. unfold paths_written. apply List.flat_map_app. Qed.

Lemma urls_requested_app (a b : trace) :
  urls_requested (a ++ b)%list = (urls_requested a ++ urls_requested b)%list.
Proof. unfold urls_requested. apply List.flat_map_app. Qed.

(** With a server that answers and a disk that takes every file: one
    request and one file per attachment, in the order of the list. *)
Lemma download_attachments_all_ok (imgs_dir : string)
    (attachments : list attachment) (tr : trace) :
  always_ok E ->
  exists new,
    download_attachments E imgs_dir attachments tr
    = (Ok tt, (tr ++ new)%list) /\
    urls_requested new
    = map (fun att => image_target (att_url att)) attachments /\
    paths_written new
    = map (fun att => path_join imgs_dir (att_filename att)) attachments.
Proof.
  intros [Hget Hw]. revert tr.
  induction attachments as [|att rest IH]; intros tr.
  - exists []. simpl. now rewrite app_nil_r.
  - simpl.
    destruct (Hget (requests_made tr) (image_target (att_url att)))
      as (r & Hr & Hst).
    rewrite (download_image_first_ok _ _ _ r Hr Hst (Hw _)).
    destruct (IH (tr ++ [Get (image_target (att_url att));
                         WriteFile (path_join imgs_dir (att_filename att))
                           (resp_content r)])%list)
      as (new & Heq & Hu & Hp).
    exists ([Get (image_target (att_url att));
             WriteFile (path_join imgs_dir (att_filename att))
               (resp_content r)] ++ new)%list.
    rewrite Heq, app_assoc. split; [reflexivity|].
    rewrite urls_requested_app, paths_written_app, Hu, Hp.
    split; reflexivity.
Qed.

(** What the normalisation stores for content that is not markup is the
    content as it came. *)
Lemma normalize_content_kept (c c' : content) (out_path : string)
    (attachments : list attachment) (tr tr' : trace) :
  normalize_content E c out_path attachments tr = (Ok c', tr') ->
  match c with
  | CStr _ => exists html, c' = CStr html
  | fetched => c' = fetched
  end.
Proof.
  destruct c as [html|ty nodes|]; simpl.
  - destruct (fix_img_links_in_html E html out_path tr) as [[new_html|e] tr1];
      [|discriminate].
    intros H. injection H as <- _. now exists new_html.
  - destruct (String.eqb ty "doc").
    + unfold fix_img_links_in_doc.
      destruct (download_attachments E _ attachments tr) as [[u|e] tr1];
        [|discriminate].
      intros H. now injection H as <- _.
    + intros H. now injection H as <- _.
  - intros H. now injection H as <- _.
Qed.

(** A step of the chapter loop that returns has skipped the chapter or
    appended one record, which holds what was fetched. *)
Lemma chapter_step_shape (book_id out_path : string) (ch : stub)
    (all_chapters collected : list chapter) (tr tr' : trace) :
  chapter_step E book_id out_path ch all_chapters tr = (Ok collected, tr') ->
  collected = all_chapters \/
  exists c, collected = (all_chapters ++ [c])%list /\
            stored_as_fetched E book_id c.
Proof.
  unfold chapter_step.
  destruct (get_chapter_data E book_id (int_str E (tom ch))
              (float_str E (chapter_no ch))
              default_max_retries default_sleep_time tr)
    as [[[d|]|e] tr1] eqn:Hget; [| |discriminate].
  - destruct (normalize_content E (ch_content d) out_path (ch_attachments d) tr1)
      as [[c'|e] tr2] eqn:Hn; [|discriminate].
    destruct (download_attachments E _ (ch_attachments d) tr2)
      as [[u|e] tr3]; [|discriminate].
    intros H. injection H as <- _. right.
    eexists. split; [reflexivity|].
    exists ch, tr, tr1, d. split; [exact Hget|]. simpl.
    repeat (split; [reflexivity|]).
    pose proof (normalize_content_kept _ _ _ _ _ _ Hn) as Hkept.
    destruct (ch_content d); exact Hkept.
  - intros H. injection H as <- _. now left.
Qed.

Lemma chapter_step_stored (book_id out_path : string) (ch : stub)
    (all_chapters collected : list chapter) (tr tr' : trace) :
  Forall (stored_as_fetched E book_id) all_chapters ->
  chapter_step E book_id out_path ch all_chapters tr = (Ok collected, tr') ->
  Forall (stored_as_fetched E book_id) collected.
Proof.
  intros Hall Hstep.
  destruct (chapter_step_shape _ _ _ _ _ _ _ Hstep) as [-> | (c & -> & Hc)];
    [exact Hall|].
  apply List.Forall_app. split; [exact Hall|]. now constructor.
Qed.

Lemma chapters_loop_stored (book_id out_path : string) (n i : nat)
    (stubs : list stub) (all_chapters collected : list chapter)
    (tr tr' : trace) :
  Forall (stored_as_fetched E book_id) all_chapters ->
  chapters_loop E book_id out_path n i stubs all_chapters tr
  = (Ok collected, tr') ->
  Forall (stored_as_fetched E book_id) collected.
Proof.
  revert i all_chapters tr.
  induction stubs as [|ch rest IH]; intros i all_chapters tr Hall; simpl.
  - intros H. now injection H as <- _.
  - destruct (chapter_step E book_id out_path ch all_chapters
                (tqdm_next E i n tr)) as [[next|e] tr1] eqn:Hstep;
      [|discriminate].
    apply IH. exact (chapter_step_stored _ _ _ _ _ _ _ Hall Hstep).
Qed.

(** A run of [get_ranobe_content] that returns has written the record last
    and returns its path; the chapters of the record are the chapters
    fetched. *)
Lemma get_ranobe_content_record (book_url output_dir p : string)
    (tr tr' : trace) :
  get_ranobe_content E book_url output_dir tr = (Ok p, tr') ->
  p = path_join output_dir "ranobe.json" /\
  exists d before,
    tr' = (before ++ [WriteRecord p d; LogInfo "ranobe.json saved";
                      Progress 1])%list /\
    extract_book_id E book_url = Some (r_id d) /\
    Forall (stored_as_fetched E (r_id d)) (r_chapters d).
Proof.
  unfold get_ranobe_content.
  destruct (extract_book_id E book_url) as [book_id|]; [|discriminate].
  destruct (negb (truthy book_id)); [discriminate|].
  destruct (get_book_info E book_id _) as [[[info|]|e] tr1];
    try discriminate.
  destruct (fetch_cover E book_id _ _) as [[cover|e] tr2]; try discriminate.
  destruct (get_chapters_list E book_id _) as [[chapters_list|e] tr3];
    try discriminate.
  destruct (chapters_loop E book_id output_dir _ _ _ _ _)
    as [[all_chapters|e] tr4] eqn:Hloop; [|discriminate].
  destruct (can_write E (path_join output_dir "ranobe.json"));
    [|discriminate].
  intros H. injection H as <- <-. split; [reflexivity|].
  eexists. exists (tr4 ++ [Progress (95 # 100)])%list. split.
  - unfold progress.
    rewrite <- (app_assoc (tr4 ++ [Progress (95 # 100)])%list).
    reflexivity.
  - split; [reflexivity|]. simpl.
    exact (chapters_loop_stored _ _ _ _ _ _ _ _ _ (List.Forall_nil _) Hloop).
Qed.

End DocContent.

Lemma server_ok_always_ok : always_ok (world server_ok).
Proof.
  split.
  - intros n url. now exists {| status_code := 200; resp_content := [] |}.
  - reflexivity.
Qed.



(** The record written by the sample run holds the sample chapter with its
    node tree. *)
Example doc_content_sample :
  option_map r_chapters
    (read_record "out/ranobe.json"
       (snd (get_ranobe_content (world server_ok)
               "https://ranobelib.me/ru/book/1--a" "out" [])))
  = Some [sample_chapter].
Proof. vm_compute. reflexivity. Qed.

(** ** Progress over a whole run *)

Section Pipeline.
Variable E : env.

Lemma quiet_snd_fractions {A : Type} (tr : trace) (r : A * trace) :
  quiet_step tr (snd r) -> fractions (snd r) = fractions tr.
Proof. apply quiet_fractions. Qed.

Lemma fractions_snoc (tr : trace) (q : Q) :
  fractions (progress q tr) = (fractions tr ++ [q])%list.
Proof. unfold progress. now rewrite fractions_app. Qed.

Lemma fractions_snoc_quiet (tr : trace) (e : event) :
  (forall q, e <> Progress q) -> fractions (tr ++ [e])%list = fractions tr.
Proof.
  intros H. rewrite fractions_app.
  destruct e; simpl; try apply app_nil_r. now destruct (H fraction).
Qed.

(** The fractions [get_ranobe_content] reports: always 0 and 0.05 first;
    on success 0.1 and 0.15, what [progress.tqdm] reports over the list of
    chapters, then 0.95 and 1. *)
Lemma get_ranobe_content_fractions (book_url output_dir : string) (tr : trace) :
  exists rest,
    fractions (snd (get_ranobe_content E book_url output_dir tr))
    = (fractions tr ++ 0%Q :: (5 # 100)%Q :: rest)%list /\
    (forall p, fst (get_ranobe_content E book_url output_dir tr) = Ok p ->
       exists n,
         rest = ((1 # 10)%Q :: (15 # 100)%Q :: tqdm_from E n 0 n
                 ++ [(95 # 100)%Q; 1%Q])%list).
Proof.
  unfold get_ranobe_content.
  set (tr0 := progress (5 # 100) (progress 0 tr)).
  assert (F0 : fractions tr0 = (fractions tr ++ [0%Q; (5 # 100)%Q])%list).
  { unfold tr0. rewrite !fractions_snoc. now rewrite <- app_assoc. }
  assert (Stop : forall (r : res string) (t : trace) (extra : list Q),
            fractions t = (fractions tr0 ++ extra)%list ->
            (forall p, r <> Ok p) ->
            exists rest,
              fractions (snd (r, t))
              = (fractions tr ++ 0%Q :: (5 # 100)%Q :: rest)%list /\
              (forall p, fst (r, t) = Ok p ->
                 exists n,
                   rest = ((1 # 10)%Q :: (15 # 100)%Q :: tqdm_from E n 0 n
                           ++ [(95 # 100)%Q; 1%Q])%list)).
  { intros r t extra Ht Hr. exists extra. split.
    - simpl. rewrite Ht, F0. now rewrite <- app_assoc.
    - intros p Hp. simpl in Hp. now destruct (Hr p). }
  destruct (extract_book_id E book_url) as [book_id|];
    [|apply (Stop _ _ []); [now rewrite app_nil_r | discriminate]].
  destruct (negb (truthy book_id));
    [apply (Stop _ _ []); [now rewrite app_nil_r | discriminate]|].
  destruct (get_book_info E book_id tr0) as [info tr1] eqn:H1.
  assert (F1 : fractions tr1 = fractions tr0).
  { pose proof (get_book_info_quiet E book_id tr0) as Hq.
    rewrite H1 in Hq. now apply quiet_fractions. }
  destruct info as [[info|]|e];
    [| apply (Stop _ _ []); [now rewrite app_nil_r | discriminate]
     | apply (Stop _ _ []); [now rewrite app_nil_r | discriminate]].
  destruct (fetch_cover E book_id (path_join output_dir "imgs")
              (progress (1 # 10) tr1)) as [cover tr2] eqn:H2.
  assert (F2 : fractions tr2 = (fractions tr0 ++ [(1 # 10)%Q])%list).
  { pose proof (fetch_cover_quiet E book_id (path_join output_dir "imgs")
                  (progress (1 # 10) tr1)) as Hq.
    rewrite H2 in Hq. apply quiet_fractions in Hq. simpl in Hq.
    now rewrite Hq, fractions_snoc, F1. }
  destruct cover as [cover|e];
    [| apply (Stop _ _ [(1 # 10)%Q]); [exact F2 | discriminate]].
  destruct (get_chapters_list E book_id (progress (15 # 100) tr2))
    as [chapters_list tr3] eqn:H3.
  assert (F3 : fractions tr3
               = (fractions tr0 ++ [(1 # 10)%Q; (15 # 100)%Q])%list).
  { pose proof (get_chapters_list_quiet E book_id (progress (15 # 100) tr2))
      as Hq.
    rewrite H3 in Hq. apply quiet_fractions in Hq. simpl in Hq.
    rewrite Hq, fractions_snoc, F2. now rewrite <- app_assoc. }
  destruct chapters_list as [chapters_list|e];
    [| apply (Stop _ _ [(1 # 10)%Q; (15 # 100)%Q]); [exact F3 | discriminate]].
  destruct (chapters_loop E book_id output_dir (length chapters_list) 0
              chapters_list [] (tr3 ++ [LogInfo "chapters found"])%list)
    as [all_chapters tr4] eqn:H4.
  destruct (chapters_loop_fractions E book_id output_dir
              (length chapters_list) 0 chapters_list []
              (tr3 ++ [LogInfo "chapters found"])%list)
    as (reported & unreported & Hf & Ht & Hdone).
  rewrite H4 in Hf, Hdone. simpl in Hf, Hdone.
  rewrite fractions_snoc_quiet in Hf by discriminate.
  assert (F4' : fractions tr4
                = (fractions tr0 ++ (1 # 10)%Q :: (15 # 100)%Q :: reported)%list).
  { rewrite Hf, F3. now rewrite <- app_assoc. }
  destruct all_chapters as [all_chapters|e];
    [| apply (Stop _ _ ((1 # 10)%Q :: (15 # 100)%Q :: reported)%list);
       [exact F4' | discriminate]].
  assert (F4 : fractions tr4
               = (fractions tr0 ++ (1 # 10)%Q :: (15 # 100)%Q ::
                  tqdm_from E (length chapters_list) 0 (length chapters_list))%list).
  { rewrite F4', Ht, (Hdone all_chapters eq_refl). now rewrite app_nil_r. }
  destruct (can_write E (path_join output_dir "ranobe.json")).
  - exists ((1 # 10)%Q :: (15 # 100)%Q ::
            tqdm_from E (length chapters_list) 0 (length chapters_list)
            ++ [(95 # 100)%Q; 1%Q])%list.
    split.
    + simpl. rewrite fractions_snoc, fractions_app, fractions_snoc, F4, F0.
      simpl. rewrite app_nil_r. repeat rewrite <- app_assoc. simpl.
      reflexivity.
    + intros p _. now exists (length chapters_list).
  - apply (Stop _ _ ((1 # 10)%Q :: (15 # 100)%Q ::
                     tqdm_from E (length chapters_list) 0 (length chapters_list)
                     ++ [(95 # 100)%Q])%list); [|discriminate].
    rewrite fractions_snoc, F4. rewrite <- !app_assoc. reflexivity.
Qed.

Lemma back_to_zero (rest : list Q) :
  ~ fractions_nondecreasing (0%Q :: (1 # 10)%Q :: 0%Q :: rest).
Proof.
  simpl. intros (_ & H & _). unfold Qle in H. simpl in H. lia.
Qed.

(** C2 fails on every run: [run_pipeline] reports 0 and 0.1, then
    [get_ranobe_content], given the same callback, starts again from 0. *)
Theorem pipeline_progress_goes_back (create_epub : ranobe -> res string)
    (book_url output_dir : string) :
  exists rest,
    fractions (snd (run_pipeline E create_epub book_url output_dir []))
    = (0%Q :: (1 # 10)%Q :: 0%Q :: (5 # 100)%Q :: rest) /\
    ~ fractions_nondecreasing
        (fractions (snd (run_pipeline E create_epub book_url output_dir []))).
Proof.
  assert (H : exists rest,
            fractions (snd (run_pipeline E create_epub book_url output_dir []))
            = (0%Q :: (1 # 10)%Q :: 0%Q :: (5 # 100)%Q :: rest)).
  { unfold run_pipeline.
    destruct (get_ranobe_content_fractions book_url output_dir
                (progress (1 # 10) (progress 0 []))) as (rest & Hf & _).
    destruct (get_ranobe_content E book_url output_dir
                (progress (1 # 10) (progress 0 []))) as [r tr1].
    simpl in Hf.
    destruct r as [p|e]; [|exists rest; exact Hf].
    destruct (read_record p (progress (8 # 10) tr1)).
    - destruct (create_epub r).
      + exists (rest ++ [(8 # 10)%Q; 1%Q])%list. simpl.
        rewrite !fractions_snoc, Hf. simpl. now rewrite <- app_assoc.
      + exists (rest ++ [(8 # 10)%Q])%list. simpl.
        rewrite !fractions_snoc, Hf. reflexivity.
    - exists (rest ++ [(8 # 10)%Q])%list. simpl.
      rewrite !fractions_snoc, Hf. reflexivity. }
  destruct H as (rest & H). exists rest. split; [exact H|].
  rewrite H. apply back_to_zero.
Qed.
End Pipeline.

(** The fractions of a whole successful run for a book of one chapter. *)
Example pipeline_fractions_sample :
  fractions (snd (run_pipeline (world server_ok) (fun _ => Ok "book.epub")
                    "https://ranobelib.me/ru/book/1--a" "out" []))
  = [0; 1 # 10; 0; 5 # 100; 1 # 10; 15 # 100; 0 / 1; 1 / 1; 95 # 100; 1;
     8 # 10; 1]%Q.
Proof. reflexivity. Qed.

(** ** Retries that end in success *)

Section RetrySuccess.
Variable E : env.

Lemma before_last (attempt max_retries : Z) {A : Type} (a b : A) :
  attempt < max_retries -> (if attempt <? max_retries then a else b) = a.
Proof. intros H. apply Z.ltb_lt in H. now rewrite H. Qed.

Lemma retry_pattern_next (url : string) (sleep_time : Z) (k : nat) :
  retry_pattern url sleep_time (S (S k))
  = Get url :: Sleep sleep_time :: retry_pattern url sleep_time (S k).
Proof. reflexivity. Qed.

Lemma failed_then (url : string) (sleep_time : Z) (lg : event) (new : trace)
    (k : nat) :
  is_net lg = false ->
  List.filter is_net new = retry_pattern url sleep_time (S k) ->
  List.filter is_net ([Get url] ++ [lg] ++ [Sleep sleep_time] ++ new)%list
  = retry_pattern url sleep_time (S (S k)).
Proof.
  intros Hlg Hnew. rewrite retry_pattern_next, <- Hnew.
  destruct lg; simpl in Hlg; try discriminate; reflexivity.
Qed.

Lemma chapter_attempts_success_after (api_url : string)
    (max_retries sleep_time : Z) (k remaining : nat) (attempt : Z) (tr : trace)
    (r : response) (data : option chapter) :
  0 <= sleep_time ->
  attempt = max_retries - Z.of_nat remaining + 1 ->
  (k < remaining)%nat ->
  (forall j, (j < k)%nat -> attempt_fails E (requests_made tr + j) api_url) ->
  http_get E (requests_made tr + k) api_url = Responded r ->
  status_code r = 200 ->
  json_chapter E (resp_content r) = Ok data ->
  exists new,
    chapter_attempts E api_url max_retries sleep_time remaining attempt tr
    = (Ok data, (tr ++ new)%list) /\
    List.filter is_net new = retry_pattern api_url sleep_time (S k) /\
    requests_made new = S k.
Proof.
  intros Hs. revert remaining attempt tr.
  induction k as [|k IH]; intros remaining attempt tr Ha Hk Hf Hget Hst Hjs;
    destruct remaining as [|rem]; try lia.
  - rewrite Nat.add_0_r in Hget. simpl. rewrite Hget, Hst. simpl.
    rewrite Hjs. exists [Get api_url]. repeat split.
  - destruct (chapter_attempt_fails E api_url max_retries sleep_time rem
                attempt tr Hs) as (lg & Hlg & ->).
    { specialize (Hf O). rewrite Nat.add_0_r in Hf. apply Hf. lia. }
    rewrite before_last by lia.
    destruct (IH rem (attempt + 1)
                (((tr ++ [Get api_url]) ++ [lg]) ++ [Sleep sleep_time])%list)
      as (new & -> & Hnew & Hreq).
    + lia.
    + lia.
    + intros j Hj.
      rewrite !requests_made_app, requests_made_get, requests_made_sleep,
        (requests_made_quiet lg Hlg).
      replace (requests_made tr + 1 + 0 + 0 + j)%nat
        with (requests_made tr + S j)%nat by lia.
      apply Hf. lia.
    + rewrite !requests_made_app, requests_made_get, requests_made_sleep,
        (requests_made_quiet lg Hlg).
      replace (requests_made tr + 1 + 0 + 0 + k)%nat
        with (requests_made tr + S k)%nat by lia.
      exact Hget.
    + exact Hst.
    + exact Hjs.
    + exists ([Get api_url] ++ [lg] ++ [Sleep sleep_time] ++ new)%list.
      split; [now rewrite <- !app_assoc|]. split.
      * now apply failed_then.
      * rewrite !requests_made_app, requests_made_get, requests_made_sleep,
          (requests_made_quiet lg Hlg), Hreq. lia.
Qed.

(** When the first [k] attempts of [get_chapter_data] fail and the next one,
    still within [max_retries], is answered with status 200 and a body that
    parses, the call, with a pause of non-negative length, returns the
    parsed data after exactly [k + 1] requests with a pause of [sleep_time]
    between two of them, and none after the last. *)
Theorem chapter_fetch_succeeds_after_failures (book_id volume chap : string)
    (max_retries sleep_time : Z) (tr : trace) (k : nat) (r : response)
    (data : option chapter) :
  0 <= sleep_time ->
  (k < Z.to_nat max_retries)%nat ->
  (forall j, (j < k)%nat ->
             attempt_fails E (requests_made tr + j)
               (chapter_url book_id volume chap)) ->
  http_get E (requests_made tr + k) (chapter_url book_id volume chap)
  = Responded r ->
  status_code r = 200 ->
  json_chapter E (resp_content r) = Ok data ->
  exists new,
    get_chapter_data E book_id volume chap max_retries sleep_time tr
    = (Ok data, (tr ++ new)%list) /\
    List.filter is_net new
    = retry_pattern (chapter_url book_id volume chap) sleep_time (S k) /\
    requests_made new = S k.
Proof.
  intros Hs Hk Hf Hget Hst Hjs. unfold get_chapter_data.
  apply (chapter_attempts_success_after _ _ _ k _ _ _ r); auto. lia.
Qed.

Lemma files_written_app (a b : trace) :
  files_written (a ++ b)%list = (files_written a ++ files_written b)%list.
Proof. unfold files_written. apply List.filter_app. Qed.

Lemma image_attempts_success_after (url save_path : string)
    (max_retries sleep_time : Z) (k remaining : nat) (attempt : Z) (tr : trace)
    (r : response) :
  0 <= sleep_time ->
  attempt = max_retries - Z.of_nat remaining + 1 ->
  (k < remaining)%nat ->
  (forall j, (j < k)%nat ->
             attempt_fails E (requests_made tr + j) (image_target url)) ->
  http_get E (requests_made tr + k) (image_target url) = Responded r ->
  status_code r = 200 ->
  can_write E save_path = true ->
  exists new,
    image_attempts E url save_path max_retries sleep_time remaining attempt tr
    = (Ok true, (tr ++ new)%list) /\
    List.filter is_net new
    = retry_pattern (image_target url) sleep_time (S k) /\
    requests_made new = S k /\
    files_written new = [WriteFile save_path (resp_content r)].
Proof.
  intros Hs. revert remaining attempt tr.
  induction k as [|k IH]; intros remaining attempt tr Ha Hk Hf Hget Hst Hw;
    destruct remaining as [|rem]; try lia.
  - rewrite Nat.add_0_r in Hget. simpl. rewrite Hget, Hst. simpl.
    rewrite Hw.
    exists [Get (image_target url); WriteFile save_path (resp_content r)].
    split; [now rewrite <- app_assoc|]. repeat split.
  - destruct (image_attempt_fails E url save_path max_retries sleep_time rem
                attempt tr Hs) as (lg & Hlg & Hlw & ->).
    { specialize (Hf O). rewrite Nat.add_0_r in Hf. apply Hf. lia. }
    rewrite before_last by lia.
    destruct (IH rem (attempt + 1)
                (((tr ++ [Get (image_target url)]) ++ [lg])
                 ++ [Sleep sleep_time])%list)
      as (new & -> & Hnew & Hreq & Hfw).
    + lia.
    + lia.
    + intros j Hj.
      rewrite !requests_made_app, requests_made_get, requests_made_sleep,
        (requests_made_quiet lg Hlg).
      replace (requests_made tr + 1 + 0 + 0 + j)%nat
        with (requests_made tr + S j)%nat by lia.
      apply Hf. lia.
    + rewrite !requests_made_app, requests_made_get, requests_made_sleep,
        (requests_made_quiet lg Hlg).
      replace (requests_made tr + 1 + 0 + 0 + k)%nat
        with (requests_made tr + S k)%nat by lia.
      exact Hget.
    + exact Hst.
    + exact Hw.
    + exists ([Get (image_target url)] ++ [lg] ++ [Sleep sleep_time] ++ new)%list.
      split; [now rewrite <- !app_assoc|]. split; [now apply failed_then|].
      split.
      * rewrite !requests_made_app, requests_made_get, requests_made_sleep,
          (requests_made_quiet lg Hlg), Hreq. lia.
      * rewrite !files_written_app, Hfw.
        unfold files_written at 2. simpl. rewrite Hlw. reflexivity.
Qed.

(** When the first [k] attempts of [download_image] fail and the next one,
    still within [max_retries], is answered with status 200 and the file can
    be written, the call, with a pause of non-negative length, returns
    [True] after exactly [k + 1] requests to one address, with a pause of
    [sleep_time] between two of them, and writes the answer's body to
    [save_path], and nothing else. *)
Theorem download_image_succeeds_after_failures (url save_path : string)
    (max_retries sleep_time : Z) (tr : trace) (k : nat) (r : response) :
  0 <= sleep_time ->
  (k < Z.to_nat max_retries)%nat ->
  (forall j, (j < k)%nat ->
             attempt_fails E (requests_made tr + j) (image_target url)) ->
  http_get E (requests_made tr + k) (image_target url) = Responded r ->
  status_code r = 200 ->
  can_write E save_path = true ->
  exists new,
    download_image E url save_path max_retries sleep_time tr
    = (Ok true, (tr ++ new)%list) /\
    List.filter is_net new
    = retry_pattern (image_target url) sleep_time (S k) /\
    requests_made new = S k /\
    files_written new = [WriteFile save_path (resp_content r)].
Proof.
  intros Hs Hk Hf Hget Hst Hw. unfold download_image.
  apply (image_attempts_success_after _ _ _ _ k); auto. lia.
Qed.

Lemma paths_written_quiet (e : event) :
  is_write e = false -> paths_written [e] = [].
Proof. destruct e; simpl; try discriminate; reflexivity. Qed.

Lemma image_attempts_writes (url save_path : string)
    (max_retries sleep_time : Z) (remaining : nat) (attempt : Z) (tr : trace) :
  exists new,
    snd (image_attempts E url save_path max_retries sleep_time
           remaining attempt tr) = (tr ++ new)%list /\
    paths_written new
    = match fst (image_attempts E url save_path max_retries sleep_time
                   remaining attempt tr) with
      | Ok true => [save_path]
      | _ => []
      end.
Proof.
  revert attempt tr. induction remaining as [|k IH]; intros attempt tr.
  - exists []. simpl. now rewrite app_nil_r.
  - assert (Hretry : forall lg,
      is_write lg = false ->
      exists new,
        snd (match pause attempt max_retries sleep_time
                     ((tr ++ [Get (image_target url)]) ++ [lg])%list with
             | Raise e =>
                 (Raise e, ((tr ++ [Get (image_target url)]) ++ [lg])%list)
             | Ok tr3 =>
                 image_attempts E url save_path max_retries sleep_time k
                   (attempt + 1) tr3
             end)
        = (tr ++ new)%list /\
        paths_written new
        = match fst (match pause attempt max_retries sleep_time
                             ((tr ++ [Get (image_target url)]) ++ [lg])%list
                     with
                     | Raise e =>
                         (Raise e,
                          ((tr ++ [Get (image_target url)]) ++ [lg])%list)
                     | Ok tr3 =>
                         image_attempts E url save_path max_retries sleep_time
                           k (attempt + 1) tr3
                     end) with
          | Ok true => [save_path]
          | _ => []
          end).
    { intros lg Hlg.
      destruct (pause attempt max_retries sleep_time
                  ((tr ++ [Get (image_target url)]) ++ [lg])%list)
        as [tr3|e] eqn:Hp.
      - assert (Hp3 : exists p, tr3 = (((tr ++ [Get (image_target url)])
                                        ++ [lg]) ++ p)%list /\
                                paths_written p = []).
        { destruct (pause_ok _ _ _ _ _ Hp) as [-> | [-> _]].
          - exists []. now rewrite app_nil_r.
          - now exists [Sleep sleep_time]. }
        destruct Hp3 as (p & -> & Hpw).
        destruct (IH (attempt + 1)
                    (((tr ++ [Get (image_target url)]) ++ [lg]) ++ p)%list)
          as (new & Hs & Hw).
        exists ([Get (image_target url)] ++ [lg] ++ p ++ new)%list.
        split; [rewrite Hs; now rewrite <- !app_assoc|].
        rewrite <- Hw, !paths_written_app, Hpw,
          (paths_written_quiet lg Hlg). reflexivity.
      - exists ([Get (image_target url)] ++ [lg])%list.
        split; [simpl; now rewrite <- app_assoc|].
        rewrite paths_written_app, (paths_written_quiet lg Hlg).
        reflexivity. }
    simpl.
    destruct (http_get E (requests_made tr) (image_target url)) as [r|].
    + destruct (status_code r =? 200).
      * destruct (can_write E save_path).
        -- exists ([Get (image_target url)]
                     ++ [WriteFile save_path (resp_content r)])%list.
           simpl. split; [now rewrite <- app_assoc | reflexivity].
        -- exact (Hretry (LogError "image write") eq_refl).
      * exact (Hretry (LogWarning "image status") eq_refl).
    + exact (Hretry (LogError "image request") eq_refl).
Qed.


(** When every attempt of [download_image] meets a transport error or a
    status other than 200, and the pause is of non-negative length, the
    call returns [False] after exactly [max_retries] requests with a pause
    of [sleep_time] between two of them, and writes no file. *)
Theorem download_image_exhausts_retries (url save_path : string)
    (max_retries sleep_time : Z) (tr : trace) :
  0 <= max_retries ->
  0 <= sleep_time ->
  (forall k, (k < Z.to_nat max_retries)%nat ->
             attempt_fails E (requests_made tr + k) (image_target url)) ->
  exists new,
    download_image E url save_path max_retries sleep_time tr
    = (Ok false, (tr ++ new)%list) /\
    List.filter is_net new
    = retry_pattern (image_target url) sleep_time (Z.to_nat max_retries) /\
    Z.of_nat (requests_made new) = max_retries /\
    paths_written new = [].
Proof.
  intros Hm Hs Hf. unfold download_image.
  destruct (image_attempts_all_fail E url save_path max_retries sleep_time
              (Z.to_nat max_retries) 1 tr) as (new & Heq & Hnet & Hreq);
    [exact Hs | lia | exact Hf |].
  exists new. split; [exact Heq|]. split; [exact Hnet|]. split; [lia|].
  destruct (image_attempts_writes url save_path max_retries sleep_time
              (Z.to_nat max_retries) 1 tr) as (new0 & Hs0 & Hw0).
  rewrite Heq in Hs0, Hw0. simpl in Hs0, Hw0.
  apply app_inv_head in Hs0. now subst new0.
Qed.

(** With [max_retries] zero or negative neither function sends a request:
    [get_chapter_data] returns [None] and [download_image] returns [False]
    at once. *)
Theorem no_attempt_without_retries (book_id volume chap url save_path : string)
    (max_retries sleep_time : Z) (tr : trace) :
  max_retries <= 0 ->
  get_chapter_data E book_id volume chap max_retries sleep_time tr
  = (Ok None, tr)
  /\ download_image E url save_path max_retries sleep_time tr = (Ok false, tr).
Proof.
  intros H. unfold get_chapter_data, download_image.
  replace (Z.to_nat max_retries) with O by lia. split; reflexivity.
Qed.
End RetrySuccess.

Lemma chapter_fetch_succeeds_after_failures_witness :
  exists new,
    get_chapter_data (world server_flaky) "1--a" "1" "1.0" 5 1 []
    = (Ok (Some sample_chapter), new) /\
    List.filter is_net new
    = [Get (chapter_url "1--a" "1" "1.0"); Sleep 1;
       Get (chapter_url "1--a" "1" "1.0")] /\
    requests_made new = 2%nat.
Proof.
  destruct (chapter_fetch_succeeds_after_failures (world server_flaky)
              "1--a" "1" "1.0" 5 1 [] 1
              {| status_code := 200; resp_content := [] |}
              (Some sample_chapter)) as (new & H1 & H2 & H3).
  - lia.
  - simpl. lia.
  - intros j Hj. assert (j = O) by lia. subst j. simpl. discriminate.
  - reflexivity.
  - reflexivity.
  - reflexivity.
  - exists new. auto.
Defined.

Lemma download_image_succeeds_after_failures_witness :
  exists new,
    download_image (world server_flaky) "/uploads/pic.jpg" "out/imgs/pic.jpg"
      5 1 [] = (Ok true, new) /\
    requests_made new = 2%nat /\
    files_written new = [WriteFile "out/imgs/pic.jpg" []].
Proof.
  destruct (download_image_succeeds_after_failures (world server_flaky)
              "/uploads/pic.jpg" "out/imgs/pic.jpg" 5 1 [] 1
              {| status_code := 200; resp_content := [] |})
    as (new & H1 & _ & H3 & H4).
  - lia.
  - simpl. lia.
  - intros j Hj. assert (j = O) by lia. subst j. simpl. discriminate.
  - reflexivity.
  - reflexivity.
  - reflexivity.
  - exists new. auto.
Defined.

Lemma download_image_exhausts_retries_witness :
  exists new,
    download_image (world server_down) "/uploads/pic.jpg" "out/imgs/pic.jpg"
      3 2 [] = (Ok false, new) /\
    List.filter is_net new
    = [Get "https://ranobelib.me/uploads/pic.jpg"; Sleep 2;
       Get "https://ranobelib.me/uploads/pic.jpg"; Sleep 2;
       Get "https://ranobelib.me/uploads/pic.jpg"].
Proof.
  destruct (download_image_exhausts_retries (world server_down)
              "/uploads/pic.jpg" "out/imgs/pic.jpg" 3 2 [])
    as (new & H1 & H2 & _).
  - lia.
  - lia.
  - intros k _. exact I.
  - exists new. split; [exact H1 | exact H2].
Defined.

Lemma no_attempt_without_retries_witness :
  get_chapter_data (world server_ok) "1--a" "1" "1" 0 1 [] = (Ok None, []) /\
  download_image (world server_ok) "/uploads/pic.jpg" "out/imgs/pic.jpg" 0 1 []
  = (Ok false, []).
Proof.
  apply (no_attempt_without_retries (world server_ok)). lia.
Defined.

(** ** What the rewriting of markup leaves alone *)

Section HtmlFrame.
Variable E : env.

Lemma local_filename_raise (src_val : string) (e : exn) :
  local_filename E src_val = Raise e -> url_path E src_val = Raise e.
Proof.
  unfold local_filename. destruct (url_path E src_val); [discriminate|].
  intros H. now injection H as <-.
Qed.

(** The three ways the loop body ends: the tag only loses [loading]; the
    reference is rejected by [urlparse]; or [download_image] was called. *)
Lemma fix_img_tag_cases (output_folder : string) (tag : attrs) (tr : trace) :
  fix_img_tag E output_folder tag tr = (Ok (attr_del "loading" tag), tr) \/
  exists src_val,
    attr_get "src" tag = Some src_val /\ is_remote src_val = true /\
    ((exists e, url_path E src_val = Raise e /\
                fix_img_tag E output_folder tag tr = (Raise e, tr)) \/
     (exists filename ok,
        fix_img_tag E output_folder tag tr
        = (Ok (rewritten_tag tag filename ok),
           snd (download_image E src_val
                  (path_join (path_join output_folder "imgs") filename)
                  default_max_retries default_sleep_time tr)))).
Proof.
  destruct (attr_get "src" tag) as [src_val|] eqn:Hsrc.
  - destruct (truthy src_val) eqn:Ht.
    + destruct (is_remote src_val) eqn:Hr.
      * right. exists src_val. split; [reflexivity|]. split; [exact Hr|].
        destruct (local_filename E src_val) as [filename|e] eqn:Hname.
        -- right.
           destruct (fix_img_tag_remote E output_folder tag tr src_val
                       filename Hsrc Ht Hr Hname) as (ok & _ & Heq).
           now exists filename, ok.
        -- left. exists e. split; [now apply local_filename_raise|].
           now apply (fix_img_tag_rejected E output_folder tag tr src_val).
      * left. apply fix_img_tag_local. intros s Hs.
        rewrite Hsrc in Hs. now injection Hs as <-.
    + left. unfold fix_img_tag. rewrite loading_stripped.
      rewrite attr_get_del_ne by discriminate. now rewrite Hsrc, Ht.
  - left. apply fix_img_tag_local. intros s Hs. rewrite Hsrc in Hs.
    discriminate.
Qed.

Lemma rewritten_tag_frame (tag : attrs) (filename : string) (ok : bool) :
  attr_get "loading" (rewritten_tag tag filename ok) = None /\
  forall k, k <> "src" -> k <> "loading" ->
            attr_get k (rewritten_tag tag filename ok) = attr_get k tag.
Proof.
  unfold rewritten_tag. destruct ok; split.
  - rewrite attr_get_set_ne by discriminate. apply attr_get_del_eq.
  - intros k Hk Hl. rewrite attr_get_set_ne by exact Hk.
    now apply attr_get_del_ne.
  - apply attr_get_del_eq.
  - intros k Hk Hl. now apply attr_get_del_ne.
Qed.

(** The tag handed back has no [loading] attribute and the other
    attributes of the tag handed in, [src] apart. *)
Lemma fix_img_tag_frame (output_folder : string) (tag tag' : attrs)
    (tr tr' : trace) :
  fix_img_tag E output_folder tag tr = (Ok tag', tr') ->
  same_but_src_loading (Img tag) (Img tag') /\ no_loading (Img tag').
Proof.
  intros H.
  destruct (fix_img_tag_cases output_folder tag tr)
    as [Heq | (src_val & _ & _ & [(e & _ & Heq) | (filename & ok & Heq)])];
    rewrite Heq in H; [| discriminate |]; injection H as <- _; simpl.
  - split; [|apply attr_get_del_eq].
    intros k Hk Hl. now apply attr_get_del_ne.
  - destruct (rewritten_tag_frame tag filename ok) as [Hl Hk]. now split.
Qed.

Lemma fix_img_tag_raise (output_folder : string) (tag : attrs)
    (tr tr' : trace) (e : exn) :
  fix_img_tag E output_folder tag tr = (Raise e, tr') ->
  exists src_val, attr_get "src" tag = Some src_val /\
                  is_remote src_val = true /\ url_path E src_val = Raise e.
Proof.
  intros H.
  destruct (fix_img_tag_cases output_folder tag tr)
    as [Heq | (src_val & Hsrc & Hr &
               [(e' & He & Heq) | (filename & ok & Heq)])];
    rewrite Heq in H; try discriminate.
  injection H as <- _. now exists src_val.
Qed.

Lemma fix_img_tag_requests (output_folder : string) (tag : attrs)
    (tr : trace) :
  (requests_made (snd (fix_img_tag E output_folder tag tr))
   <= requests_made tr + 5)%nat.
Proof.
  destruct (fix_img_tag_cases output_folder tag tr)
    as [-> | (src_val & _ & _ & [(e & _ & ->) | (filename & ok & ->)])];
    cbn [snd]; try lia.
  destruct (download_image_events E src_val
              (path_join (path_join output_folder "imgs") filename) tr)
    as (new & -> & _ & Hle).
  rewrite requests_made_app. lia.
Qed.

Lemma fix_imgs_frame (output_folder : string) (soup : list piece) (tr : trace) :
  match fst (fix_imgs E output_folder soup tr) with
  | Ok soup' =>
      Forall2 same_but_src_loading soup soup' /\ Forall no_loading soup'
  | Raise e =>
      exists tag src_val,
        In (Img tag) soup /\ attr_get "src" tag = Some src_val /\
        is_remote src_val = true /\ url_path E src_val = Raise e
  end.
Proof.
  revert tr. induction soup as [|[s|tag] rest IH]; intros tr; simpl.
  - split; constructor.
  - specialize (IH tr).
    destruct (fix_imgs E output_folder rest tr) as [[rest'|e] tr']; simpl in *.
    + destruct IH as [IH1 IH2]. split; constructor; simpl; auto.
    + destruct IH as (tag & src_val & Hin & Hrest).
      exists tag, src_val. split; [now right | exact Hrest].
  - destruct (fix_img_tag E output_folder tag tr) as [[tag'|e] tr1] eqn:Htag.
    + destruct (fix_img_tag_frame _ _ _ _ _ Htag) as [Hfr Hnl].
      specialize (IH tr1).
      destruct (fix_imgs E output_folder rest tr1) as [[rest'|e] tr'];
        simpl in *.
      * destruct IH as [IH1 IH2]. split; constructor; auto.
      * destruct IH as (tag0 & src_val & Hin & Hrest).
        exists tag0, src_val. split; [now right | exact Hrest].
    + simpl. destruct (fix_img_tag_raise _ _ _ _ _ Htag) as (src_val & Hrest).
      exists tag, src_val. split; [now left | exact Hrest].
Qed.

(** [fix_img_links_in_html] touches nothing but the [src] and [loading]
    attributes of [<img>] tags: the markup it returns is the rendering of
    the parsed input in which the text between tags is unchanged, every tag
    keeps its other attributes, and no tag has a [loading] attribute.  It
    raises only what [urlparse] raises on the [src] of one of the tags, a
    [src] that starts with [http] or [/uploads/]. *)
Theorem html_rewriting_frame (html_str output_folder : string) (tr : trace) :
  match fst (fix_img_links_in_html E html_str output_folder tr) with
  | Ok html =>
      exists soup',
        html = bs_str E soup' /\
        Forall2 same_but_src_loading (bs_parse E html_str) soup' /\
        Forall no_loading soup'
  | Raise e =>
      exists tag src_val,
        In (Img tag) (bs_parse E html_str) /\
        attr_get "src" tag = Some src_val /\
        is_remote src_val = true /\ url_path E src_val = Raise e
  end.
Proof.
  unfold fix_img_links_in_html.
  pose proof (fix_imgs_frame output_folder (bs_parse E html_str) tr) as H.
  destruct (fix_imgs E output_folder (bs_parse E html_str) tr)
    as [[soup'|e] tr']; simpl in *.
  - exists soup'. split; [reflexivity | exact H].
  - exact H.
Qed.

(** [fix_img_links_in_html] sends at most five requests per [<img>] tag of
    the markup, and none for markup without a tag, whether it returns or
    raises. *)
Theorem html_rewriting_requests_bounded (html_str output_folder : string)
    (tr : trace) :
  (requests_made (snd (fix_img_links_in_html E html_str output_folder tr))
   <= requests_made tr + 5 * count_imgs (bs_parse E html_str))%nat.
Proof.
  unfold fix_img_links_in_html.
  assert (H : forall soup tr0,
            (requests_made (snd (fix_imgs E output_folder soup tr0))
             <= requests_made tr0 + 5 * count_imgs soup)%nat).
  { induction soup as [|[s|tag] rest IH]; intros tr0; simpl.
    - unfold count_imgs. simpl. lia.
    - specialize (IH tr0).
      destruct (fix_imgs E output_folder rest tr0) as [[rest'|e] tr'];
        simpl in *; exact IH.
    - pose proof (fix_img_tag_requests output_folder tag tr0) as Hrq.
      destruct (fix_img_tag E output_folder tag tr0) as [[tag'|e] tr1];
        simpl in *.
      + specialize (IH tr1).
        destruct (fix_imgs E output_folder rest tr1) as [[rest'|e] tr'];
          simpl in *; unfold count_imgs in *; simpl; lia.
      + unfold count_imgs. simpl. lia. }
  specialize (H (bs_parse E html_str) tr).
  destruct (fix_imgs E output_folder (bs_parse E html_str) tr)
    as [[soup'|e] tr']; exact H.
Qed.

(** The requests of one [download_image] call all go to one address (the
    [url] itself when it starts with [https://], the site's address followed
    by [url] otherwise), there are never more than [max_retries] of them,
    every file written is [save_path], and the call only adds to the
    trace. *)
Theorem download_image_requests_bounded (url save_path : string)
    (max_retries sleep_time : Z) (tr : trace) :
  exists new,
    snd (download_image E url save_path max_retries sleep_time tr)
    = (tr ++ new)%list /\
    gets_to (image_target url) new /\
    (requests_made new <= Z.to_nat max_retries)%nat /\
    paths_written new = repeat save_path (length (paths_written new)) /\
    (startswith url "https://" = false ->
     gets_to ("https://ranobelib.me" ++ url) new).
Proof.
  destruct (image_attempts_events E url save_path max_retries sleep_time
              (Z.to_nat max_retries) 1 tr) as (new & Hs & Hev & Hle & _).
  pose proof (image_events_gets_to _ _ _ _ Hev) as Hg.
  exists new. split; [exact Hs|]. split; [exact Hg|]. split; [exact Hle|].
  split.
  - clear Hs Hle Hg. induction Hev as [|e rest He _ IH]; [reflexivity|].
    destruct e; simpl in *; try exact IH. subst path. now f_equal.
  - intros Hn. unfold image_target in Hg. now rewrite Hn in Hg.
Qed.

(** For a chapter with structured content the attachments are downloaded
    twice over: once by [fix_img_links_in_doc], once by the loop that
    follows it.  With a server that answers every request and files that
    can be written, the step for such a chapter appends the chapter as
    fetched, after requesting each attachment's address and writing each
    attachment's file twice, list by list. *)
Theorem doc_chapter_attachments_fetched_twice (book_id out_path : string)
    (ch : stub) (all_chapters : list chapter) (tr tr1 : trace) (d : chapter)
    (nodes : list node) :
  always_ok E ->
  get_chapter_data E book_id (int_str E (tom ch))
    (float_str E (chapter_no ch))
    default_max_retries default_sleep_time tr = (Ok (Some d), tr1) ->
  ch_content d = CDict "doc" nodes ->
  exists new,
    chapter_step E book_id out_path ch all_chapters tr
    = (Ok (all_chapters ++ [d])%list, (tr1 ++ new)%list) /\
    urls_requested new
    = (map (fun att => image_target (att_url att)) (ch_attachments d)
       ++ map (fun att => image_target (att_url att)) (ch_attachments d))%list /\
    paths_written new
    = (map (fun att => path_join (path_join out_path "imgs")
                         (att_filename att)) (ch_attachments d)
       ++ map (fun att => path_join (path_join out_path "imgs")
                            (att_filename att)) (ch_attachments d))%list.
Proof.
  intros Hok Hget Hc.
  destruct (download_attachments_all_ok E (path_join out_path "imgs")
              (ch_attachments d) tr1 Hok) as (new1 & H1 & Hu1 & Hp1).
  destruct (download_attachments_all_ok E (path_join out_path "imgs")
              (ch_attachments d) (tr1 ++ new1)%list Hok)
    as (new2 & H2 & Hu2 & Hp2).
  exists (new1 ++ new2)%list.
  rewrite urls_requested_app, paths_written_app, Hu1, Hu2, Hp1, Hp2.
  split; [|split; reflexivity].
  unfold chapter_step. rewrite Hget, Hc. simpl.
  unfold fix_img_links_in_doc. rewrite H1, H2, app_assoc.
  destruct d; simpl in *. now subst.
Qed.
End HtmlFrame.

Lemma doc_chapter_attachments_fetched_twice_witness :
  exists new,
    chapter_step (world server_ok) "1--a" "out" sample_stub [] []
    = (Ok [sample_chapter],
       (Get "https://api2.mangalib.me/api/manga/1--a/chapter?number=1&volume=1"
        :: new)) /\
    paths_written new = ["out/imgs/pic.jpg"; "out/imgs/pic.jpg"].
Proof.
  destruct (doc_chapter_attachments_fetched_twice (world server_ok)
              "1--a" "out" sample_stub [] []
              [Get "https://api2.mangalib.me/api/manga/1--a/chapter?number=1&volume=1"]
              sample_chapter
              [{| n_type := "image"; n_content := None;
                  n_images := [Some "pic"] |}]
              server_ok_always_ok eq_refl eq_refl) as (new & H & _ & Hp).
  exists new. split; [exact H | exact Hp].
Defined.

(** ** Runs that stop early, and what a whole run reports *)

Section Runs.
Variable E : env.


(** When the request for the book's information is answered with a status
    other than 200, [get_ranobe_content] raises [ValueError] after that one
    request: nothing is downloaded and nothing is written. *)
Theorem missing_book_info_stops_run (book_url output_dir book_id : string)
    (tr : trace) (r : response) :
  extract_book_id E book_url = Some book_id ->
  truthy book_id = true ->
  http_get E (requests_made tr) (api ++ book_id ++ "?fields[]=summary")
  = Responded r ->
  status_code r <> 200 ->
  get_ranobe_content E book_url output_dir tr
  = (Raise (ValueError no_info_message),
     (tr ++ [Progress 0; Progress (5 # 100);
             Get (api ++ book_id ++ "?fields[]=summary")])%list).
Proof.
  intros Hid Ht Hget Hst. unfold get_ranobe_content. rewrite Hid, Ht. simpl.
  unfold get_book_info, requests_get, progress.
  rewrite !requests_made_app. simpl. unfold requests_made at 2 3. simpl.
  rewrite !Nat.add_0_r, Hget.
  apply Z.eqb_neq in Hst. rewrite Hst. rewrite <- !app_assoc. reflexivity.
Qed.

Lemma read_record_last (path : string) (d : ranobe) (before after : trace) :
  (forall p d', ~ In (WriteRecord p d') after) ->
  read_record path (before ++ WriteRecord path d :: after)%list = Some d.
Proof.
  intros Hafter.
  assert (Ha : read_record path after = None).
  { induction after as [|e rest IH]; [reflexivity|]. simpl.
    rewrite IH by (intros p d' Hin; apply (Hafter p d'); now right).
    destruct e; try reflexivity. exfalso. apply (Hafter path0 data). now left. }
  induction before as [|e rest IH]; simpl.
  - rewrite Ha. now rewrite String.eqb_refl.
  - now rewrite IH.
Qed.

(** When [get_ranobe_content] succeeds, the path it returns is
    [ranobe.json] under the output directory, the record written there is
    the last thing it writes, and [run_pipeline] hands exactly that record
    to the assembly: the result of the run is the result of the assembly
    on it. *)
Theorem pipeline_assembles_written_record
    (create_epub : ranobe -> res string) (book_url output_dir : string)
    (p : string) (tr' : trace) :
  get_ranobe_content E book_url output_dir (progress (1 # 10) (progress 0 []))
  = (Ok p, tr') ->
  p = path_join output_dir "ranobe.json" /\
  exists d before,
    tr' = (before ++ [WriteRecord p d; LogInfo "ranobe.json saved";
                      Progress 1])%list /\
    extract_book_id E book_url = Some (r_id d) /\
    fst (run_pipeline E create_epub book_url output_dir []) = create_epub d.
Proof.
  intros H.
  destruct (get_ranobe_content_record E _ _ _ _ _ H)
    as (Hp & d & before & Htr & Hid & _).
  split; [exact Hp|]. exists d, before. split; [exact Htr|].
  split; [exact Hid|].
  unfold run_pipeline. rewrite H. unfold progress at 1.
  rewrite Htr, <- app_assoc. simpl.
  rewrite (read_record_last p d before).
  - destruct (create_epub d); reflexivity.
  - intros p0 d' Hin. simpl in Hin.
    destruct Hin as [Hin|[Hin|[Hin|[]]]]; discriminate Hin.
Qed.

Lemma in_unit_const (n : Z) (d : positive) :
  0 <= n -> n <= Z.pos d -> in_unit (n # d).
Proof. intros H1 H2. unfold in_unit, Qle. simpl. lia. Qed.

Lemma unit_quiet (tr tr' : trace) :
  quiet_step tr tr' ->
  Forall in_unit (fractions tr) -> Forall in_unit (fractions tr').
Proof. intros Hq H. now rewrite (quiet_fractions tr tr' Hq). Qed.

Lemma unit_progress (tr : trace) (q : Q) :
  in_unit q ->
  Forall in_unit (fractions tr) -> Forall in_unit (fractions (progress q tr)).
Proof.
  intros Hq H. rewrite fractions_snoc. apply List.Forall_app. split; auto.
Qed.

Lemma unit_tqdm_from (n i k : nat) :
  (forall i n, (i <= n)%nat -> Forall in_unit (tqdm_report E i n)) ->
  (i + k <= n)%nat ->
  Forall in_unit (tqdm_from E n i k).
Proof.
  intros H. revert i.
  induction k as [|k IH]; intros i Hle; simpl; [apply H; lia|].
  apply List.Forall_app. split; [apply H; lia | apply IH; lia].
Qed.

Lemma get_ranobe_content_unit (book_url output_dir : string) (tr : trace) :
  (forall i n, (i <= n)%nat -> Forall in_unit (tqdm_report E i n)) ->
  Forall in_unit (fractions tr) ->
  Forall in_unit (fractions (snd (get_ranobe_content E book_url output_dir tr))).
Proof.
  intros Htq Htr. unfold get_ranobe_content.
  assert (U0 : Forall in_unit
                 (fractions (progress (5 # 100) (progress 0 tr)))).
  { apply unit_progress; [now apply in_unit_const|].
    apply unit_progress; [now apply in_unit_const | exact Htr]. }
  destruct (extract_book_id E book_url) as [book_id|]; [|exact U0].
  destruct (negb (truthy book_id)); [exact U0|].
  pose proof (get_book_info_quiet E book_id
                (progress (5 # 100) (progress 0 tr))) as Q1.
  destruct (get_book_info E book_id _) as [info tr1]. simpl in Q1.
  pose proof (unit_quiet _ _ Q1 U0) as U1.
  destruct info as [[info|]|e]; try exact U1.
  pose proof (fetch_cover_quiet E book_id (path_join output_dir "imgs")
                (progress (1 # 10) tr1)) as Q2.
  destruct (fetch_cover E book_id _ _) as [cover tr2]. simpl in Q2.
  assert (U2 : Forall in_unit (fractions tr2)).
  { apply (unit_quiet _ _ Q2). apply unit_progress; [now apply in_unit_const|].
    exact U1. }
  destruct cover as [cover|e]; [|exact U2].
  pose proof (get_chapters_list_quiet E book_id (progress (15 # 100) tr2))
    as Q3.
  destruct (get_chapters_list E book_id _) as [chapters_list tr3].
  simpl in Q3.
  assert (U3 : Forall in_unit (fractions tr3)).
  { apply (unit_quiet _ _ Q3). apply unit_progress; [now apply in_unit_const|].
    exact U2. }
  destruct chapters_list as [chapters_list|e]; [|exact U3].
  destruct (chapters_loop_fractions E book_id output_dir
              (length chapters_list) 0 chapters_list []
              (tr3 ++ [LogInfo "chapters found"])%list)
    as (reported & unreported & F4 & Ht & _).
  destruct (chapters_loop E book_id output_dir _ _ _ _ _)
    as [all_chapters tr4]. simpl in F4.
  assert (U4 : Forall in_unit (fractions tr4)).
  { rewrite F4. apply List.Forall_app. split.
    - rewrite fractions_snoc_quiet by discriminate. exact U3.
    - assert (Hall : Forall in_unit
                       (tqdm_from E (length chapters_list) 0
                          (length chapters_list)))
        by (apply unit_tqdm_from; [exact Htq | lia]).
      rewrite Ht in Hall. now apply List.Forall_app in Hall. }
  destruct all_chapters as [all_chapters|e]; [|exact U4].
  assert (U5 : Forall in_unit (fractions (progress (95 # 100) tr4))).
  { apply unit_progress; [now apply in_unit_const | exact U4]. }
  destruct (can_write E (path_join output_dir "ranobe.json")); [|exact U5].
  simpl. apply unit_progress; [now apply in_unit_const|].
  rewrite fractions_app. simpl. now rewrite app_nil_r.
Qed.

(** Every fraction [run_pipeline] hands to the progress callback lies
    within [0, 1], provided those reported by [progress.tqdm] for item [i]
    of [n], [i] at most [n], do. *)
Theorem pipeline_fractions_in_unit (create_epub : ranobe -> res string)
    (book_url output_dir : string) :
  (forall i n, (i <= n)%nat -> Forall in_unit (tqdm_report E i n)) ->
  Forall in_unit
    (fractions (snd (run_pipeline E create_epub book_url output_dir []))).
Proof.
  intros Htq. unfold run_pipeline.
  pose proof (get_ranobe_content_unit book_url output_dir
                (progress (1 # 10) (progress 0 [])) Htq) as U.
  destruct (get_ranobe_content E book_url output_dir _) as [r tr1].
  simpl in U.
  assert (U1 : Forall in_unit (fractions tr1)).
  { apply U. repeat constructor; unfold Qle; simpl; lia. }
  destruct r as [p|e]; [|exact U1].
  assert (U2 : Forall in_unit (fractions (progress (8 # 10) tr1))).
  { apply unit_progress; [now apply in_unit_const | exact U1]. }
  destruct (read_record p _); [|exact U2].
  destruct (create_epub r); [|exact U2].
  simpl. apply unit_progress; [now apply in_unit_const | exact U2].
Qed.

(** On success [get_ranobe_content] reports 0, 0.05, 0.1 and 0.15, then
    what [progress.tqdm] reports over the list of chapters, then 0.95 and
    1, and nothing else. *)
Theorem acquisition_milestones (book_url output_dir p : string) (tr : trace) :
  fst (get_ranobe_content E book_url output_dir tr) = Ok p ->
  exists n,
    fractions (snd (get_ranobe_content E book_url output_dir tr))
    = (fractions tr
       ++ [0; 5 # 100; 1 # 10; 15 # 100]%Q
       ++ tqdm_from E n 0 n ++ [95 # 100; 1]%Q)%list.
Proof.
  intros H.
  destruct (get_ranobe_content_fractions E book_url output_dir tr)
    as (rest & Hf & Hok).
  destruct (Hok p H) as (n & ->). exists n. exact Hf.
Qed.
End Runs.


Lemma missing_book_info_stops_run_witness :
  get_ranobe_content (world server_404) "https://ranobelib.me/ru/book/1--a"
    "out" []
  = (Raise (ValueError no_info_message),
     [Progress 0; Progress (5 # 100);
      Get "https://api2.mangalib.me/api/manga/1--a?fields[]=summary"]).
Proof.
  apply (missing_book_info_stops_run (world server_404)
           "https://ranobelib.me/ru/book/1--a" "out" "1--a" []
           {| status_code := 404; resp_content := [] |}).
  - reflexivity.
  - reflexivity.
  - reflexivity.
  - discriminate.
Defined.

Lemma pipeline_assembles_written_record_witness :
  fst (run_pipeline (world server_ok) (fun d => Ok (r_id d))
         "https://ranobelib.me/ru/book/1--a" "out" [])
  = Ok "1--a".
Proof.
  destruct (get_ranobe_content (world server_ok)
              "https://ranobelib.me/ru/book/1--a" "out"
              (progress (1 # 10) (progress 0 []))) as [r tr'] eqn:Hrun.
  assert (Hr : r = Ok "out/ranobe.json").
  { apply (f_equal fst) in Hrun. vm_compute in Hrun. now subst r. }
  subst r.
  destruct (pipeline_assembles_written_record (world server_ok)
              (fun d => Ok (r_id d)) "https://ranobelib.me/ru/book/1--a"
              "out" "out/ranobe.json" tr' Hrun)
    as (_ & d & before & _ & Hid & Hres).
  rewrite Hres.
  assert (Hx : extract_book_id (world server_ok)
                 "https://ranobelib.me/ru/book/1--a" = Some "1--a")
    by reflexivity.
  rewrite Hx in Hid. injection Hid as Hd. cbn beta. now rewrite <- Hd.
Defined.

Lemma pipeline_fractions_in_unit_witness :
  Forall in_unit
    (fractions (snd (run_pipeline (world server_ok) (fun _ => Ok "book.epub")
                       "https://ranobelib.me/ru/book/1--a" "out" []))).
Proof.
  apply (pipeline_fractions_in_unit (world server_ok)).
  intros i n Hle. simpl. constructor; [|constructor].
  unfold in_unit, Qle, Qdiv, Qmult, Qinv, inject_Z. simpl.
  destruct n as [|n]; simpl; lia.
Defined.

Lemma acquisition_milestones_witness :
  exists n,
    fractions (snd (get_ranobe_content (world server_ok)
                      "https://ranobelib.me/ru/book/1--a" "out" []))
    = ([0; 5 # 100; 1 # 10; 15 # 100]%Q
       ++ tqdm_from (world server_ok) n 0 n ++ [95 # 100; 1]%Q)%list.
Proof.
  exact (acquisition_milestones (world server_ok)
           "https://ranobelib.me/ru/book/1--a" "out" "out/ranobe.json" []
           eq_refl).
Defined.

(** ** The list of chapters *)

Section ChapterList.
Variable E : env.












Lemma ends_with_dot_zero_app (s : string) :
  ends_with_dot_zero (s ++ ".0") = true.
Proof.
  induction s as [|a s IH]; [reflexivity|].
  change ((String a s) ++ ".0") with (String a (s ++ ".0")).
  cbn [ends_with_dot_zero]. rewrite IH. apply orb_true_r.
Qed.

Lemma before_dot_app (s : string) :
  dotless s = true -> before_dot (s ++ ".0") = s.
Proof.
  induction s as [|a s IH]; [reflexivity|].
  cbn [dotless]. intros H. apply andb_true_iff in H. destruct H as [Ha Hs].
  change ((String a s) ++ ".0") with (String a (s ++ ".0")).
  cbn [before_dot]. apply negb_true_iff in Ha. rewrite Ha. now rewrite IH.
Qed.

Lemma dotless_not_dot_zero (s : string) :
  dotless s = true -> ends_with_dot_zero s = false.
Proof.
  induction s as [|a s IH]; [reflexivity|].
  cbn [dotless ends_with_dot_zero]. intros H.
  apply andb_true_iff in H. destruct H as [Ha Hs].
  rewrite (IH Hs), orb_false_r.
  apply String.eqb_neq. intros Heq. injection Heq as -> _.
  discriminate Ha.
Qed.

(** A whole chapter number is requested without its fraction: the address
    for ["N.0"] is the address for ["N"]. *)
Theorem whole_chapter_number_requested_bare (book_id volume n : string) :
  dotless n = true ->
  chapter_url book_id volume (n ++ ".0") = chapter_url book_id volume n /\
  chapter_url book_id volume n
  = api ++ book_id ++ "/chapter?number=" ++ n ++ "&volume=" ++ volume.
Proof.
  intros H. unfold chapter_url.
  rewrite ends_with_dot_zero_app, before_dot_app by exact H.
  now rewrite dotless_not_dot_zero.
Qed.



End ChapterList.


Lemma whole_chapter_number_requested_bare_witness :
  chapter_url "1--a" "2" "12.0" = chapter_url "1--a" "2" "12".
Proof.
  apply (whole_chapter_number_requested_bare "1--a" "2" "12"). reflexivity.
Defined.


(** ** Grouping by volume *)

Section Grouping.
Variable pyfloat : python_floats.

Lemma vm_append_nodup (v : string) (ch : chapter)
    (m : list (string * list chapter)) :
  List.NoDup (map fst m) -> List.NoDup (map fst (vm_append v ch m)).
Proof.
  induction m as [|[k cs] m IH]; simpl; intros Hn.
  - apply List.NoDup_cons; [intros [] | apply List.NoDup_nil].
  - destruct (String.eqb k v) eqn:He; simpl; [exact Hn|].
    apply List.NoDup_cons_iff in Hn. destruct Hn as [Hk Hn].
    apply List.NoDup_cons; [|now apply IH].
    rewrite vm_append_keys. intros [Hkv|Hin]; [|contradiction].
    subst k. rewrite String.eqb_refl in He. discriminate He.
Qed.

Lemma vm_append_own (ch : chapter) (m : list (string * list chapter)) :
  Forall own_chapters m -> Forall own_chapters (vm_append (ch_volume ch) ch m).
Proof.
  induction m as [|[k cs] m IH]; simpl; intros Hf.
  - constructor; [|constructor]. split; simpl; [discriminate|].
    constructor; [reflexivity | constructor].
  - apply List.Forall_cons_iff in Hf. destruct Hf as [[Hne Hk] Hf].
    destruct (String.eqb k (ch_volume ch)) eqn:He.
    + apply String.eqb_eq in He. constructor; [|exact Hf]. split; simpl in *.
      * destruct cs; discriminate.
      * apply List.Forall_app. split; [exact Hk|].
        constructor; [now symmetry | constructor].
    + constructor; [now split | now apply IH].
Qed.

Lemma volumes_map_fold_wf (chapters : list chapter)
    (m : list (string * list chapter)) :
  List.NoDup (map fst m) -> Forall own_chapters m ->
  let m' := fold_left (fun m ch => vm_append (ch_volume ch) ch m) chapters m in
  List.NoDup (map fst m') /\ Forall own_chapters m' /\
  Permutation (flat_map snd m') (flat_map snd m ++ chapters).
Proof.
  revert m. induction chapters as [|c cs IH]; intros m Hn Hf; simpl.
  - rewrite app_nil_r. auto.
  - destruct (IH (vm_append (ch_volume c) c m)) as (H1 & H2 & H3).
    + now apply vm_append_nodup.
    + now apply vm_append_own.
    + split; [exact H1|]. split; [exact H2|].
      rewrite H3, vm_append_flat. simpl. apply Permutation_middle.
Qed.

Lemma volumes_map_wf (chapters : list chapter) :
  List.NoDup (map fst (volumes_map_of chapters)) /\
  Forall own_chapters (volumes_map_of chapters) /\
  Permutation (flat_map snd (volumes_map_of chapters)) chapters.
Proof.
  apply (volumes_map_fold_wf chapters []); constructor.
Qed.

Lemma vm_get_found (m : list (string * list chapter)) (k : string) :
  In k (map fst m) -> In (k, vm_get m k) m.
Proof.
  induction m as [|[k' cs] m IH]; simpl; [tauto|].
  destruct (String.eqb k' k) eqn:He.
  - apply String.eqb_eq in He. subst. now left.
  - intros [->|Hin]; [now rewrite String.eqb_refl in He | right; auto].
Qed.

Lemma vm_get_flat (m : list (string * list chapter)) :
  List.NoDup (map fst m) -> flat_map (vm_get m) (map fst m) = flat_map snd m.
Proof.
  induction m as [|[k cs] m IH]; simpl; intros Hn; [reflexivity|].
  apply List.NoDup_cons_iff in Hn. destruct Hn as [Hk Hn].
  rewrite String.eqb_refl. f_equal. rewrite <- (IH Hn).
  rewrite !flat_map_concat_map. f_equal. apply map_ext_in.
  intros k' Hk'. destruct (String.eqb k k') eqn:He; [|reflexivity].
  apply String.eqb_eq in He. now subst.
Qed.

Lemma volume_loop_perm (m : list (string * list chapter))
    (vols : list string) (secs : list (string * list chapter)) :
  volume_loop pyfloat m vols = Ok secs ->
  map fst secs = vols /\
  Forall (fun sec => Permutation (snd sec) (vm_get m (fst sec))) secs.
Proof.
  revert secs. induction vols as [|vol rest IH]; intros secs H; simpl in H.
  - injection H as <-. split; [reflexivity | constructor].
  - destruct (py_sorted _ _ (vm_get m vol)) as [chapters|] eqn:Hs;
      try discriminate.
    destruct (volume_loop pyfloat m rest) as [secs'|]; try discriminate.
    injection H as <-. destruct (IH _ eq_refl) as [Hl Hf].
    simpl. split; [now rewrite Hl|]. constructor; [|exact Hf].
    exact (py_sorted_perm _ _ _ _ Hs).
Qed.

Lemma sections_flat (m : list (string * list chapter))
    (secs : list (string * list chapter)) :
  Forall (fun sec => Permutation (snd sec) (vm_get m (fst sec))) secs ->
  Permutation (flat_map snd secs) (flat_map (vm_get m) (map fst secs)).
Proof.
  induction 1 as [|sec secs Hp _ IH]; simpl; [reflexivity|].
  now apply Permutation_app.
Qed.

(** When the assembly gets through its sorting, the volume sections hold
    every chapter of the record exactly once: no two sections share a
    label, no section is empty, and each chapter stands in the section of
    its own volume label. *)
Theorem volume_sections_partition (data : ranobe)
    (secs : list (string * list chapter)) :
  volume_sections pyfloat data = Ok secs ->
  Permutation (flat_map snd secs) (r_chapters data) /\
  List.NoDup (map fst secs) /\
  Forall (fun sec => snd sec <> [] /\
                     Forall (fun c => ch_volume c = fst sec) (snd sec)) secs.
Proof.
  unfold volume_sections. intros H.
  destruct (volumes_map_wf (r_chapters data)) as (Hn & Hown & Hperm).
  set (m := volumes_map_of (r_chapters data)) in *.
  destruct (py_sorted _ _ (map fst m)) as [sorted_vols|] eqn:Hs;
    try discriminate.
  pose proof (py_sorted_perm _ _ _ _ Hs) as Hsp.
  apply volume_loop_perm in H. destruct H as [Hl Hsecs].
  split; [|split].
  - rewrite (sections_flat m secs Hsecs), Hl.
    rewrite Hsp. now rewrite vm_get_flat.
  - rewrite Hl. apply (Permutation_NoDup (l := map fst m)); [|exact Hn].
    now symmetry.
  - apply List.Forall_forall. intros sec Hsec.
    rewrite List.Forall_forall in Hsecs. specialize (Hsecs sec Hsec).
    assert (Hk : In (fst sec) (map fst m)).
    { apply (Permutation_in _ Hsp). rewrite <- Hl. now apply in_map. }
    apply vm_get_found in Hk. rewrite List.Forall_forall in Hown.
    destruct (Hown _ Hk) as [Hne Hall]. simpl in *. split.
    + intros He. rewrite He in Hsecs. apply Permutation_nil in Hsecs.
      contradiction.
    + apply List.Forall_forall. intros c Hc.
      rewrite List.Forall_forall in Hall. apply Hall.
      now apply (Permutation_in c Hsecs).
Qed.







End Grouping.

Lemma volume_sections_partition_witness :
  exists secs,
    volume_sections decimal_float two_volume_book = Ok secs /\
    Permutation (flat_map snd secs) (r_chapters two_volume_book) /\
    List.NoDup (map fst secs).
Proof.
  destruct (volume_sections decimal_float two_volume_book) as [secs|e] eqn:H;
    [|vm_compute in H; discriminate H].
  exists secs. split; [reflexivity|].
  destruct (volume_sections_partition decimal_float two_volume_book secs H)
    as (Hp & Hn & _).
  split; [exact Hp | exact Hn].
Defined.



Lemma volume_sections_ordered_witness :
  exists secs,
    volume_sections decimal_float two_volume_book = Ok secs /\
    sections_ordered decimal_float secs.
Proof.
  destruct (volume_sections decimal_float two_volume_book) as [secs|e] eqn:H;
    [|vm_compute in H; discriminate H].
  exists secs. split; [reflexivity|].
  apply (volume_sections_ordered decimal_float two_volume_book secs);
    [|exact H].
  intros c Hc. simpl in Hc.
  destruct Hc as [<-|[<-|[<-|[]]]]; vm_compute; split; discriminate.
Defined.

(** ** The cache of compressed images *)

Section Cache.
Variable E : asm_env.

(** A call of [_compress_image] never drops or changes an entry of the
    cache: entries of other paths are untouched, an entry of the path itself
    is only ever added; the quality setting stays, and the log of the run
    only grows. *)
Theorem compress_cache_only_grows (img_path : string) (c : creator) :
  let c' := snd (_compress_image E img_path c) in
  (forall q d, _image_cache c !! q = Some d -> _image_cache c' !! q = Some d) /\
  (forall q, q <> img_path -> _image_cache c' !! q = _image_cache c !! q) /\
  image_quality c' = image_quality c /\
  exists evs, asm_trace c' = (asm_trace c ++ evs)%list.
Proof.
  unfold _compress_image.
  destruct (_image_cache c !! img_path) as [data|] eqn:Hc.
  - simpl. repeat split; auto. exists []. now rewrite app_nil_r.
  - destruct (fs E img_path) as [raw|].
    + destruct (jpeg E (image_quality c) raw) as [data|]; simpl.
      * repeat split.
        -- intros q d Hq. destruct (decide (q = img_path)) as [->|Hne].
           ++ congruence.
           ++ now rewrite lookup_insert_ne.
        -- intros q Hne. now rewrite lookup_insert_ne.
        -- now exists [ImageOpen img_path].
      * repeat split; auto.
        exists [ImageOpen img_path; CompressWarning img_path;
                ReadBytes img_path].
        now rewrite <- app_assoc.
    + simpl. repeat split; auto.
      exists [ImageOpen img_path; CompressWarning img_path;
              ReadBytes img_path].
      now rewrite <- app_assoc.
Qed.

End Cache.

(** ** Attachments and nodes *)

Section DocNodes.

Lemma name_map_fold_other (atts : list attachment) (m : gmap string string)
    (k : string) :
  (forall att, In att atts -> stem att <> k) ->
  fold_left name_map_step atts m !! k = m !! k.
Proof.
  revert m. induction atts as [|a atts IH]; intros m H; simpl; [reflexivity|].
  rewrite IH by (intros att Hin; apply H; now right).
  unfold name_map_step. apply lookup_insert_ne. apply H. now left.
Qed.

(** Of several attachments whose file names differ in the extension only,
    the last one is the one an image node resolves to. *)
Theorem last_attachment_of_a_name_wins (before after : list attachment)
    (att : attachment) :
  (forall a, In a after -> stem a <> stem att) ->
  name_map_of (before ++ att :: after) !! stem att = Some (att_filename att) /\
  (truthy (stem att) = true -> truthy (att_filename att) = true ->
   html_parts (image_emit (name_map_of (before ++ att :: after))
                 (Some (stem att)))
   = [img_tag (att_filename att)]).
Proof.
  intros Hafter.
  assert (Hl : name_map_of (before ++ att :: after) !! stem att
               = Some (att_filename att)).
  { unfold name_map_of. rewrite fold_left_app. simpl.
    rewrite name_map_fold_other by exact Hafter.
    unfold name_map_step at 1. apply lookup_insert_eq. }
  split; [exact Hl|]. intros Ht Hf. unfold image_emit.
  now rewrite Ht, Hl, Hf.
Qed.

Lemma emit_app_nothing (a : emitted) : emit_app a emit_nothing = a.
Proof. destruct a. unfold emit_app. simpl. now rewrite !app_nil_r. Qed.

Lemma node_emit_unknown (m : gmap string string) (nd : node) :
  known_node nd = false -> node_emit m nd = emit_nothing.
Proof.
  unfold known_node, node_emit. intros H. apply orb_false_iff in H.
  destruct H as [-> ->]. reflexivity.
Qed.

(** Nodes that are neither paragraphs nor images leave no trace in the
    markup: the conversion of a node tree is the conversion of its
    paragraphs and images alone. *)
Theorem other_nodes_leave_no_trace (nodes : list node)
    (attachments : list attachment) :
  doc_emit nodes attachments
  = doc_emit (List.filter known_node nodes) attachments /\
  _doc_to_html "doc" nodes attachments
  = _doc_to_html "doc" (List.filter known_node nodes) attachments.
Proof.
  assert (H : doc_emit nodes attachments
              = doc_emit (List.filter known_node nodes) attachments).
  { unfold doc_emit. generalize emit_nothing as acc.
    induction nodes as [|nd nodes IH]; intros acc; simpl; [reflexivity|].
    destruct (known_node nd) eqn:Hk; simpl.
    - apply IH.
    - rewrite node_emit_unknown by exact Hk. rewrite emit_app_nothing.
      apply IH. }
  split; [exact H|]. unfold _doc_to_html. simpl. now rewrite H.
Qed.
End DocNodes.

Lemma last_attachment_of_a_name_wins_witness :
  html_parts
    (image_emit
       (name_map_of [{| att_url := "/uploads/pic.jpg"; att_filename := "pic.jpg" |};
                     {| att_url := "/uploads/pic.png"; att_filename := "pic.png" |};
                     {| att_url := "/uploads/map.png"; att_filename := "map.png" |}])
       (Some "pic"))
  = [img_tag "pic.png"].
Proof.
  destruct (last_attachment_of_a_name_wins
              [{| att_url := "/uploads/pic.jpg"; att_filename := "pic.jpg" |}]
              [{| att_url := "/uploads/map.png"; att_filename := "map.png" |}]
              {| att_url := "/uploads/pic.png"; att_filename := "pic.png" |})
    as [_ H].
  - intros a [<-|[]]. vm_compute. discriminate.
  - exact (H eq_refl eq_refl).
Defined.
